(** * reactive-fs: the in-memory file system (src/memory-fs.ts)

    A shallow embedding of [MemoryFileSystem]: the tree of [Directory] and
    [File] nodes, the synchronous core of every contract operation, the
    events each call emits and the error it may throw.

    The JavaScript objects are mutated in place.  Every node object is
    created by one [new] and pushed into exactly one [children] array, and
    [parseTree] hands out fresh copies, so no node is reachable through two
    references: mutating a node in place is the same as rebuilding the spine
    of the tree above it, which is what the functions below do.  A call that
    throws keeps the mutations and the events made before the throw, so every
    operation returns the tree and the emitted events also when it throws. *)

From Stdlib Require Import String Ascii List Bool Arith Lia Permutation.
Import ListNotations.
Local Open Scope string_scope.
Local Open Scope list_scope.

(** ** Paths (api.ts, utils.ts) *)

(** Modelled from the spec: [pathSeparator] of api.ts, which is not among the
    sources; "one fixed separator character across all implementations". *)
Definition pathSeparatorChar : ascii := "/"%char.
Definition pathSeparator : string := String pathSeparatorChar EmptyString.

(** [path.split(pathSeparator)] for the one-character separator. *)
Fixpoint split (path : string) : list string :=
  match path with
  | EmptyString => [EmptyString]
  | String c rest =>
      if Ascii.eqb c pathSeparatorChar then EmptyString :: split rest
      else match split rest with
           | h :: t => String c h :: t
           | [] => [String c EmptyString]
           end
  end.

(** [arr.join(pathSeparator)]. *)
Fixpoint join (arr : list string) : string :=
  match arr with
  | [] => EmptyString
  | [x] => x
  | x :: rest => x ++ pathSeparator ++ join rest
  end.

Definition nonEmpty (s : string) : bool :=
  match s with EmptyString => false | String _ _ => true end.

(** Modelled from the spec: [getPathNodes] of utils.ts, which is not among
    the sources.  The path is cut at the canonical separator and the empty
    segments are dropped; the store relies on the empty path having no
    segment at all (root checks [pathArr.length === 0], and [pop()] of the
    segments of the root path is falsy). *)
Definition getPathNodes (path : string) : list string :=
  filter nonEmpty (split path).

Fixpoint noSeparator (s : string) : bool :=
  match s with
  | EmptyString => true
  | String c rest => negb (Ascii.eqb c pathSeparatorChar) && noSeparator rest
  end.

(** A path segment: a non-empty name without separator. *)
Definition isSegment (s : string) : bool := nonEmpty s && noSeparator s.

(** [pathArr.pop()]: the array without its last element, and that element. *)
Fixpoint pop (pathArr : list string) : option (list string * string) :=
  match pathArr with
  | [] => None
  | [x] => Some ([], x)
  | x :: rest =>
      match pop rest with
      | Some (init, l) => Some (x :: init, l)
      | None => None
      end
  end.

(** ** Nodes (api.ts) *)

(** Modelled from the spec: the classes [File] and [Directory] of api.ts,
    which are not among the sources.  A file has a name, a full path and an
    optional text content ([new File(name, fullPath)] leaves it undefined); a
    directory has a name, a full path and an ordered list of children. *)
Record File : Type := mkFile {
  fileName : string;
  fileFullPath : string;
  content : option string
}.

(** Modelled from the spec: the constructor of [File] in api.ts.  The
    content is kept only when it is given and not empty: a file created with
    the empty text has no content ("empty string if a file was created with
    no content"). *)
Definition newFile (name fullPath newContent : string) : File :=
  mkFile name fullPath
    (if nonEmpty newContent then Some newContent else None).

Inductive Node : Type :=
| FileNode (f : File)
| DirNode (d : Directory)
with Directory : Type :=
| mkDirectory (name_ : string) (fullPath_ : string) (children_ : list Node).

Definition name (d : Directory) : string :=
  match d with mkDirectory n _ _ => n end.
Definition fullPath (d : Directory) : string :=
  match d with mkDirectory _ p _ => p end.
Definition children (d : Directory) : list Node :=
  match d with mkDirectory _ _ cs => cs end.

(** [d.children = cs], every other field kept. *)
Definition setChildren (d : Directory) (cs : list Node) : Directory :=
  mkDirectory (name d) (fullPath d) cs.

Definition nodeName (n : Node) : string :=
  match n with FileNode f => fileName f | DirNode d => name d end.
Definition nodeFullPath (n : Node) : string :=
  match n with FileNode f => fileFullPath f | DirNode d => fullPath d end.

(** Modelled from the spec: [isDir] and [isFile] of api.ts (the type tag
    "file-vs-directory"); both are false on [undefined] and [null]. *)
Definition isDir (n : option Node) : bool :=
  match n with Some (DirNode _) => true | _ => false end.
Definition isFile (n : option Node) : bool :=
  match n with Some (FileNode _) => true | _ => false end.

(** Modelled from the spec: [ShallowDirectory] of api.ts, a directory record
    without materialized children. *)
Record ShallowDirectory : Type := mkShallowDirectory {
  shallowName : string;
  shallowFullPath : string
}.

Inductive ShallowNode : Type :=
| ShallowFile (f : File)
| ShallowDir (d : ShallowDirectory).

(** lodash [find(children, {name})]: the first child with that name. *)
Definition find (cs : list Node) (nm : string) : option Node :=
  List.find (fun c => String.eqb (nodeName c) nm) cs.

(** The child object that [find] returned is mutated in place: in the
    array, the first child named [nm] becomes [n]. *)
Fixpoint replaceFirst (nm : string) (n : Node) (cs : list Node) : list Node :=
  match cs with
  | [] => []
  | c :: rest =>
      if String.eqb (nodeName c) nm then n :: rest
      else c :: replaceFirst nm n rest
  end.

(** [children.filter(({name}) => name !== nm)]. *)
Definition removeNamed (nm : string) (cs : list Node) : list Node :=
  filter (fun c => negb (String.eqb (nodeName c) nm)) cs.

(** ** Events and errors *)

Inductive Event : Type :=
| fileCreated (fullPath newContent : string)
| fileChanged (fullPath newContent : string)
| fileDeleted (fullPath : string)
| directoryCreated (fullPath : string)
| directoryDeleted (fullPath : string).

(** One constructor for each [throw new Error(...)] of memory-fs.ts, with the
    path its message quotes. *)
Inductive Error : Type :=
| UnableToSaveIgnoredPath (fullPath : string)
| RootIsNotALegalFileName
| UnexpectedNotALegalFileName (fullPath : string)
| FileSaveError (fullPath : string)
| DirectoryIsNotAFile (fullPath : string)
| CantDeleteRootDirectory
| FileIsNotADirectory (fullPath : string)
| DirectoryIsNotEmpty (fullPath : string)
| UnableToReadAndWriteIgnoredPath (fullPath : string)
| SegmentIsAFile (nextFullPath : string)
| UnableToReadIgnoredPath (fullPath : string)
| FileIsADirectory (fullPath : string)
| CannotFindFile (fullPath : string)
| UnableToReadFolderInPath (fullPath : string).

Definition quoted (s : string) : string := "'" ++ s ++ "'".

Definition message (e : Error) : string :=
  match e with
  | UnableToSaveIgnoredPath p => "Unable to save ignored path: " ++ quoted p
  | RootIsNotALegalFileName => "root is not a legal file name"
  | UnexpectedNotALegalFileName p =>
      "unexpected error: not a legal file name? " ++ quoted p
  | FileSaveError p => "file save error for path " ++ quoted p
  | DirectoryIsNotAFile p => "Directory is not a file " ++ quoted p
  | CantDeleteRootDirectory => "Can't delete root directory"
  | FileIsNotADirectory p => "File is not a directory " ++ quoted p
  | DirectoryIsNotEmpty p => "Directory is not empty " ++ quoted p
  | UnableToReadAndWriteIgnoredPath p =>
      "Unable to read and write ignored path: " ++ quoted p
  | SegmentIsAFile p => "File is not a directory " ++ p
  | UnableToReadIgnoredPath p => "Unable to read ignored path: " ++ quoted p
  | FileIsADirectory p => "File is a directory " ++ p
  | CannotFindFile p => "Cannot find file " ++ p
  | UnableToReadFolderInPath p =>
      "Unable to read folder in path: " ++ quoted p
  end.

Inductive ErrorKind : Type :=
| IllegalPath
| NotFound
| TypeMismatch
| NotEmpty.

(** Modelled from the spec: the error taxonomy.  The store throws plain
    [Error] objects; the kind of each is the one the spec gives to the
    situation of its throw site (root or ignored path, missing node, file
    where a directory is expected or the converse, directory with
    children). *)
Definition kind (e : Error) : ErrorKind :=
  match e with
  | UnableToSaveIgnoredPath _ => IllegalPath
  | RootIsNotALegalFileName => IllegalPath
  | UnexpectedNotALegalFileName _ => IllegalPath
  | FileSaveError _ => TypeMismatch
  | DirectoryIsNotAFile _ => TypeMismatch
  | CantDeleteRootDirectory => IllegalPath
  | FileIsNotADirectory _ => TypeMismatch
  | DirectoryIsNotEmpty _ => NotEmpty
  | UnableToReadAndWriteIgnoredPath _ => IllegalPath
  | SegmentIsAFile _ => TypeMismatch
  | UnableToReadIgnoredPath _ => IllegalPath
  | FileIsADirectory _ => TypeMismatch
  | CannotFindFile _ => NotFound
  | UnableToReadFolderInPath _ => NotFound
  end.

(** How a call ends: it returns a value or throws. *)
Inductive Completion (A : Type) : Type :=
| Return (a : A)
| Throw (e : Error).
Arguments Return {A} a.
Arguments Throw {A} e.

(** What a call leaves behind: its completion, the tree after it and the
    events it emitted, oldest first. *)
Record Outcome (A : Type) : Type := mkOutcome {
  completion : Completion A;
  rootAfter : Directory;
  emitted : list Event
}.
Arguments mkOutcome {A} _ _ _.
Arguments completion {A} _.
Arguments rootAfter {A} _.
Arguments emitted {A} _.

(** ** The store *)

(** [new Directory('', '')]. *)
Definition emptyRoot : Directory := mkDirectory EmptyString EmptyString [].

(** [getPathTarget], started at [current]: follows the names through
    directories; null as soon as a name is empty, missing or a file.  The
    loop consumes [pathArr] with [shift()]; no caller reads that array after
    the call. *)
Fixpoint getPathTargetFrom (current : Directory) (pathArr : list string)
  : option Directory :=
  match pathArr with
  | [] => Some current
  | nm :: rest =>
      if nonEmpty nm then
        match find (children current) nm with
        | Some (DirNode node) => getPathTargetFrom node rest
        | _ => None
        end
      else None
  end.

(** In-place mutation of the directory [getPathTarget] returned: [f] is
    applied to that directory, inside the tree. *)
Fixpoint updateTarget (current : Directory) (pathArr : list string)
    (f : Directory -> Directory) : Directory :=
  match pathArr with
  | [] => f current
  | nm :: rest =>
      if nonEmpty nm then
        match find (children current) nm with
        | Some (DirNode node) =>
            setChildren current
              (replaceFirst nm (DirNode (updateTarget node rest f))
                 (children current))
        | _ => current
        end
      else current
  end.

(** The full path of a directory created under [current]:
    [current.fullPath ? [current.fullPath, name].join(pathSeparator) : name]. *)
Definition newFullPath (currentFullPath nm : string) : string :=
  if nonEmpty currentFullPath then join [currentFullPath; nm] else nm.
Arguments newFullPath : simpl never.

(** The [reduce] of [ensureDirectorySync], from [current] over the names
    still to walk: the error thrown if any, [current] after the walk, and the
    events emitted. *)
Fixpoint ensureFrom (current : Directory) (names : list string)
  : option Error * Directory * list Event :=
  match names with
  | [] => (None, current, [])
  | nm :: rest =>
      match find (children current) nm with
      | Some (DirNode next) =>
          let '(err, next', evs) := ensureFrom next rest in
          (err,
           setChildren current
             (replaceFirst nm (DirNode next') (children current)),
           evs)
      | Some (FileNode next) =>
          (Some (SegmentIsAFile (fileFullPath next)), current, [])
      | None =>
          let newDir :=
            mkDirectory nm (newFullPath (fullPath current) nm) [] in
          let '(err, newDir', evs) := ensureFrom newDir rest in
          (err,
           setChildren current (children current ++ [DirNode newDir']),
           directoryCreated (fullPath newDir) :: evs)
      end
  end.

(** [parseTree]: the copy handed to the caller; files are copied without
    their content. *)
Fixpoint parseTree (node : Directory) : Directory :=
  match node with
  | mkDirectory nm fp cs =>
      mkDirectory nm fp
        (map (fun child =>
                match child with
                | DirNode d => DirNode (parseTree d)
                | FileNode f =>
                    FileNode (mkFile (fileName f) (fileFullPath f) None)
                end) cs)
  end.

(** [recursiveEmitDeletion]: the events, in emission order. *)
Fixpoint recursiveEmitDeletion (node : Directory) : list Event :=
  match node with
  | mkDirectory _ fp cs =>
      directoryDeleted fp ::
      flat_map (fun child =>
                  match child with
                  | DirNode d =>
                      recursiveEmitDeletion d ++ [fileDeleted (fullPath d)]
                  | FileNode f => [fileDeleted (fileFullPath f)]
                  end) cs
  end.

(** [last(pathArr)] of a non-empty array. *)
Definition lastName (pathArr : list string) : string :=
  List.last pathArr EmptyString.

(** [pathArr.slice(0, pathArr.length - 1)]. *)
Definition parentPath (pathArr : list string) : list string :=
  List.removelast pathArr.

Section MemoryFileSystem.

(** The ignore predicate, fixed by the constructor. *)
Variable isIgnored : string -> bool.

Definition getPathTarget (root : Directory) (pathArr : list string)
  : option Directory :=
  getPathTargetFrom root pathArr.

Definition ensureDirectorySync (root : Directory) (fullPath : string)
  : Outcome unit :=
  if isIgnored fullPath then
    mkOutcome (Throw (UnableToReadAndWriteIgnoredPath fullPath)) root []
  else
    let '(err, root', evs) := ensureFrom root (getPathNodes fullPath) in
    match err with
    | Some e => mkOutcome (Throw e) root' evs
    | None => mkOutcome (Return tt) root' evs
    end.

(** The part of [saveFileSync] after [ensureDirectorySync] returned. *)
Definition saveInto (root : Directory) (pathArr : list string)
    (nm fullPath newContent : string) (evs : list Event) : Outcome unit :=
  match getPathTarget root pathArr with
  | None => mkOutcome (Throw (UnexpectedNotALegalFileName fullPath)) root evs
  | Some parent =>
      match find (children parent) nm with
      | Some (DirNode _) =>
          mkOutcome (Throw (FileSaveError fullPath)) root evs
      | Some (FileNode existingChild) =>
          if match content existingChild with
             | Some c => String.eqb c newContent
             | None => false
             end
          then mkOutcome (Return tt) root evs
          else
            mkOutcome (Return tt)
              (updateTarget root pathArr (fun p =>
                 setChildren p
                   (replaceFirst nm
                      (FileNode (mkFile (fileName existingChild)
                                   (fileFullPath existingChild)
                                   (Some newContent)))
                      (children p))))
              (evs ++ [fileChanged fullPath newContent])
      | None =>
          mkOutcome (Return tt)
            (updateTarget root pathArr (fun p =>
               setChildren p
                 (children p ++ [FileNode (newFile nm fullPath newContent)])))
            (evs ++ [fileCreated fullPath newContent])
      end
  end.

Definition saveFileSync (root : Directory) (fullPath newContent : string)
  : Outcome unit :=
  if isIgnored fullPath then
    mkOutcome (Throw (UnableToSaveIgnoredPath fullPath)) root []
  else
    match pop (getPathNodes fullPath) with
    | None => mkOutcome (Throw RootIsNotALegalFileName) root []
    | Some (pathArr, nm) =>
        if nonEmpty nm then
          let r := ensureDirectorySync root (join pathArr) in
          match completion r with
          | Throw e => mkOutcome (Throw e) (rootAfter r) (emitted r)
          | Return _ =>
              saveInto (rootAfter r) pathArr nm fullPath newContent (emitted r)
          end
        else mkOutcome (Throw RootIsNotALegalFileName) root []
    end.

Definition deleteFileSync (root : Directory) (fullPath : string)
  : Outcome unit :=
  let pathArr := getPathNodes fullPath in
  let parent :=
    match pathArr with
    | [] => None
    | _ => getPathTarget root (parentPath pathArr)
    end in
  match parent with
  | Some p =>
      if negb (isIgnored fullPath) then
        match find (children p) (lastName pathArr) with
        | Some (FileNode node) =>
            mkOutcome (Return tt)
              (updateTarget root (parentPath pathArr) (fun p =>
                 setChildren p (removeNamed (fileName node) (children p))))
              [fileDeleted fullPath]
        | Some (DirNode _) =>
            mkOutcome (Throw (DirectoryIsNotAFile fullPath)) root []
        | None => mkOutcome (Return tt) root []
        end
      else mkOutcome (Return tt) root []
  | None => mkOutcome (Return tt) root []
  end.

(** [recursive] is optional: [None] is the omitted (falsy) argument. *)
Definition deleteDirectorySync (root : Directory) (fullPath : string)
    (recursive : option bool) : Outcome unit :=
  let pathArr := getPathNodes fullPath in
  match pathArr with
  | [] => mkOutcome (Throw CantDeleteRootDirectory) root []
  | _ =>
      match getPathTarget root (parentPath pathArr) with
      | Some p =>
          if negb (isIgnored fullPath) then
            match find (children p) (lastName pathArr) with
            | Some (FileNode _) =>
                mkOutcome (Throw (FileIsNotADirectory fullPath)) root []
            | Some (DirNode node) =>
                if negb (match recursive with Some b => b | None => false end)
                   && negb (Nat.eqb (length (children node)) 0)
                then mkOutcome (Throw (DirectoryIsNotEmpty fullPath)) root []
                else
                  mkOutcome (Return tt)
                    (updateTarget root (parentPath pathArr) (fun p =>
                       setChildren p (removeNamed (name node) (children p))))
                    (recursiveEmitDeletion node)
            | None => mkOutcome (Return tt) root []
            end
          else mkOutcome (Return tt) root []
      | None => mkOutcome (Return tt) root []
      end
  end.

Definition loadTextFileSync (root : Directory) (fullPath : string)
  : Outcome string :=
  if isIgnored fullPath then
    mkOutcome (Throw (UnableToReadIgnoredPath fullPath)) root []
  else
    let pathArr := getPathNodes fullPath in
    let parent :=
      match pathArr with
      | [] => None
      | _ => getPathTarget root (parentPath pathArr)
      end in
    match parent with
    | Some p =>
        match find (children p) (lastName pathArr) with
        | Some (FileNode node) =>
            mkOutcome
              (Return (match content node with
                       | Some c => c
                       | None => EmptyString
                       end)) root []
        | Some (DirNode _) =>
            mkOutcome (Throw (FileIsADirectory fullPath)) root []
        | None => mkOutcome (Throw (CannotFindFile fullPath)) root []
        end
    | None => mkOutcome (Throw (CannotFindFile fullPath)) root []
    end.

(** The directory both listings start from. *)
Definition listedDirectory (root : Directory) (fullPath : string)
  : option Directory :=
  match getPathNodes fullPath with
  | [] => Some root
  | pathArr => getPathTarget root pathArr
  end.

(** [fullPath] is optional and defaults to the empty path. *)
Definition loadDirectoryTreeSync (root : Directory) (fullPath : option string)
  : Outcome Directory :=
  let fullPath := match fullPath with Some p => p | None => EmptyString end in
  if isIgnored fullPath then
    mkOutcome (Throw (UnableToReadIgnoredPath fullPath)) root []
  else
    match listedDirectory root fullPath with
    | None => mkOutcome (Throw (UnableToReadFolderInPath fullPath)) root []
    | Some dir => mkOutcome (Return (parseTree dir)) root []
    end.

Definition loadDirectoryChildrenSync (root : Directory) (fullPath : string)
  : Outcome (list ShallowNode) :=
  if isIgnored fullPath then
    mkOutcome (Throw (UnableToReadIgnoredPath fullPath)) root []
  else
    match listedDirectory root fullPath with
    | None => mkOutcome (Throw (UnableToReadFolderInPath fullPath)) root []
    | Some dir =>
        mkOutcome
          (Return
             (map (fun child =>
                     match child with
                     | DirNode d =>
                         ShallowDir
                           (mkShallowDirectory (nodeName child)
                              (nodeFullPath child))
                     | FileNode f =>
                         ShallowFile
                           (mkFile (fileName f) (fileFullPath f) None)
                     end) (children dir)))
          root []
    end.

End MemoryFileSystem.

(** The default predicate of the class: [() => false]. *)
Definition nothingIgnored (path : string) : bool := false.

(** ** Vocabulary of the properties *)

(** The node the store finds for the segments of a path: the child that the
    last segment names in the directory the segments before it lead to (the
    lookup of [deleteFileSync], [deleteDirectorySync], [loadTextFileSync]). *)
Definition nodeAt (root : Directory) (pathArr : list string) : option Node :=
  match pathArr with
  | [] => None
  | _ =>
      match getPathTargetFrom root (parentPath pathArr) with
      | Some parent => find (children parent) (lastName pathArr)
      | None => None
      end
  end.

(** A file occupies one of the names on the walk from [current]. *)
Fixpoint blockedByFile (current : Directory) (names : list string) : bool :=
  match names with
  | [] => false
  | nm :: rest =>
      match find (children current) nm with
      | Some (FileNode _) => true
      | Some (DirNode next) => blockedByFile next rest
      | None => false
      end
  end.

(** Every node below a directory, parents before their children. *)
Fixpoint descendants (d : Directory) : list Node :=
  match d with
  | mkDirectory _ _ cs =>
      flat_map (fun c =>
                  c :: match c with
                       | DirNode d' => descendants d'
                       | FileNode _ => []
                       end) cs
  end.

(** Every node below [d], which sits at the names [position], has for full
    path the join of the names that lead to it. *)
Fixpoint fullPathsJoined (position : list string) (d : Directory) : bool :=
  match d with
  | mkDirectory _ _ cs =>
      forallb (fun c =>
                 String.eqb (nodeFullPath c) (join (position ++ [nodeName c]))
                 && match c with
                    | DirNode d' =>
                        fullPathsJoined (position ++ [nodeName c]) d'
                    | FileNode _ => true
                    end) cs
  end.

(** The segments of [q] extend those of [p]: [q] is [p] or lies below it. *)
Definition extends (p q : list string) : Prop := exists rest, q = p ++ rest.

Section Reachability.

Variable isIgnored : string -> bool.

(** The calls of the contract. *)
Inductive Operation : Type :=
| saveFile (fullPath newContent : string)
| deleteFile (fullPath : string)
| deleteDirectory (fullPath : string) (recursive : option bool)
| ensureDirectory (fullPath : string)
| loadTextFile (fullPath : string)
| loadDirectoryTree (fullPath : option string)
| loadDirectoryChildren (fullPath : string).

(** The tree a call leaves, whether it returns or throws. *)
Definition perform (root : Directory) (op : Operation) : Directory :=
  match op with
  | saveFile p c => rootAfter (saveFileSync isIgnored root p c)
  | deleteFile p => rootAfter (deleteFileSync isIgnored root p)
  | deleteDirectory p r => rootAfter (deleteDirectorySync isIgnored root p r)
  | ensureDirectory p => rootAfter (ensureDirectorySync isIgnored root p)
  | loadTextFile p => rootAfter (loadTextFileSync isIgnored root p)
  | loadDirectoryTree p => rootAfter (loadDirectoryTreeSync isIgnored root p)
  | loadDirectoryChildren p =>
      rootAfter (loadDirectoryChildrenSync isIgnored root p)
  end.

(** The trees a store can hold: the empty root of the constructor, and
    what any call makes of such a tree. *)
Inductive reachable : Directory -> Prop :=
| reachable_fresh : reachable emptyRoot
| reachable_perform (root : Directory) (op : Operation) :
    reachable root -> reachable (perform root op).

End Reachability.

Definition isFileCreated (e : Event) : bool :=
  match e with fileCreated _ _ => true | _ => false end.

Definition isDirectoryCreated (e : Event) : bool :=
  match e with directoryCreated _ => true | _ => false end.

(** ** Well-formed trees *)

Section WellFormed.

(** What every full path stored in the tree satisfies, and what every file
    satisfies in the directory that sits at given names. *)
Variable P : string -> Prop.
Variable Q : list string -> File -> Prop.

(** Below the directory [d] that sits at the names [position]: every
    child has a non-empty name and a full path in [P], every file is in [Q]
    at the names of its directory, and every directory has for full path
    the join of the names that lead to it. *)
Inductive wellFormed : list string -> Directory -> Prop :=
| wellFormed_intro (position : list string) (d : Directory) :
    (forall c, In c (children d) ->
               nonEmpty (nodeName c) = true /\ P (nodeFullPath c)) ->
    (forall f, In (FileNode f) (children d) -> Q position f) ->
    (forall d', In (DirNode d') (children d) ->
                fullPath d' = join (position ++ [name d'])) ->
    (forall d', In (DirNode d') (children d) ->
                wellFormed (position ++ [name d']) d') ->
    wellFormed position d.

(** The root of a store: the empty full path above a well-formed tree. *)
Definition rootWellFormed (root : Directory) : Prop :=
  fullPath root = EmptyString /\ wellFormed [] root.

End WellFormed.


(** The [n]-th repetition of [ensureDirectorySync] on the same path, each on
    the tree the one before left. *)
Fixpoint ensureAgain (isIgnored : string -> bool) (root : Directory)
    (p : string) (n : nat) : Outcome unit :=
  match n with
  | O => ensureDirectorySync isIgnored root p
  | S n' =>
      ensureDirectorySync isIgnored
        (rootAfter (ensureAgain isIgnored root p n')) p
  end.

(** An ignore predicate that matches a path matches every path below it. *)
Definition closedDownwards (isIgnored : string -> bool) : Prop :=
  forall a b,
    isIgnored a = true -> extends (getPathNodes a) (getPathNodes b) ->
    isIgnored b = true.

(** The predicate that ignores the directory [a] and all below it. *)
Definition ignoresA (path : string) : bool :=
  match getPathNodes path with
  | first :: _ => String.eqb first "a"
  | [] => false
  end.

(** The text [loadTextFileSync] reads from a file: [node.content || '']. *)
Definition textOf (f : File) : string :=
  match content f with Some c => c | None => EmptyString end.

(** ** The statements under scrutiny, as the specification words them *)

Section Statements.

Variable isIgnored : string -> bool.

(** Round trip, as stated: on every legal path the save returns and the
    text then loaded is the text saved. *)
Definition roundTripStated (root : Directory) (p c : string) : Prop :=
  isIgnored p = false -> getPathNodes p <> [] ->
  completion (saveFileSync isIgnored root p c) = Return tt
  /\ completion
       (loadTextFileSync isIgnored
          (rootAfter (saveFileSync isIgnored root p c)) p) = Return c.


(** Ignore invisibility, as stated: saving an ignored path is an illegal
    path error, and no tree a store can hold lists a node at that path or
    below it. *)
Definition ignoredInvisibleStated (p : string) : Prop :=
  isIgnored p = true ->
  (forall root c,
      exists e, completion (saveFileSync isIgnored root p c) = Throw e
                /\ kind e = IllegalPath)
  /\ (forall root tree,
         reachable isIgnored root ->
         completion (loadDirectoryTreeSync isIgnored root None) = Return tree ->
         forall n, In n (descendants tree) ->
                   ~ extends (getPathNodes p) (getPathNodes (nodeFullPath n))).

End Statements.

(** The scenario of the specification, as stated: after
    [saveFile('a/b.txt', 'hi')] on a fresh store the listed tree holds a
    directory [a] holding a file [b.txt] whose content is [hi]. *)
Definition scenarioTreeStated : Prop :=
  exists tree a b,
    completion
      (loadDirectoryTreeSync nothingIgnored
         (rootAfter (saveFileSync nothingIgnored emptyRoot "a/b.txt" "hi"))
         None) = Return tree
    /\ In (DirNode a) (children tree) /\ name a = "a"
    /\ In (FileNode b) (children a) /\ fileName b = "b.txt"
    /\ content b = Some "hi".

(** ** Vocabulary of the further properties *)

(** Two lookups answer alike: the same file, or directories of the same
    name and full path, or nothing. *)
Definition sameEntry (a b : option Node) : Prop :=
  match a, b with
  | Some (FileNode f), Some (FileNode g) => f = g
  | Some (DirNode d), Some (DirNode e) =>
      name d = name e /\ fullPath d = fullPath e
  | None, None => True
  | _, _ => False
  end.

(** What [parseTree] makes of a child. *)
Definition listedNode (child : Node) : Node :=
  match child with
  | DirNode d => DirNode (parseTree d)
  | FileNode f => FileNode (mkFile (fileName f) (fileFullPath f) None)
  end.

(** What [loadDirectoryChildrenSync] makes of a child. *)
Definition shallowNode (child : Node) : ShallowNode :=
  match child with
  | DirNode d => ShallowDir (mkShallowDirectory (name d) (fullPath d))
  | FileNode f => ShallowFile (mkFile (fileName f) (fileFullPath f) None)
  end.

(** The paths of the [directoryDeleted] events of a list, in order, and
    those of its [fileDeleted] events. *)
Definition deletedDirectories (evs : list Event) : list string :=
  flat_map (fun e => match e with directoryDeleted p => [p] | _ => [] end) evs.
Definition deletedFiles (evs : list Event) : list string :=
  flat_map (fun e => match e with fileDeleted p => [p] | _ => [] end) evs.

Definition isDeletion (e : Event) : bool :=
  match e with
  | directoryDeleted _ | fileDeleted _ => true
  | _ => false
  end.

(** The full paths of the directories below [d], parents before their
    children. *)
Definition directoriesBelow (d : Directory) : list string :=
  flat_map (fun n => match n with DirNode d' => [fullPath d'] | _ => [] end)
    (descendants d).

(** In [d] and in every directory below it, no two children share a name. *)
Inductive uniqueNames : Directory -> Prop :=
| uniqueNames_intro (d : Directory) :
    NoDup (map nodeName (children d)) ->
    (forall d', In (DirNode d') (children d) -> uniqueNames d') ->
    uniqueNames d.

(** The events a call emits. *)
Definition emits (isIgnored : string -> bool) (root : Directory)
    (op : Operation) : list Event :=
  match op with
  | saveFile p c => emitted (saveFileSync isIgnored root p c)
  | deleteFile p => emitted (deleteFileSync isIgnored root p)
  | deleteDirectory p r => emitted (deleteDirectorySync isIgnored root p r)
  | ensureDirectory p => emitted (ensureDirectorySync isIgnored root p)
  | loadTextFile p => emitted (loadTextFileSync isIgnored root p)
  | loadDirectoryTree p => emitted (loadDirectoryTreeSync isIgnored root p)
  | loadDirectoryChildren p =>
      emitted (loadDirectoryChildrenSync isIgnored root p)
  end.

(** What a lookup answered before a call, and after it: an entry that was
    there is still there and alike, and no file has appeared. *)
Definition entryKept (before after : option Node) : Prop :=
  match before with
  | Some n => sameEntry after (Some n)
  | None => isFile after = false
  end.

(** What a listing shows of a node: its kind, its name and its full path. *)
Definition entryOf (n : Node) : bool * string * string :=
  (isDir (Some n), nodeName n, nodeFullPath n).

(** A file as the store keeps it in the directory at the names
    [position]: its own full path is not ignored, nor is the path of that
    directory, and the segments of its full path are the names that lead to
    it. *)
Definition storedFile (isIgnored : string -> bool) (position : list string)
    (f : File) : Prop :=
  isIgnored (fileFullPath f) = false
  /\ isIgnored (join position) = false
  /\ getPathNodes (fileFullPath f) = position ++ [fileName f].

(** * Properties *)

(** ** Segments: splitting and joining paths *)

Lemma split_not_nil (p : string) : split p <> [].
Proof.
  destruct p as [|c p]; simpl; [discriminate|].
  destruct (Ascii.eqb c pathSeparatorChar); [discriminate|].
  destruct (split p); discriminate.
Qed.

Lemma split_noSeparator (p : string) :
  Forall (fun s => noSeparator s = true) (split p).
Proof.
  induction p as [|c p IH]; simpl.
  - repeat constructor.
  - destruct (Ascii.eqb c pathSeparatorChar) eqn:E.
    + constructor; [reflexivity|exact IH].
    + destruct (split p) as [|h t].
      * repeat constructor. simpl. now rewrite E.
      * inversion IH; subst. constructor; [|assumption].
        simpl. rewrite E. simpl. assumption.
Qed.

Lemma split_segment (a : string) : noSeparator a = true -> split a = [a].
Proof.
  induction a as [|c a IH]; simpl; intros H; [reflexivity|].
  apply andb_true_iff in H as [Hc Ha].
  apply negb_true_iff in Hc. rewrite Hc, (IH Ha). reflexivity.
Qed.

Lemma split_app_separator (a b : string) :
  noSeparator a = true ->
  split (a ++ pathSeparator ++ b) = a :: split b.
Proof.
  change (pathSeparator ++ b)%string with (String pathSeparatorChar b).
  induction a as [|c a IH]; intros H.
  - reflexivity.
  - simpl in H. apply andb_true_iff in H as [Hc Ha].
    apply negb_true_iff in Hc.
    change (split (String c (a ++ String pathSeparatorChar b)%string)
            = String c a :: split b).
    cbn [split]. rewrite Hc, (IH Ha). reflexivity.
Qed.

Lemma getPathNodes_segments (p : string) :
  Forall (fun s => isSegment s = true) (getPathNodes p).
Proof.
  unfold getPathNodes.
  pose proof (split_noSeparator p) as H.
  induction H as [|s l Hs Hl IH]; simpl; [constructor|].
  destruct (nonEmpty s) eqn:E; [|exact IH].
  constructor; [|exact IH]. unfold isSegment. now rewrite E, Hs.
Qed.

Lemma getPathNodes_join (segs : list string) :
  Forall (fun s => isSegment s = true) segs ->
  getPathNodes (join segs) = segs.
Proof.
  induction 1 as [|s l Hs Hl IH]; [reflexivity|].
  apply andb_true_iff in Hs as [Hne Hns].
  destruct l as [|s' l'].
  - simpl. unfold getPathNodes. rewrite (split_segment _ Hns). simpl.
    now rewrite Hne.
  - change (join (s :: s' :: l'))
      with (s ++ pathSeparator ++ join (s' :: l'))%string.
    unfold getPathNodes. rewrite (split_app_separator _ _ Hns). simpl.
    rewrite Hne. f_equal. exact IH.
Qed.

Lemma getPathNodes_empty : getPathNodes EmptyString = [].
Proof. reflexivity. Qed.

Lemma pop_spec (l init : list string) (x : string) :
  pop l = Some (init, x) <-> l = init ++ [x].
Proof.
  revert init. induction l as [|a l IH]; intros init; simpl.
  - split; [discriminate|]. destruct init; discriminate.
  - destruct l as [|b l'].
    + split.
      * intros H. inversion H. reflexivity.
      * destruct init as [|i init]; simpl; intros H.
        -- inversion H. reflexivity.
        -- inversion H. destruct init; discriminate.
    + destruct (pop (b :: l')) as [[init' y]|] eqn:E.
      * split.
        -- intros H. inversion H; subst. simpl. f_equal. now apply IH.
        -- destruct init as [|i init]; simpl; intros H; [discriminate|].
           inversion H; subst. 
           assert (Some (init', y) = Some (init, x)) as Heq by now apply IH.
           inversion Heq. reflexivity.
      * split; [discriminate|].
        destruct init as [|i init]; simpl; intros H; [discriminate|].
        inversion H; subst.
        assert (None = Some (init, x)) as Heq by now apply IH.
        discriminate.
Qed.

Lemma pop_none (l : list string) : pop l = None <-> l = [].
Proof.
  split; [|intros ->; reflexivity].
  induction l as [|a l IH]; [reflexivity|]. simpl.
  destruct l as [|b l']; [discriminate|].
  destruct (pop (b :: l')) as [[i y]|]; [discriminate|].
  intros _. specialize (IH eq_refl). discriminate.
Qed.

Lemma parentPath_app (init : list string) (x : string) :
  parentPath (init ++ [x]) = init.
Proof. apply removelast_last. Qed.

Lemma lastName_app (init : list string) (x : string) :
  lastName (init ++ [x]) = x.
Proof. apply last_last. Qed.

Lemma append_assoc (a b c : string) :
  ((a ++ b) ++ c = a ++ (b ++ c))%string.
Proof. induction a as [|ch a IH]; simpl; [reflexivity|now rewrite IH]. Qed.

Lemma join_snoc (init : list string) (x : string) :
  init <> [] -> join (init ++ [x]) = (join init ++ pathSeparator ++ x)%string.
Proof.
  induction init as [|a init IH]; [congruence|]. intros _.
  destruct init as [|b init].
  - reflexivity.
  - change (join ((a :: b :: init) ++ [x]))
      with (a ++ pathSeparator ++ join ((b :: init) ++ [x]))%string.
    rewrite IH by discriminate.
    change (join (a :: b :: init))
      with (a ++ pathSeparator ++ join (b :: init))%string.
    rewrite !append_assoc. reflexivity.
Qed.

Lemma nonEmpty_append (a b : string) :
  nonEmpty a = true -> nonEmpty (a ++ b)%string = true.
Proof. destruct a; [discriminate|reflexivity]. Qed.

Lemma join_nonEmpty (segs : list string) :
  segs <> [] -> Forall (fun s => nonEmpty s = true) segs ->
  nonEmpty (join segs) = true.
Proof.
  destruct segs as [|a segs]; [congruence|]. intros _ H.
  inversion H; subst. destruct segs.
  - assumption.
  - change (join (a :: s :: segs))
      with (a ++ pathSeparator ++ join (s :: segs))%string.
    now apply nonEmpty_append.
Qed.

(** ** Read operations *)

(** The read operations hand the tree back as it was, with no event. *)
Lemma loadTextFileSync_pure
    (isIgnored : string -> bool) (root : Directory) (p : string) :
  rootAfter (loadTextFileSync isIgnored root p) = root
  /\ emitted (loadTextFileSync isIgnored root p) = [].
Proof.
  unfold loadTextFileSync. destruct (isIgnored p); [split; reflexivity|].
  destruct (getPathNodes p); [split; reflexivity|].
  destruct (getPathTarget _ _); [|split; reflexivity].
  destruct (find _ _) as [[f0|d0]|]; split; reflexivity.
Qed.

Lemma loadDirectoryTreeSync_pure
    (isIgnored : string -> bool) (root : Directory) (q : option string) :
  rootAfter (loadDirectoryTreeSync isIgnored root q) = root
  /\ emitted (loadDirectoryTreeSync isIgnored root q) = [].
Proof.
  unfold loadDirectoryTreeSync. destruct (isIgnored _); [split; reflexivity|].
  destruct (listedDirectory _ _); split; reflexivity.
Qed.

Lemma loadDirectoryChildrenSync_pure
    (isIgnored : string -> bool) (root : Directory) (p : string) :
  rootAfter (loadDirectoryChildrenSync isIgnored root p) = root
  /\ emitted (loadDirectoryChildrenSync isIgnored root p) = [].
Proof.
  unfold loadDirectoryChildrenSync.
  destruct (isIgnored _); [split; reflexivity|].
  destruct (listedDirectory _ _); split; reflexivity.
Qed.

(** C10: [loadTextFileSync], [loadDirectoryTreeSync] and
    [loadDirectoryChildrenSync] leave the tree as it was and emit no event,
    for every ignore predicate, tree and path, whether they return or
    throw. *)
Theorem reads_leave_store_untouched
    (isIgnored : string -> bool) (root : Directory)
    (p : string) (q : option string) :
  (rootAfter (loadTextFileSync isIgnored root p) = root
   /\ emitted (loadTextFileSync isIgnored root p) = [])
  /\ (rootAfter (loadDirectoryTreeSync isIgnored root q) = root
      /\ emitted (loadDirectoryTreeSync isIgnored root q) = [])
  /\ (rootAfter (loadDirectoryChildrenSync isIgnored root p) = root
      /\ emitted (loadDirectoryChildrenSync isIgnored root p) = []).
Proof.
  split; [|split].
  - apply loadTextFileSync_pure.
  - apply loadDirectoryTreeSync_pure.
  - apply loadDirectoryChildrenSync_pure.
Qed.

(** ** Children arrays *)

Lemma setChildren_children (d : Directory) : setChildren d (children d) = d.
Proof. destruct d; reflexivity. Qed.

Lemma children_setChildren (d : Directory) (cs : list Node) :
  children (setChildren d cs) = cs.
Proof. reflexivity. Qed.

Lemma find_Some (cs : list Node) (nm : string) (c : Node) :
  find cs nm = Some c -> In c cs /\ nodeName c = nm.
Proof.
  unfold find. intros H. apply find_some in H as [Hin Heq].
  split; [assumption|]. now apply String.eqb_eq.
Qed.

Lemma find_app_None (cs : list Node) (nm : string) (c : Node) :
  find cs nm = None -> nodeName c = nm -> find (cs ++ [c]) nm = Some c.
Proof.
  unfold find. induction cs as [|a cs IH]; simpl; intros H Hc.
  - subst. now rewrite String.eqb_refl.
  - destruct (String.eqb (nodeName a) nm); [discriminate|]. now apply IH.
Qed.

Lemma find_replaceFirst (cs : list Node) (nm : string) (c n : Node) :
  find cs nm = Some c -> nodeName n = nm ->
  find (replaceFirst nm n cs) nm = Some n.
Proof.
  unfold find. induction cs as [|a cs IH]; simpl; intros H Hn; [discriminate|].
  destruct (String.eqb (nodeName a) nm) eqn:E; simpl.
  - subst. now rewrite String.eqb_refl.
  - rewrite E. now apply IH.
Qed.

Lemma replaceFirst_found (cs : list Node) (nm : string) (c : Node) :
  find cs nm = Some c -> replaceFirst nm c cs = cs.
Proof.
  unfold find. induction cs as [|a cs IH]; simpl; intros H; [reflexivity|].
  destruct (String.eqb (nodeName a) nm).
  - now inversion H.
  - f_equal. now apply IH.
Qed.

Lemma replaceFirst_again (cs : list Node) (nm : string) (n n' : Node) :
  nodeName n = nm ->
  replaceFirst nm n' (replaceFirst nm n cs) = replaceFirst nm n' cs.
Proof.
  intros Hn. induction cs as [|a cs IH]; simpl; [reflexivity|].
  destruct (String.eqb (nodeName a) nm) eqn:E; simpl.
  - subst. now rewrite String.eqb_refl.
  - rewrite E. now f_equal.
Qed.

Lemma replaceFirst_pushed (cs : list Node) (nm : string) (n n' : Node) :
  find cs nm = None -> nodeName n = nm ->
  replaceFirst nm n' (cs ++ [n]) = cs ++ [n'].
Proof.
  unfold find. induction cs as [|a cs IH]; simpl; intros H Hn.
  - subst. now rewrite String.eqb_refl.
  - destruct (String.eqb (nodeName a) nm); [discriminate|].
    f_equal. now apply IH.
Qed.

(** ** The walk of ensureDirectorySync *)

Lemma ensureFrom_keeps_identity (names : list string) :
  forall current err d evs,
    ensureFrom current names = (err, d, evs) ->
    name d = name current /\ fullPath d = fullPath current.
Proof.
  destruct names as [|nm rest]; simpl; intros current err d evs H.
  - inversion H; subst. split; reflexivity.
  - destruct (find (children current) nm) as [[f|next]|].
    + inversion H; subst. split; reflexivity.
    + destruct (ensureFrom next rest) as [[err' next'] evs'].
      inversion H; subst. split; reflexivity.
    + destruct (ensureFrom _ rest) as [[err' next'] evs'].
      inversion H; subst. split; reflexivity.
Qed.

(** In a directory without children the walk creates every name. *)
Lemma ensureFrom_empty_succeeds (names : list string) :
  forall current,
    children current = [] -> fst (fst (ensureFrom current names)) = None.
Proof.
  induction names as [|nm rest IH]; simpl; intros current Hc; [reflexivity|].
  rewrite Hc. simpl.
  specialize (IH (mkDirectory nm (newFullPath (fullPath current) nm) [])
                eq_refl).
  destruct (ensureFrom _ rest) as [[err' next'] evs']. exact IH.
Qed.

(** A walk that throws has changed nothing and emitted nothing. *)
Lemma ensureFrom_throw_unchanged (names : list string) :
  forall current e d evs,
    ensureFrom current names = (Some e, d, evs) -> d = current /\ evs = [].
Proof.
  induction names as [|nm rest IH]; simpl; intros current e d evs H.
  - discriminate.
  - destruct (find (children current) nm) as [[f|next]|] eqn:F.
    + inversion H; subst. split; reflexivity.
    + destruct (ensureFrom next rest) as [[err' next'] evs'] eqn:E.
      inversion H; subst.
      destruct (IH _ _ _ _ E) as [-> ->].
      rewrite (replaceFirst_found _ _ _ F), setChildren_children.
      split; reflexivity.
    + pose proof (ensureFrom_empty_succeeds rest
                    (mkDirectory nm (newFullPath (fullPath current) nm) [])
                    eq_refl) as Hok.
      destruct (ensureFrom _ rest) as [[err' next'] evs'].
      simpl in Hok. subst err'. discriminate.
Qed.

(** The walk throws exactly when a file occupies one of the names. *)
Lemma ensureFrom_succeeds_iff (names : list string) :
  forall current,
    fst (fst (ensureFrom current names)) = None
    <-> blockedByFile current names = false.
Proof.
  induction names as [|nm rest IH]; simpl; intros current.
  - split; reflexivity.
  - destruct (find (children current) nm) as [[f|next]|] eqn:F.
    + simpl. split; discriminate.
    + specialize (IH next).
      destruct (ensureFrom next rest) as [[err' next'] evs']. exact IH.
    + pose proof (ensureFrom_empty_succeeds rest
                    (mkDirectory nm (newFullPath (fullPath current) nm) [])
                    eq_refl) as Hok.
      destruct (ensureFrom _ rest) as [[err' next'] evs'].
      simpl in *. split; [reflexivity|intros _; exact Hok].
Qed.

(** Walking again over the names of a walk that returned finds every
    directory, changes nothing and emits nothing. *)
Lemma ensureFrom_again (names : list string) :
  forall current d evs,
    ensureFrom current names = (None, d, evs) ->
    ensureFrom d names = (None, d, []).
Proof.
  induction names as [|nm rest IH]; simpl; intros current d evs H.
  - inversion H; subst. reflexivity.
  - destruct (find (children current) nm) as [[f|next]|] eqn:F.
    + discriminate.
    + destruct (ensureFrom next rest) as [[err' next'] evs'] eqn:E.
      inversion H; subst. clear H.
      destruct (ensureFrom_keeps_identity _ _ _ _ _ E) as [Hn _].
      apply find_Some in F as F'. destruct F' as [_ Hnm]. simpl in Hnm.
      rewrite children_setChildren.
      rewrite (find_replaceFirst _ _ _ (DirNode next') F)
        by (simpl; congruence).
      rewrite (IH _ _ _ E).
      rewrite replaceFirst_again by (simpl; congruence).
      reflexivity.
    + destruct (ensureFrom _ rest) as [[err' next'] evs'] eqn:E.
      inversion H; subst. clear H.
      destruct (ensureFrom_keeps_identity _ _ _ _ _ E) as [Hn _].
      simpl in Hn.
      rewrite children_setChildren.
      rewrite (find_app_None _ _ (DirNode next') F) by exact Hn.
      rewrite (IH _ _ _ E).
      rewrite (replaceFirst_pushed _ _ _ _ F) by exact Hn.
      reflexivity.
Qed.

Lemma getPathTargetFrom_children_nil (names : list string) (d t : Directory) :
  children d = [] -> getPathTargetFrom d names = Some t -> children t = [].
Proof.
  destruct names as [|nm rest]; simpl; intros Hd H.
  - inversion H; subst. exact Hd.
  - rewrite Hd in H. simpl in H. destruct (nonEmpty nm); discriminate.
Qed.

(** After a walk that returned, the names lead to a directory; and either
    the walk found every directory, changed nothing and emitted nothing, or
    the directory it ends in has just been created and is empty. *)
Lemma ensureFrom_target (names : list string) :
  Forall (fun s => nonEmpty s = true) names ->
  forall current d evs,
    ensureFrom current names = (None, d, evs) ->
    exists t,
      getPathTargetFrom d names = Some t
      /\ ((d = current /\ evs = []) \/ (children t = [] /\ evs <> [])).
Proof.
  induction 1 as [|nm rest Hnm Hrest IH]; simpl; intros current d evs H.
  - inversion H; subst. exists d. split; [reflexivity|left; split; reflexivity].
  - rewrite Hnm.
    destruct (find (children current) nm) as [[f|next]|] eqn:F.
    + discriminate.
    + destruct (ensureFrom next rest) as [[err' next'] evs'] eqn:E.
      inversion H; subst. clear H.
      destruct (ensureFrom_keeps_identity _ _ _ _ _ E) as [Hn _].
      apply find_Some in F as F'. destruct F' as [_ Hname]. simpl in Hname.
      rewrite children_setChildren.
      rewrite (find_replaceFirst _ _ _ (DirNode next') F)
        by (simpl; congruence).
      destruct (IH _ _ _ E) as (t & Ht & Hcases).
      exists t. split; [exact Ht|].
      destruct Hcases as [[-> ->]|Hnew]; [left|right; exact Hnew].
      rewrite (replaceFirst_found _ _ _ F), setChildren_children.
      split; reflexivity.
    + destruct (ensureFrom _ rest) as [[err' next'] evs'] eqn:E.
      inversion H; subst. clear H.
      destruct (ensureFrom_keeps_identity _ _ _ _ _ E) as [Hn _].
      simpl in Hn.
      rewrite children_setChildren.
      rewrite (find_app_None _ _ (DirNode next') F) by exact Hn.
      destruct (IH _ _ _ E) as (t & Ht & Hcases).
      exists t. split; [exact Ht|]. right.
      destruct Hcases as [[-> _]|[Hnew _]]; (split; [|discriminate]).
      * now apply (getPathTargetFrom_children_nil rest _ t) in Ht.
      * exact Hnew.
Qed.

(** A walk over directories that all exist changes nothing. *)
Lemma ensureFrom_existing (names : list string) :
  forall current t,
    getPathTargetFrom current names = Some t ->
    ensureFrom current names = (None, current, []).
Proof.
  induction names as [|nm rest IH]; simpl; intros current t H; [reflexivity|].
  destruct (nonEmpty nm); [|discriminate].
  destruct (find (children current) nm) as [[f|next]|] eqn:F; try discriminate.
  rewrite (IH _ _ H).
  now rewrite (replaceFirst_found _ _ _ F), setChildren_children.
Qed.

Lemma getPathTargetFrom_not_blocked (names : list string) :
  forall current t,
    getPathTargetFrom current names = Some t ->
    blockedByFile current names = false.
Proof.
  induction names as [|nm rest IH]; simpl; intros current t H; [reflexivity|].
  destruct (nonEmpty nm); [|discriminate].
  destruct (find (children current) nm) as [[f|next]|]; try discriminate.
  now apply (IH _ t).
Qed.

(** ** In-place updates *)

Lemma updateTarget_name (pathArr : list string) (f : Directory -> Directory) :
  (forall d, name (f d) = name d) ->
  forall current, name (updateTarget current pathArr f) = name current.
Proof.
  intros Hf. destruct pathArr as [|nm rest]; simpl; intros current.
  - apply Hf.
  - destruct (nonEmpty nm); [|reflexivity].
    destruct (find (children current) nm) as [[g|next]|]; reflexivity.
Qed.

Lemma getPathTargetFrom_updateTarget
    (pathArr : list string) (f : Directory -> Directory) :
  (forall d, name (f d) = name d) ->
  forall current t,
    getPathTargetFrom current pathArr = Some t ->
    getPathTargetFrom (updateTarget current pathArr f) pathArr = Some (f t).
Proof.
  intros Hf. induction pathArr as [|nm rest IH]; simpl; intros current t H.
  - now inversion H.
  - destruct (nonEmpty nm); [|discriminate].
    destruct (find (children current) nm) as [[g|next]|] eqn:F;
      try discriminate.
    apply find_Some in F as F'. destruct F' as [_ Hnm]. simpl in Hnm.
    rewrite children_setChildren.
    rewrite (find_replaceFirst _ _ _ (DirNode (updateTarget next rest f)) F)
      by (simpl; now rewrite updateTarget_name).
    now apply IH.
Qed.

(** Rewrites the lookup of the directory that has just been updated. *)
Ltac look_in_updated Ht :=
  erewrite getPathTargetFrom_updateTarget;
  [ | intros; reflexivity | exact Ht ].

Lemma pop_getPathNodes (p : string) (pathArr : list string) (nm : string) :
  pop (getPathNodes p) = Some (pathArr, nm) ->
  getPathNodes p = pathArr ++ [nm]
  /\ Forall (fun s => isSegment s = true) pathArr
  /\ isSegment nm = true.
Proof.
  intros H. apply pop_spec in H.
  pose proof (getPathNodes_segments p) as Hs. rewrite H in Hs.
  apply Forall_app in Hs as [Hinit Hlast].
  inversion Hlast; subst. repeat split; assumption.
Qed.

Lemma segments_nonEmpty (segs : list string) :
  Forall (fun s => isSegment s = true) segs ->
  Forall (fun s => nonEmpty s = true) segs.
Proof.
  apply Forall_impl. intros s H. now apply andb_true_iff in H as [H _].
Qed.

Lemma nodeAt_snoc (root : Directory) (pathArr : list string) (nm : string) :
  nodeAt root (pathArr ++ [nm])
  = match getPathTargetFrom root pathArr with
    | Some parent => find (children parent) nm
    | None => None
    end.
Proof.
  unfold nodeAt. rewrite parentPath_app, lastName_app.
  destruct pathArr; reflexivity.
Qed.

(** ** saveFileSync *)

(** C9: a [saveFileSync] that throws, for whatever reason, leaves the tree
    exactly as it was and emits no event. *)
Theorem failed_save_changes_nothing
    (isIgnored : string -> bool) (root : Directory) (p c : string) (e : Error) :
  completion (saveFileSync isIgnored root p c) = Throw e ->
  rootAfter (saveFileSync isIgnored root p c) = root
  /\ emitted (saveFileSync isIgnored root p c) = [].
Proof.
  unfold saveFileSync.
  destruct (isIgnored p); [intros _; split; reflexivity|].
  destruct (pop (getPathNodes p)) as [[pathArr nm]|] eqn:Hpop;
    [|intros _; split; reflexivity].
  destruct (nonEmpty nm); [|intros _; split; reflexivity].
  apply pop_getPathNodes in Hpop as (_ & Hsegs & _).
  unfold ensureDirectorySync.
  destruct (isIgnored (join pathArr)); [intros _; split; reflexivity|].
  rewrite (getPathNodes_join _ Hsegs).
  destruct (ensureFrom root pathArr) as [[err d] evs] eqn:E.
  destruct err as [e'|]; simpl.
  - intros _. now apply ensureFrom_throw_unchanged in E.
  - destruct (ensureFrom_target _ (segments_nonEmpty _ Hsegs) _ _ _ E)
      as (t & Ht & Hcases).
    unfold saveInto, getPathTarget. rewrite Ht.
    destruct (find (children t) nm) as [[f|sub]|] eqn:F; simpl.
    + destruct (match content f with
                | Some c0 => String.eqb c0 c
                | None => false
                end); discriminate.
    + intros _. destruct Hcases as [[-> ->]|[Hnil _]].
      * split; reflexivity.
      * rewrite Hnil in F. discriminate.
    + discriminate.
Qed.

(** C9, witnessed: saving onto the name of a directory throws. *)
Lemma failed_save_changes_nothing_witness :
  rootAfter
    (saveFileSync nothingIgnored
       (rootAfter (ensureDirectorySync nothingIgnored emptyRoot "a")) "a" "x")
  = rootAfter (ensureDirectorySync nothingIgnored emptyRoot "a")
  /\ emitted
       (saveFileSync nothingIgnored
          (rootAfter (ensureDirectorySync nothingIgnored emptyRoot "a"))
          "a" "x") = [].
Proof.
  apply (failed_save_changes_nothing nothingIgnored _ "a" "x"
           (FileSaveError "a")).
  reflexivity.
Defined.

Lemma getPathNodes_snoc (p : string) :
  getPathNodes p <> [] ->
  exists pathArr nm,
    getPathNodes p = pathArr ++ [nm]
    /\ pop (getPathNodes p) = Some (pathArr, nm)
    /\ Forall (fun s => isSegment s = true) pathArr
    /\ nonEmpty nm = true.
Proof.
  intros Hne.
  destruct (pop (getPathNodes p)) as [[pathArr nm]|] eqn:Hpop.
  - destruct (pop_getPathNodes _ _ _ Hpop) as (Heq & Hsegs & Hnm).
    exists pathArr, nm. repeat split; try assumption.
    now apply andb_true_iff in Hnm as [Hnm _].
  - apply pop_none in Hpop. contradiction.
Qed.

(** What [loadTextFileSync] answers on a path that is not ignored. *)
Lemma loadTextFileSync_nodeAt
    (isIgnored : string -> bool) (root : Directory) (p : string) :
  isIgnored p = false ->
  completion (loadTextFileSync isIgnored root p)
  = match nodeAt root (getPathNodes p) with
    | Some (FileNode node) =>
        Return (match content node with Some c => c | None => EmptyString end)
    | Some (DirNode _) => Throw (FileIsADirectory p)
    | None => Throw (CannotFindFile p)
    end.
Proof.
  intros Hp. unfold loadTextFileSync, nodeAt, getPathTarget. rewrite Hp.
  destruct (getPathNodes p) as [|s l]; [reflexivity|].
  destruct (getPathTargetFrom root (parentPath (s :: l))); [|reflexivity].
  destruct (find _ _) as [[f|sub]|]; reflexivity.
Qed.

(** [saveFileSync] once the path is known to be legal and the walk over the
    parent segments has returned. *)
Lemma saveFileSync_after_walk
    (isIgnored : string -> bool) (root d : Directory) (p c : string)
    (pathArr : list string) (nm : string) (evs : list Event) :
  isIgnored p = false ->
  pop (getPathNodes p) = Some (pathArr, nm) ->
  isIgnored (join pathArr) = false ->
  ensureFrom root pathArr = (None, d, evs) ->
  saveFileSync isIgnored root p c = saveInto d pathArr nm p c evs.
Proof.
  intros Hp Hpop Hparent E. unfold saveFileSync. rewrite Hp, Hpop.
  destruct (pop_getPathNodes _ _ _ Hpop) as (_ & Hsegs & Hnm).
  apply andb_true_iff in Hnm as [Hnm _]. rewrite Hnm.
  unfold ensureDirectorySync. rewrite Hparent.
  rewrite (getPathNodes_join _ Hsegs), E. reflexivity.
Qed.

(** When [saveFileSync] returns: the parent path is not ignored, no file
    occupies a parent segment and no directory occupies the path. *)
Lemma saveFileSync_returns_iff
    (isIgnored : string -> bool) (root : Directory) (p c : string) :
  isIgnored p = false -> getPathNodes p <> [] ->
  completion (saveFileSync isIgnored root p c) = Return tt
  <-> (isIgnored (join (parentPath (getPathNodes p))) = false
       /\ blockedByFile root (parentPath (getPathNodes p)) = false
       /\ isDir (nodeAt root (getPathNodes p)) = false).
Proof.
  intros Hp Hne.
  destruct (getPathNodes_snoc _ Hne)
    as (pathArr & nm & Heq & Hpop & Hsegs & Hnm).
  rewrite Heq, parentPath_app, nodeAt_snoc.
  unfold saveFileSync. rewrite Hp, Hpop, Hnm.
  unfold ensureDirectorySync.
  destruct (isIgnored (join pathArr)); simpl.
  { split; [discriminate|]. intros (H & _); discriminate. }
  rewrite (getPathNodes_join _ Hsegs).
  pose proof (ensureFrom_succeeds_iff pathArr root) as Hblk.
  destruct (ensureFrom root pathArr) as [[err d] evs] eqn:E.
  simpl in Hblk. destruct err as [e|]; simpl.
  { split; [discriminate|]. intros (_ & H & _).
    apply Hblk in H. discriminate. }
  destruct (ensureFrom_target _ (segments_nonEmpty _ Hsegs) _ _ _ E)
    as (t & Ht & Hcases).
  unfold saveInto, getPathTarget. rewrite Ht.
  assert (Hnb : blockedByFile root pathArr = false) by now apply Hblk.
  destruct Hcases as [[-> ->]|[Hnil _]].
  - rewrite Ht.
    destruct (find (children t) nm) as [[f|sub]|]; simpl.
    + destruct (match content f with
                | Some c0 => String.eqb c0 c
                | None => false
                end); simpl; split; auto.
    + split; [discriminate|]. intros (_ & _ & H); discriminate.
    + split; auto.
  - rewrite Hnil. simpl. split; [intros _|reflexivity].
    repeat split; try assumption.
    destruct (getPathTargetFrom root pathArr) as [t0|] eqn:Ht0; [|reflexivity].
    rewrite (ensureFrom_existing _ _ _ Ht0) in E. inversion E; subst.
    rewrite Ht in Ht0. inversion Ht0; subst. now rewrite Hnil.
Qed.

Lemma textOf_newFile (nm p c : string) : textOf (newFile nm p c) = c.
Proof. now destruct c. Qed.

(** The node found at the path after a [saveFileSync] that returned is a
    file of that name that reads as the content saved. *)
Lemma saveFileSync_nodeAt
    (isIgnored : string -> bool) (root : Directory) (p c : string) :
  isIgnored p = false -> getPathNodes p <> [] ->
  completion (saveFileSync isIgnored root p c) = Return tt ->
  exists f,
    nodeAt (rootAfter (saveFileSync isIgnored root p c)) (getPathNodes p)
    = Some (FileNode f)
    /\ fileName f = lastName (getPathNodes p)
    /\ textOf f = c
    /\ (nodeAt root (getPathNodes p) = None -> fileFullPath f = p)
    /\ (forall g, nodeAt root (getPathNodes p) = Some (FileNode g) ->
                  fileFullPath f = fileFullPath g).
Proof.
  intros Hp Hne.
  destruct (getPathNodes_snoc _ Hne)
    as (pathArr & nm & Heq & Hpop & Hsegs & Hnm).
  rewrite Heq, lastName_app, !nodeAt_snoc.
  unfold saveFileSync. rewrite Hp, Hpop, Hnm.
  unfold ensureDirectorySync.
  destruct (isIgnored (join pathArr)); simpl; [discriminate|].
  rewrite (getPathNodes_join _ Hsegs).
  destruct (ensureFrom root pathArr) as [[err d] evs] eqn:E.
  destruct err as [e|]; simpl; [discriminate|].
  destruct (ensureFrom_target _ (segments_nonEmpty _ Hsegs) _ _ _ E)
    as (t & Ht & Hcases).
  assert (Horig : forall t0,
             getPathTargetFrom root pathArr = Some t0 -> t0 = t).
  { intros t0 Ht0. rewrite (ensureFrom_existing _ _ _ Ht0) in E.
    inversion E; subst. rewrite Ht in Ht0. now inversion Ht0. }
  unfold saveInto, getPathTarget. rewrite Ht.
  destruct (find (children t) nm) as [[f|sub]|] eqn:F; simpl.
  - apply find_Some in F as F'. destruct F' as [_ Hname]. simpl in Hname.
    destruct (content f) as [c0|] eqn:Hc.
    + destruct (String.eqb c0 c) eqn:Hcc; simpl; intros _.
      * apply String.eqb_eq in Hcc. subst c0. rewrite Ht, F.
        exists f. repeat split; try assumption;
          try (unfold textOf; now rewrite Hc).
        -- destruct (getPathTargetFrom root pathArr) as [t0|] eqn:Ht0.
           ++ rewrite (Horig _ eq_refl), F. discriminate.
           ++ destruct Hcases as [[-> _]|[Hnil _]].
              ** rewrite Ht in Ht0. discriminate.
              ** rewrite Hnil in F. discriminate.
        -- intros g. destruct (getPathTargetFrom root pathArr) as [t0|];
             [|discriminate].
           rewrite (Horig _ eq_refl), F. intros H. now inversion H.
      * look_in_updated Ht.
        rewrite children_setChildren.
        rewrite (find_replaceFirst _ _ _ _ F) by exact Hname.
        eexists. split; [reflexivity|]. simpl. repeat split; try assumption.
        -- destruct (getPathTargetFrom root pathArr) as [t0|] eqn:Ht0.
           ++ rewrite (Horig _ eq_refl), F. discriminate.
           ++ destruct Hcases as [[-> _]|[Hnil _]].
              ** rewrite Ht in Ht0. discriminate.
              ** rewrite Hnil in F. discriminate.
        -- intros g. destruct (getPathTargetFrom root pathArr) as [t0|];
             [|discriminate].
           rewrite (Horig _ eq_refl), F. intros H. now inversion H.
    + simpl. intros _.
      look_in_updated Ht.
      rewrite children_setChildren.
      rewrite (find_replaceFirst _ _ _ _ F) by exact Hname.
      eexists. split; [reflexivity|]. simpl. repeat split; try assumption.
      * destruct (getPathTargetFrom root pathArr) as [t0|] eqn:Ht0.
        -- rewrite (Horig _ eq_refl), F. discriminate.
        -- destruct Hcases as [[-> _]|[Hnil _]].
           ++ rewrite Ht in Ht0. discriminate.
           ++ rewrite Hnil in F. discriminate.
      * intros g. destruct (getPathTargetFrom root pathArr) as [t0|];
          [|discriminate].
        rewrite (Horig _ eq_refl), F. intros H. now inversion H.
  - discriminate.
  - intros _.
    look_in_updated Ht.
    rewrite children_setChildren.
    rewrite (find_app_None _ _ _ F) by reflexivity.
    eexists. split; [reflexivity|].
    repeat split; try reflexivity; try apply textOf_newFile.
    intros g. destruct (getPathTargetFrom root pathArr) as [t0|];
      [|discriminate].
    rewrite (Horig _ eq_refl), F. discriminate.
Qed.

(** C7, as stated, fails where a directory holds the name: [a] is a legal
    path, yet saving onto the directory [a] throws. *)
Lemma round_trip_stated_fails :
  ~ roundTripStated nothingIgnored
      (rootAfter (ensureDirectorySync nothingIgnored emptyRoot "a")) "a" "x".
Proof.
  intros H. destruct (H eq_refl) as [Hsave _]; discriminate.
Qed.

(** C7, amended: for every path that is neither ignored nor the root and
    every text, a [saveFileSync] that returns is followed by a
    [loadTextFileSync] returning exactly that text; and the save returns
    exactly when the parent path is not ignored, no file occupies a segment
    of the parent path and no directory occupies the path. *)
Theorem save_then_load
    (isIgnored : string -> bool) (root : Directory) (p c : string) :
  isIgnored p = false -> getPathNodes p <> [] ->
  (completion (saveFileSync isIgnored root p c) = Return tt ->
   completion
     (loadTextFileSync isIgnored
        (rootAfter (saveFileSync isIgnored root p c)) p) = Return c)
  /\ (completion (saveFileSync isIgnored root p c) = Return tt
      <-> (isIgnored (join (parentPath (getPathNodes p))) = false
           /\ blockedByFile root (parentPath (getPathNodes p)) = false
           /\ isDir (nodeAt root (getPathNodes p)) = false)).
Proof.
  intros Hp Hne. split; [|now apply saveFileSync_returns_iff].
  intros Hsave.
  destruct (saveFileSync_nodeAt _ _ _ _ Hp Hne Hsave) as (f & Hf & _ & Hc & _).
  rewrite (loadTextFileSync_nodeAt _ _ _ Hp), Hf. now f_equal.
Qed.

(** C7, witnessed on a fresh store. *)
Lemma save_then_load_witness :
  (completion (saveFileSync nothingIgnored emptyRoot "a/b.txt" "hi")
   = Return tt ->
   completion
     (loadTextFileSync nothingIgnored
        (rootAfter (saveFileSync nothingIgnored emptyRoot "a/b.txt" "hi"))
        "a/b.txt") = Return "hi")
  /\ (completion (saveFileSync nothingIgnored emptyRoot "a/b.txt" "hi")
      = Return tt
      <-> (nothingIgnored (join (parentPath (getPathNodes "a/b.txt"))) = false
           /\ blockedByFile emptyRoot (parentPath (getPathNodes "a/b.txt"))
              = false
           /\ isDir (nodeAt emptyRoot (getPathNodes "a/b.txt")) = false)).
Proof.
  apply (save_then_load nothingIgnored emptyRoot "a/b.txt" "hi").
  - reflexivity.
  - discriminate.
Defined.

Lemma ensureFrom_emits_directoryCreated (names : list string) :
  forall current err d evs,
    ensureFrom current names = (err, d, evs) ->
    forallb isDirectoryCreated evs = true.
Proof.
  induction names as [|nm rest IH]; simpl; intros current err d evs H.
  - now inversion H.
  - destruct (find (children current) nm) as [[f|next]|].
    + now inversion H.
    + destruct (ensureFrom next rest) as [[err' next'] evs'] eqn:E.
      inversion H; subst. now apply (IH _ _ _ _ E).
    + destruct (ensureFrom _ rest) as [[err' next'] evs'] eqn:E.
      inversion H; subst. simpl. now apply (IH _ _ _ _ E).
Qed.

Lemma filter_isFileCreated_directoryCreated (evs : list Event) :
  forallb isDirectoryCreated evs = true -> filter isFileCreated evs = [].
Proof.
  induction evs as [|e evs IH]; simpl; [reflexivity|].
  intros H. apply andb_true_iff in H as [He Hevs].
  destruct e; try discriminate. simpl. now apply IH.
Qed.


(** ** Listing a tree *)

(** C1, as stated, fails: the tree listed after [saveFile('a/b.txt', 'hi')]
    holds the file [b.txt] under [a], but without a content. *)
Lemma scenario_tree_stated_fails : ~ scenarioTreeStated.
Proof.
  intros (tree & a & b & Htree & Ha & _ & Hb & _ & Hcontent).
  vm_compute in Htree. inversion Htree; subst tree. clear Htree.
  destruct Ha as [Ha|[]]. inversion Ha; subst a. clear Ha.
  destruct Hb as [Hb|[]]. inversion Hb; subst b. clear Hb.
  discriminate.
Qed.

(** C1, amended: after [saveFile('a/b.txt', 'hi')] on a fresh store,
    [loadDirectoryTree()] returns the root directory whose only child is the
    directory [a], whose only child is the file [b.txt] with full path
    [a/b.txt] and no content; the content [hi] is what
    [loadTextFile('a/b.txt')] returns. *)
Theorem scenario_tree :
  completion
    (loadDirectoryTreeSync nothingIgnored
       (rootAfter (saveFileSync nothingIgnored emptyRoot "a/b.txt" "hi"))
       None)
  = Return
      (mkDirectory EmptyString EmptyString
         [DirNode
            (mkDirectory "a" "a"
               [FileNode (mkFile "b.txt" "a/b.txt" None)])])
  /\ completion
       (loadTextFileSync nothingIgnored
          (rootAfter (saveFileSync nothingIgnored emptyRoot "a/b.txt" "hi"))
          "a/b.txt")
     = Return "hi".
Proof. split; reflexivity. Qed.

(** ** Deleting *)

(** C2, on the code: deleting the directory [a] that holds the directory
    [a/b] emits [directoryDeleted] for both and then also [fileDeleted] for
    the directory [a/b]. *)
Theorem recursive_delete_reports_directory_as_file :
  nodeAt (rootAfter (ensureDirectorySync nothingIgnored emptyRoot "a/b"))
    ["a"; "b"]
  = Some (DirNode (mkDirectory "b" "a/b" []))
  /\ emitted
       (deleteDirectorySync nothingIgnored
          (rootAfter (ensureDirectorySync nothingIgnored emptyRoot "a/b"))
          "a" (Some true))
     = [directoryDeleted "a"; directoryDeleted "a/b"; fileDeleted "a/b"].
Proof. split; reflexivity. Qed.

(** C4, on the code: [deleteFileSync] of the empty path returns without an
    error, whatever the tree and the ignore predicate, and so does the path
    made of a lone separator. *)
Theorem delete_file_of_root_returns
    (isIgnored : string -> bool) (root : Directory) :
  deleteFileSync isIgnored root EmptyString = mkOutcome (Return tt) root []
  /\ deleteFileSync isIgnored root pathSeparator
     = mkOutcome (Return tt) root [].
Proof. split; reflexivity. Qed.

(** ** Full paths *)

(** C6, on the code: [saveFile('/a.txt', 'x')] on a fresh store leaves, at
    the name [a.txt] of the root, a file whose full path is [/a.txt] and not
    the join [a.txt] of the names that lead to it. *)
Theorem saved_file_keeps_the_path_as_given :
  reachable nothingIgnored
    (rootAfter (saveFileSync nothingIgnored emptyRoot "/a.txt" "x"))
  /\ nodeAt (rootAfter (saveFileSync nothingIgnored emptyRoot "/a.txt" "x"))
       ["a.txt"]
     = Some (FileNode (mkFile "a.txt" "/a.txt" (Some "x")))
  /\ join ["a.txt"] = "a.txt"
  /\ fullPathsJoined []
       (rootAfter (saveFileSync nothingIgnored emptyRoot "/a.txt" "x"))
     = false.
Proof.
  split; [|repeat split; reflexivity].
  apply (reachable_perform nothingIgnored emptyRoot (saveFile "/a.txt" "x")).
  apply reachable_fresh.
Qed.

(** ** Well-formed trees are kept by every call *)

Section WellFormedKept.

Variable P : string -> Prop.
Variable Q : list string -> File -> Prop.

Lemma wellFormed_empty (position : list string) (d : Directory) :
  children d = [] -> wellFormed P Q position d.
Proof.
  intros Hc. constructor; rewrite Hc; intros ? [].
Qed.

Lemma In_replaceFirst (nm : string) (n c : Node) (cs : list Node) :
  In c (replaceFirst nm n cs) -> c = n \/ In c cs.
Proof.
  induction cs as [|a cs IH]; simpl; [intros []|].
  destruct (String.eqb (nodeName a) nm); simpl.
  - intros [<-|H]; auto.
  - intros [<-|H]; auto. destruct (IH H); auto.
Qed.

(** Replacing a child by a directory of the same name and full path that
    is well formed keeps the parent well formed. *)
Lemma wellFormed_replace_directory
    (position : list string) (d next next' : Directory) (nm : string) :
  wellFormed P Q position d ->
  In (DirNode next) (children d) ->
  name next' = name next -> fullPath next' = fullPath next ->
  wellFormed P Q (position ++ [name next]) next' ->
  wellFormed P Q position
    (setChildren d (replaceFirst nm (DirNode next') (children d))).
Proof.
  intros Hd Hin Hn Hf Hnext. inversion Hd as [? ? Hall Hfile Hpath Hsub]; subst.
  constructor; rewrite children_setChildren.
  - intros c Hc. apply In_replaceFirst in Hc as [->|Hc]; [|now apply Hall].
    simpl. rewrite Hn, Hf. exact (Hall _ Hin).
  - intros f Hc. apply In_replaceFirst in Hc as [Heq|Hc]; [discriminate|].
    now apply Hfile.
  - intros d' Hc. apply In_replaceFirst in Hc as [Heq|Hc]; [|now apply Hpath].
    inversion Heq; subst d'. rewrite Hn, Hf. now apply Hpath.
  - intros d' Hc. apply In_replaceFirst in Hc as [Heq|Hc]; [|now apply Hsub].
    inversion Heq; subst d'. now rewrite Hn.
Qed.

(** Pushing a well-formed directory with the joined full path keeps the
    parent well formed. *)
Lemma wellFormed_push_directory
    (position : list string) (d newDir : Directory) :
  wellFormed P Q position d ->
  nonEmpty (name newDir) = true -> P (fullPath newDir) ->
  fullPath newDir = join (position ++ [name newDir]) ->
  wellFormed P Q (position ++ [name newDir]) newDir ->
  wellFormed P Q position (setChildren d (children d ++ [DirNode newDir])).
Proof.
  intros Hd Hne HP Hf Hnew. inversion Hd as [? ? Hall Hfile Hpath Hsub]; subst.
  constructor; rewrite children_setChildren.
  - intros c Hc. apply in_app_or in Hc as [Hc|[<-|[]]]; [now apply Hall|].
    split; assumption.
  - intros f Hc. apply in_app_or in Hc as [Hc|[Heq|[]]]; [now apply Hfile|].
    discriminate.
  - intros d' Hc. apply in_app_or in Hc as [Hc|[Heq|[]]]; [now apply Hpath|].
    now inversion Heq; subst.
  - intros d' Hc. apply in_app_or in Hc as [Hc|[Heq|[]]]; [now apply Hsub|].
    now inversion Heq; subst.
Qed.

Lemma new_directory_path (position : list string) (parentFullPath nm : string) :
  Forall (fun s => nonEmpty s = true) position ->
  parentFullPath = join position ->
  newFullPath parentFullPath nm = join (position ++ [nm]).
Proof.
  intros Hpos ->. unfold newFullPath.
  destruct position as [|a position]; [reflexivity|].
  rewrite join_nonEmpty by (assumption || discriminate).
  now rewrite join_snoc by discriminate.
Qed.

Lemma firstn_in_range (j : nat) (nm : string) (rest position : list string) :
  (position ++ [nm]) ++ firstn j rest = position ++ firstn (S j) (nm :: rest).
Proof. simpl. now rewrite <- app_assoc. Qed.

(** The walk of [ensureDirectorySync] keeps a tree well formed when the
    full paths of the directories it may create are in [P]. *)
Lemma ensureFrom_wellFormed (names : list string) :
  forall position current err d evs,
    Forall (fun s => nonEmpty s = true) position ->
    Forall (fun s => nonEmpty s = true) names ->
    fullPath current = join position ->
    wellFormed P Q position current ->
    (forall j, 1 <= j <= length names ->
               P (join (position ++ firstn j names))) ->
    ensureFrom current names = (err, d, evs) ->
    wellFormed P Q position d.
Proof.
  induction names as [|nm rest IH];
    intros position current err d evs Hpos Hnames Hfull Hwf HP H.
  - simpl in H. now inversion H; subst.
  - simpl in H. inversion Hnames as [|? ? Hnm Hrest]; subst.
    assert (Hpos' : Forall (fun s => nonEmpty s = true) (position ++ [nm])).
    { apply Forall_app. split; [assumption|]. now constructor. }
    assert (HP' : forall j, 1 <= j <= length rest ->
                            P (join ((position ++ [nm]) ++ firstn j rest))).
    { intros j Hj. rewrite firstn_in_range. apply HP. simpl. lia. }
    destruct (find (children current) nm) as [[f|next]|] eqn:F.
    + now inversion H; subst.
    + destruct (ensureFrom next rest) as [[err' next'] evs'] eqn:E.
      inversion H; subst. clear H.
      apply find_Some in F as [Hin Hname]. simpl in Hname. subst nm.
      destruct (ensureFrom_keeps_identity _ _ _ _ _ E) as [Hn Hf].
      inversion Hwf as [? ? Hall Hfile Hpath Hsub]; subst.
      apply (wellFormed_replace_directory _ _ next); try assumption.
      apply (IH _ next _ _ _ Hpos' Hrest) in E; try assumption.
      * now apply Hpath.
      * now apply Hsub.
    + destruct (ensureFrom _ rest) as [[err' newDir'] evs'] eqn:E.
      inversion H; subst. clear H.
      destruct (ensureFrom_keeps_identity _ _ _ _ _ E) as [Hn Hf].
      simpl in Hn, Hf.
      rewrite (new_directory_path position _ nm Hpos Hfull) in *.
      assert (HPnew : P (join (position ++ [nm]))).
      { specialize (HP 1). simpl in HP. apply HP. lia. }
      assert (Hnew : wellFormed P Q (position ++ [nm]) newDir').
      { apply (IH _ _ _ _ _ Hpos' Hrest) in E; try assumption.
        - reflexivity.
        - now apply wellFormed_empty. }
      apply wellFormed_push_directory; rewrite ?Hn, ?Hf;
        solve [assumption | reflexivity].
Qed.

Lemma updateTarget_fullPath (pathArr : list string)
    (f : Directory -> Directory) :
  (forall d, fullPath (f d) = fullPath d) ->
  forall current, fullPath (updateTarget current pathArr f) = fullPath current.
Proof.
  intros Hf. destruct pathArr as [|nm rest]; simpl; intros current.
  - apply Hf.
  - destruct (nonEmpty nm); [|reflexivity].
    destruct (find (children current) nm) as [[g|next]|]; reflexivity.
Qed.

(** Updating the directory a path leads to keeps a tree well formed when
    the update keeps a directory at the names of that path well formed. *)
Lemma updateTarget_wellFormed (f : Directory -> Directory) :
  (forall t, name (f t) = name t) ->
  (forall t, fullPath (f t) = fullPath t) ->
  forall pathArr position current,
    (forall t, wellFormed P Q (position ++ pathArr) t ->
               wellFormed P Q (position ++ pathArr) (f t)) ->
    wellFormed P Q position current ->
    wellFormed P Q position (updateTarget current pathArr f).
Proof.
  intros Hn Hf. induction pathArr as [|nm rest IH];
    simpl; intros position current Hwf Hcur.
  - rewrite app_nil_r in Hwf. now apply Hwf.
  - destruct (nonEmpty nm); [|assumption].
    destruct (find (children current) nm) as [[g|next]|] eqn:F; try assumption.
    apply find_Some in F as [Hin Hname]. simpl in Hname. subst nm.
    inversion Hcur as [? ? Hall Hfile Hpath Hsub]; subst.
    apply (wellFormed_replace_directory _ _ next); try assumption.
    + now apply updateTarget_name.
    + now apply updateTarget_fullPath.
    + apply IH; [|now apply Hsub].
      intros t. rewrite <- app_assoc. apply Hwf.
Qed.

Lemma wellFormed_removeNamed (nm : string) (position : list string)
    (t : Directory) :
  wellFormed P Q position t ->
  wellFormed P Q position (setChildren t (removeNamed nm (children t))).
Proof.
  intros H. inversion H as [? ? Hall Hfile Hpath Hsub]; subst.
  constructor; rewrite children_setChildren; intros c Hc;
    apply filter_In in Hc as [Hc _]; auto.
Qed.

Lemma wellFormed_push_file (f : File) (position : list string)
    (t : Directory) :
  nonEmpty (fileName f) = true -> P (fileFullPath f) -> Q position f ->
  wellFormed P Q position t ->
  wellFormed P Q position (setChildren t (children t ++ [FileNode f])).
Proof.
  intros Hne HP HQ H. inversion H as [? ? Hall Hfile Hpath Hsub]; subst.
  constructor; rewrite children_setChildren; intros c Hc;
    apply in_app_or in Hc as [Hc|[Heq|[]]]; auto; try discriminate.
  - subst c. split; assumption.
  - now inversion Heq; subst.
Qed.

Lemma wellFormed_replace_file (nm : string) (f : File)
    (position : list string) (t : Directory) :
  nonEmpty (fileName f) = true -> P (fileFullPath f) -> Q position f ->
  wellFormed P Q position t ->
  wellFormed P Q position
    (setChildren t (replaceFirst nm (FileNode f) (children t))).
Proof.
  intros Hne HP HQ H. inversion H as [? ? Hall Hfile Hpath Hsub]; subst.
  constructor; rewrite children_setChildren; intros c Hc;
    apply In_replaceFirst in Hc as [Heq|Hc]; auto; try discriminate.
  - subst c. split; assumption.
  - now inversion Heq; subst.
Qed.

(** The directory a path leads to in a well-formed tree is well formed,
    and its full path is the join of the names that lead to it. *)
Lemma getPathTargetFrom_wellFormed (pathArr : list string) :
  forall position current t,
    wellFormed P Q position current ->
    fullPath current = join position ->
    getPathTargetFrom current pathArr = Some t ->
    wellFormed P Q (position ++ pathArr) t
    /\ fullPath t = join (position ++ pathArr).
Proof.
  induction pathArr as [|nm rest IH]; simpl; intros position current t Hwf Hf H.
  - inversion H; subst. rewrite app_nil_r. split; assumption.
  - destruct (nonEmpty nm); [|discriminate].
    destruct (find (children current) nm) as [[g|next]|] eqn:F;
      try discriminate.
    apply find_Some in F as [Hin Hname]. simpl in Hname. subst nm.
    inversion Hwf as [? ? Hall Hfile Hpath Hsub]; subst.
    replace (position ++ name next :: rest)
      with ((position ++ [name next]) ++ rest)
      by now rewrite <- app_assoc.
    apply (IH _ next); auto.
Qed.

End WellFormedKept.

Section ReachableWellFormed.

Variable isIgnored : string -> bool.
Variable P : string -> Prop.
Variable Q : list string -> File -> Prop.

(** [P] holds of every path that is not ignored and of the join of every
    prefix of its segments. *)
Hypothesis P_not_ignored :
  forall q, isIgnored q = false ->
            P q /\ forall j, P (join (firstn j (getPathNodes q))).

(** [Q] holds of the file a save creates, and does not look at contents. *)
Hypothesis Q_created :
  forall q pathArr nm c,
    isIgnored q = false -> getPathNodes q = pathArr ++ [nm] ->
    isIgnored (join pathArr) = false ->
    Q pathArr (newFile nm q c).
Hypothesis Q_content :
  forall position g c,
    Q position g -> Q position (mkFile (fileName g) (fileFullPath g) (Some c)).

Lemma ensureDirectorySync_wellFormed (root : Directory) (p : string) :
  rootWellFormed P Q root ->
  rootWellFormed P Q (rootAfter (ensureDirectorySync isIgnored root p)).
Proof.
  intros [Hfull Hwf]. unfold ensureDirectorySync.
  destruct (isIgnored p) eqn:Hp; [split; assumption|].
  destruct (ensureFrom root (getPathNodes p)) as [[err d] evs] eqn:E.
  assert (rootWellFormed P Q d) as Hd.
  { split.
    - destruct (ensureFrom_keeps_identity _ _ _ _ _ E) as [_ Hf]. congruence.
    - apply (ensureFrom_wellFormed P Q (getPathNodes p) [] root err d evs);
        auto.
      + apply segments_nonEmpty, getPathNodes_segments.
      + intros j _. simpl. now apply P_not_ignored. }
  destruct err; exact Hd.
Qed.

Lemma saveInto_wellFormed (d : Directory) (pathArr : list string)
    (nm p c : string) (evs : list Event) :
  rootWellFormed P Q d -> nonEmpty nm = true -> P p ->
  Q pathArr (newFile nm p c) ->
  rootWellFormed P Q (rootAfter (saveInto d pathArr nm p c evs)).
Proof.
  intros [Hfull Hwf] Hnm Hp HQ. unfold saveInto, getPathTarget.
  destruct (getPathTargetFrom d pathArr) as [t|] eqn:Ht; [|split; assumption].
  destruct (getPathTargetFrom_wellFormed P Q _ _ _ _ Hwf Hfull Ht) as [Hwt _].
  destruct (find (children t) nm) as [[g|sub]|] eqn:F; simpl.
  - destruct (match content g with
              | Some c0 => String.eqb c0 c
              | None => false
              end); simpl; [split; assumption|].
    apply find_Some in F as [Hin _].
    inversion Hwt as [? ? Hall Hfile _ _]; subst.
    destruct (Hall _ Hin) as [Hg HPg]. simpl in Hg, HPg.
    split.
    + now rewrite updateTarget_fullPath.
    + apply updateTarget_wellFormed; auto.
      intros t0. apply wellFormed_replace_file; auto.
  - split; assumption.
  - split.
    + now rewrite updateTarget_fullPath.
    + apply updateTarget_wellFormed; auto.
      intros t0. now apply wellFormed_push_file.
Qed.

Lemma saveFileSync_wellFormed (root : Directory) (p c : string) :
  rootWellFormed P Q root ->
  rootWellFormed P Q (rootAfter (saveFileSync isIgnored root p c)).
Proof.
  intros Hroot. unfold saveFileSync.
  destruct (isIgnored p) eqn:Hp; [assumption|].
  destruct (pop (getPathNodes p)) as [[pathArr nm]|] eqn:Hpop; [|assumption].
  destruct (nonEmpty nm) eqn:Hnm; [|assumption].
  pose proof (ensureDirectorySync_wellFormed root (join pathArr) Hroot) as Hd.
  unfold ensureDirectorySync in *.
  destruct (isIgnored (join pathArr)) eqn:Hparent; [assumption|].
  destruct (ensureFrom root (getPathNodes (join pathArr)))
    as [[[e|] d] evs]; [assumption|].
  apply saveInto_wellFormed; auto.
  - now apply P_not_ignored.
  - apply Q_created; auto. now apply pop_spec.
Qed.

Lemma removal_wellFormed (root : Directory) (pathArr : list string)
    (nm : string) :
  rootWellFormed P Q root ->
  rootWellFormed P Q
    (updateTarget root pathArr (fun p =>
       setChildren p (removeNamed nm (children p)))).
Proof.
  intros [Hfull Hwf]. split.
  - now rewrite updateTarget_fullPath.
  - apply updateTarget_wellFormed; auto.
    intros t. apply wellFormed_removeNamed.
Qed.

Lemma deleteFileSync_wellFormed (root : Directory) (p : string) :
  rootWellFormed P Q root ->
  rootWellFormed P Q (rootAfter (deleteFileSync isIgnored root p)).
Proof.
  intros Hroot. unfold deleteFileSync.
  destruct (getPathNodes p) as [|s l]; [assumption|].
  destruct (getPathTarget root (parentPath (s :: l))); [|assumption].
  destruct (negb (isIgnored p)); [|assumption].
  destruct (find _ _) as [[f0|d0]|]; try assumption.
  now apply removal_wellFormed.
Qed.

Lemma deleteDirectorySync_wellFormed (root : Directory) (p : string)
    (recursive : option bool) :
  rootWellFormed P Q root ->
  rootWellFormed P Q
    (rootAfter (deleteDirectorySync isIgnored root p recursive)).
Proof.
  intros Hroot. unfold deleteDirectorySync.
  destruct (getPathNodes p) as [|s l]; [assumption|].
  destruct (getPathTarget root (parentPath (s :: l))); [|assumption].
  destruct (negb (isIgnored p)); [|assumption].
  destruct (find _ _) as [[f0|d0]|]; try assumption.
  destruct (_ && _); [assumption|].
  now apply removal_wellFormed.
Qed.

(** Every tree a store can hold is well formed. *)
Lemma reachable_wellFormed (root : Directory) :
  reachable isIgnored root -> rootWellFormed P Q root.
Proof.
  induction 1 as [|root op Hreach IH].
  - split; [reflexivity|]. now apply wellFormed_empty.
  - destruct op; simpl.
    + now apply saveFileSync_wellFormed.
    + now apply deleteFileSync_wellFormed.
    + now apply deleteDirectorySync_wellFormed.
    + now apply ensureDirectorySync_wellFormed.
    + now rewrite (proj1 (loadTextFileSync_pure _ _ _)).
    + now rewrite (proj1 (loadDirectoryTreeSync_pure _ _ _)).
    + now rewrite (proj1 (loadDirectoryChildrenSync_pure _ _ _)).
Qed.

End ReachableWellFormed.

(** ** Ignored paths *)

Lemma segments_firstn (j : nat) (segs : list string) :
  Forall (fun s => isSegment s = true) segs ->
  Forall (fun s => isSegment s = true) (firstn j segs).
Proof.
  intros H. rewrite <- (firstn_skipn j segs) in H.
  now apply Forall_app in H as [H _].
Qed.

Lemma fullPath_parseTree (d : Directory) : fullPath (parseTree d) = fullPath d.
Proof. destruct d; reflexivity. Qed.

(** The full path of every node of the listing of a well-formed tree is one
    of the full paths stored in the tree. *)
Lemma wellFormed_listing (P : string -> Prop)
    (Q : list string -> File -> Prop) (position : list string)
    (d : Directory) :
  wellFormed P Q position d ->
  forall n, In n (descendants (parseTree d)) -> P (nodeFullPath n).
Proof.
  induction 1 as [position d Hall Hfile Hpath Hsub IH].
  destruct d as [nm fp cs]. simpl in *. intros n Hn.
  apply in_flat_map in Hn as (x & Hx & Hn).
  apply in_map_iff in Hx as (c & <- & Hc).
  destruct c as [f|sub].
  - destruct Hn as [<-|[]]. exact (proj2 (Hall _ Hc)).
  - destruct Hn as [<-|Hn].
    + simpl. rewrite fullPath_parseTree. exact (proj2 (Hall _ Hc)).
    + now apply (IH sub).
Qed.

(** C3, as stated, fails for a predicate that matches [a] alone:
    [ensureDirectory('a/b')] is accepted and the tree then lists [a]. *)
Lemma ignored_invisible_stated_fails :
  ~ ignoredInvisibleStated (String.eqb "a") "a".
Proof.
  intros H. destruct (H eq_refl) as [_ Hlisted].
  apply (Hlisted
           (perform (String.eqb "a") emptyRoot (ensureDirectory "a/b"))
           (parseTree
              (perform (String.eqb "a") emptyRoot (ensureDirectory "a/b")))
           (reachable_perform _ _ _ (reachable_fresh _))
           eq_refl
           (DirNode
              (mkDirectory "a" "a" [DirNode (mkDirectory "b" "a/b" [])]))).
  - left. reflexivity.
  - exists []. reflexivity.
Qed.

(** Every file of the listing of a well-formed tree has the full path of a
    file stored in the tree. *)
Lemma wellFormed_listed_files (P : string -> Prop)
    (Q : list string -> File -> Prop) (position : list string)
    (d : Directory) :
  wellFormed P Q position d ->
  forall f, In (FileNode f) (descendants (parseTree d)) ->
            exists position' g,
              Q position' g /\ fileFullPath g = fileFullPath f.
Proof.
  induction 1 as [position d Hall Hfile Hpath Hsub IH].
  destruct d as [nm fp cs]. simpl in *. intros f Hf.
  apply in_flat_map in Hf as (x & Hx & Hf).
  apply in_map_iff in Hx as (c & <- & Hc).
  destruct c as [g|sub].
  - destruct Hf as [Hf|[]]. inversion Hf; subst f.
    exists position, g. split; [now apply Hfile|reflexivity].
  - destruct Hf as [Hf|Hf]; [discriminate|].
    now apply (IH sub).
Qed.

(** Every full path stored in a tree the store can hold is that of a path
    that is not ignored or lies above such a path, and the full path of
    every file stored is not ignored. *)
Lemma reachable_above_legal (isIgnored : string -> bool) (root : Directory) :
  reachable isIgnored root ->
  rootWellFormed
    (fun q => exists q', isIgnored q' = false
                         /\ extends (getPathNodes q) (getPathNodes q'))
    (fun _ f => isIgnored (fileFullPath f) = false) root.
Proof.
  apply reachable_wellFormed.
  - intros q Hq. split.
    + exists q. split; [assumption|]. exists []. now rewrite app_nil_r.
    + intros j. exists q. split; [assumption|].
      rewrite getPathNodes_join
        by apply segments_firstn, getPathNodes_segments.
      exists (skipn j (getPathNodes q)). now rewrite firstn_skipn.
  - intros q pathArr nm c Hq _ _. exact Hq.
  - intros position g c Hg. exact Hg.
Qed.

(** C3, amended: for every ignore predicate and every path [p] it matches,
    [saveFileSync] of [p] throws an illegal-path error for any content,
    leaving the tree as it was with no event; in every tree the store can
    hold, the listing of [loadDirectoryTree()] has no file whose full path
    is ignored, and a node whose full path is [p] or lies below [p] only
    where that full path is, or lies above, a path that is not ignored;
    so where every path at [p] or below it is ignored, the listing has no
    node whose full path is [p] or lies below [p]. *)
Theorem ignored_invisible (isIgnored : string -> bool) (p : string) :
  isIgnored p = true ->
  (forall root c,
      saveFileSync isIgnored root p c
      = mkOutcome (Throw (UnableToSaveIgnoredPath p)) root []
      /\ kind (UnableToSaveIgnoredPath p) = IllegalPath)
  /\ (forall root tree,
         reachable isIgnored root ->
         completion (loadDirectoryTreeSync isIgnored root None) = Return tree ->
         forall n, In n (descendants tree) ->
                   (forall f, n = FileNode f ->
                              isIgnored (fileFullPath f) = false)
                   /\ (extends (getPathNodes p)
                         (getPathNodes (nodeFullPath n)) ->
                       exists q,
                         isIgnored q = false
                         /\ extends (getPathNodes (nodeFullPath n))
                              (getPathNodes q)))
  /\ ((forall q, extends (getPathNodes p) (getPathNodes q) ->
                 isIgnored q = true) ->
      forall root tree,
        reachable isIgnored root ->
        completion (loadDirectoryTreeSync isIgnored root None) = Return tree ->
        forall n, In n (descendants tree) ->
                  ~ extends (getPathNodes p) (getPathNodes (nodeFullPath n))).
Proof.
  intros Hp.
  assert (Hlisted : forall root tree,
             reachable isIgnored root ->
             completion (loadDirectoryTreeSync isIgnored root None)
             = Return tree ->
             forall n, In n (descendants tree) ->
                       (forall f, n = FileNode f ->
                                  isIgnored (fileFullPath f) = false)
                       /\ exists q,
                            isIgnored q = false
                            /\ extends (getPathNodes (nodeFullPath n))
                                 (getPathNodes q)).
  { intros root tree Hreach Hload n Hn.
    destruct (reachable_above_legal _ _ Hreach) as [_ Hwf].
    unfold loadDirectoryTreeSync in Hload.
    destruct (isIgnored EmptyString); [discriminate|].
    simpl in Hload. inversion Hload; subst tree. split.
    - intros f ->.
      destruct (wellFormed_listed_files _ _ _ _ Hwf f Hn)
        as (position & g & Hg & <-).
      exact Hg.
    - exact (wellFormed_listing _ _ _ _ Hwf n Hn). }
  split; [|split].
  - intros root c. unfold saveFileSync. rewrite Hp. split; reflexivity.
  - intros root tree Hreach Hload n Hn.
    destruct (Hlisted root tree Hreach Hload n Hn) as [Hfile Habove].
    split; [exact Hfile|]. intros _. exact Habove.
  - intros Hbelow root tree Hreach Hload n Hn [rest Hrest].
    destruct (Hlisted root tree Hreach Hload n Hn)
      as [_ (q & Hq & [rest' Hrest'])].
    rewrite Hbelow in Hq; [discriminate|].
    exists (rest ++ rest'). now rewrite Hrest', Hrest, app_assoc.
Qed.

Lemma ignoresA_closedDownwards : closedDownwards ignoresA.
Proof.
  intros a b Ha [rest Hrest]. unfold ignoresA in *. rewrite Hrest.
  destruct (getPathNodes a) as [|first l]; [discriminate|]. exact Ha.
Defined.

(** C3, witnessed at the path [a]: with the predicate that matches [a]
    alone, for the save and for what the listing can hold; with the
    predicate that ignores [a] and all below it, for the listing that has
    no node at [a] or below. *)
Lemma ignored_invisible_witness :
  ((forall root c,
       saveFileSync (String.eqb "a") root "a" c
       = mkOutcome (Throw (UnableToSaveIgnoredPath "a")) root []
       /\ kind (UnableToSaveIgnoredPath "a") = IllegalPath)
   /\ (forall root tree,
          reachable (String.eqb "a") root ->
          completion (loadDirectoryTreeSync (String.eqb "a") root None)
          = Return tree ->
          forall n, In n (descendants tree) ->
                    (forall f, n = FileNode f ->
                               String.eqb "a" (fileFullPath f) = false)
                    /\ (extends (getPathNodes "a")
                          (getPathNodes (nodeFullPath n)) ->
                        exists q,
                          String.eqb "a" q = false
                          /\ extends (getPathNodes (nodeFullPath n))
                               (getPathNodes q))))
  /\ (forall root tree,
         reachable ignoresA root ->
         completion (loadDirectoryTreeSync ignoresA root None) = Return tree ->
         forall n, In n (descendants tree) ->
                   ~ extends (getPathNodes "a")
                       (getPathNodes (nodeFullPath n))).
Proof.
  split.
  - split.
    + apply (proj1 (ignored_invisible (String.eqb "a") "a" eq_refl)).
    + apply (proj1 (proj2 (ignored_invisible (String.eqb "a") "a" eq_refl))).
  - apply (proj2 (proj2 (ignored_invisible ignoresA "a" eq_refl))).
    intros q Hq. now apply (ignoresA_closedDownwards "a" q).
Defined.

(** ** ensureDirectorySync, repeated *)

Lemma getPathTargetFrom_cons_found (current next : Directory) (nm : string)
    (rest : list string) :
  nonEmpty nm = true ->
  find (children current) nm = Some (DirNode next) ->
  getPathTargetFrom current (nm :: rest) = getPathTargetFrom next rest.
Proof. intros Hnm F. simpl. now rewrite Hnm, F. Qed.

Lemma getPathTargetFrom_cons_missing (current : Directory) (nm : string)
    (rest : list string) :
  find (children current) nm = None ->
  getPathTargetFrom current (nm :: rest) = None.
Proof. intros F. simpl. rewrite F. now destruct (nonEmpty nm). Qed.

Lemma created_paths_shift (position rest : list string) (nm : string)
    (a n : nat) :
  map (fun j => directoryCreated (join ((position ++ [nm]) ++ firstn j rest)))
    (seq a n)
  = map (fun j => directoryCreated (join (position ++ firstn j (nm :: rest))))
      (seq (S a) n).
Proof.
  rewrite <- seq_shift, map_map. apply map_ext. intros j.
  now rewrite firstn_in_range.
Qed.

(** The events of a walk that returned, on a well-formed tree: the first [k]
    names led to directories that existed, the others did not, and one
    [directoryCreated] was emitted for each of the others, in order, with the
    join of the names up to it. *)
Lemma ensureFrom_events (P : string -> Prop)
    (Q : list string -> File -> Prop) (names : list string) :
  forall position current d evs,
    Forall (fun s => nonEmpty s = true) position ->
    Forall (fun s => nonEmpty s = true) names ->
    fullPath current = join position ->
    wellFormed P Q position current ->
    ensureFrom current names = (None, d, evs) ->
    exists k,
      k <= length names
      /\ (forall j, j <= k ->
                    getPathTargetFrom current (firstn j names) <> None)
      /\ (forall j, k < j <= length names ->
                    getPathTargetFrom current (firstn j names) = None)
      /\ evs = map (fun j => directoryCreated
                               (join (position ++ firstn j names)))
                 (seq (S k) (length names - k)).
Proof.
  induction names as [|nm rest IH];
    intros position current d evs Hpos Hnames Hfull Hwf H.
  - simpl in H. inversion H; subst. exists 0. simpl.
    repeat split; try lia.
    intros j Hj. replace j with 0 by lia. discriminate.
  - simpl in H. inversion Hnames as [|? ? Hnm Hrest]; subst.
    assert (Hpos' : Forall (fun s => nonEmpty s = true) (position ++ [nm])).
    { apply Forall_app. split; [assumption|]. now constructor. }
    destruct (find (children current) nm) as [[f|next]|] eqn:F.
    + discriminate.
    + destruct (ensureFrom next rest) as [[err' next'] evs'] eqn:E.
      inversion H; subst. clear H.
      apply find_Some in F as F'. destruct F' as [Hin Hname].
      simpl in Hname.
      inversion Hwf as [? ? Hall Hfile Hpath Hsub]; subst.
      destruct (IH (position ++ [name next]) next next' evs Hpos' Hrest
                   (Hpath _ Hin) (Hsub _ Hin) E)
        as (k & Hk & Hfound & Hmissing & Hevs).
      exists (S k). simpl length. repeat split.
      * lia.
      * intros [|j] Hj; [discriminate|]. simpl firstn.
        rewrite (getPathTargetFrom_cons_found _ _ _ _ Hnm F).
        apply Hfound. lia.
      * intros [|j] Hj; [lia|]. simpl firstn.
        rewrite (getPathTargetFrom_cons_found _ _ _ _ Hnm F).
        apply Hmissing. lia.
      * rewrite Hevs. simpl Nat.sub. apply created_paths_shift.
    + destruct (ensureFrom _ rest) as [[err' newDir'] evs'] eqn:E.
      inversion H; subst. clear H.
      rewrite (new_directory_path position _ nm Hpos Hfull) in *.
      destruct (IH (position ++ [nm])
                   (mkDirectory nm (join (position ++ [nm])) [])
                   newDir' evs' Hpos' Hrest eq_refl
                   (wellFormed_empty P Q _
                      (mkDirectory nm (join (position ++ [nm])) []) eq_refl) E)
        as (k & Hk & Hfound & _ & Hevs).
      assert (k = 0) as ->.
      { destruct k as [|k]; [reflexivity|]. exfalso.
        destruct rest as [|r rest]; [simpl in Hk; lia|].
        apply (Hfound 1); [lia|]. simpl. now destruct (nonEmpty r). }
      exists 0. simpl length. repeat split.
      * lia.
      * intros j Hj. replace j with 0 by lia. discriminate.
      * intros [|j] Hj; [lia|]. simpl firstn.
        now apply getPathTargetFrom_cons_missing.
      * rewrite Hevs. rewrite Nat.sub_0_r.
        change (S (length rest) - 0) with (S (length rest)).
        rewrite created_paths_shift. reflexivity.
Qed.

Lemma ensureAgain_settled (isIgnored : string -> bool) (root root1 : Directory)
    (p : string) (evs : list Event) :
  isIgnored p = false ->
  ensureFrom root (getPathNodes p) = (None, root1, evs) ->
  forall n, ensureAgain isIgnored root p (S n) = mkOutcome (Return tt) root1 [].
Proof.
  intros Hp E.
  assert (Hfirst : rootAfter (ensureDirectorySync isIgnored root p) = root1).
  { unfold ensureDirectorySync. now rewrite Hp, E. }
  assert (Hnext : ensureDirectorySync isIgnored root1 p
                  = mkOutcome (Return tt) root1 []).
  { unfold ensureDirectorySync. now rewrite Hp, (ensureFrom_again _ _ _ _ E). }
  induction n as [|n IH].
  - simpl. now rewrite Hfirst.
  - change (ensureAgain isIgnored root p (S (S n)))
      with (ensureDirectorySync isIgnored
              (rootAfter (ensureAgain isIgnored root p (S n))) p).
    now rewrite IH.
Qed.

(** C8: for every path that is not ignored and whose segments no file
    occupies, in every tree the store can hold, [ensureDirectorySync]
    returns; it emits one [directoryCreated], with the accumulated path, for
    each segment that did not lead to a directory before the call, in order,
    and none for the segments that did; every repetition of the call returns,
    leaves the tree the first call left and emits nothing.  On a fresh
    store [ensureDirectory('x')] emits exactly [directoryCreated] of [x] and
    a second call emits nothing. *)
Theorem ensureDirectory_idempotent :
  (forall (isIgnored : string -> bool) (root : Directory) (p : string),
      reachable isIgnored root ->
      isIgnored p = false ->
      blockedByFile root (getPathNodes p) = false ->
      exists root1 k,
        ensureDirectorySync isIgnored root p
        = mkOutcome (Return tt) root1
            (map (fun j => directoryCreated (join (firstn j (getPathNodes p))))
               (seq (S k) (length (getPathNodes p) - k)))
        /\ k <= length (getPathNodes p)
        /\ (forall j, j <= k ->
                      getPathTargetFrom root (firstn j (getPathNodes p))
                      <> None)
        /\ (forall j, k < j <= length (getPathNodes p) ->
                      getPathTargetFrom root (firstn j (getPathNodes p)) = None)
        /\ (forall j, j <= length (getPathNodes p) ->
                      getPathTargetFrom root1 (firstn j (getPathNodes p))
                      <> None)
        /\ (forall n, ensureAgain isIgnored root p (S n)
                      = mkOutcome (Return tt) root1 []))
  /\ ensureDirectorySync nothingIgnored emptyRoot "x"
     = mkOutcome (Return tt)
         (mkDirectory EmptyString EmptyString
            [DirNode (mkDirectory "x" "x" [])])
         [directoryCreated "x"]
  /\ ensureDirectorySync nothingIgnored
       (rootAfter (ensureDirectorySync nothingIgnored emptyRoot "x")) "x"
     = mkOutcome (Return tt)
         (rootAfter (ensureDirectorySync nothingIgnored emptyRoot "x")) [].
Proof.
  split; [|split; reflexivity].
  intros isIgnored root p Hreach Hp Hblocked.
  pose proof (reachable_wellFormed isIgnored (fun _ => True) (fun _ _ => True)
                (fun q _ => conj I (fun j => I))
                (fun _ _ _ _ _ _ _ => I) (fun _ _ _ _ => I) root Hreach)
    as [Hfull Hwf].
  pose proof (ensureFrom_succeeds_iff (getPathNodes p) root) as Hok.
  destruct (ensureFrom root (getPathNodes p)) as [[err root1] evs] eqn:E.
  simpl in Hok. apply Hok in Hblocked. subst err.
  pose proof (segments_nonEmpty _ (getPathNodes_segments p)) as Hsegs.
  destruct (ensureFrom_events _ _ _ [] root root1 evs (Forall_nil _) Hsegs
              Hfull Hwf E) as (k & Hk & Hfound & Hmissing & Hevs).
  exists root1, k. repeat split; try assumption.
  - unfold ensureDirectorySync. rewrite Hp, E, Hevs. reflexivity.
  - intros j Hj.
    pose proof (ensureFrom_again _ _ _ _ E) as Hagain.
    destruct (ensureFrom_events _ _ _ [] root1 root1 [] (Forall_nil _) Hsegs
                (eq_trans (proj2 (ensureFrom_keeps_identity _ _ _ _ _ E)) Hfull)
                (ensureFrom_wellFormed _ _ _ [] _ _ _ _ (Forall_nil _) Hsegs
                   Hfull Hwf (fun _ _ => I) E)
                Hagain) as (k1 & Hk1 & Hfound1 & _ & Hevs1).
    apply Hfound1.
    destruct (Nat.le_gt_cases j k1) as [Hle|Hgt]; [assumption|].
    exfalso. symmetry in Hevs1. apply map_eq_nil in Hevs1.
    assert (length (seq (S k1) (length (getPathNodes p) - k1)) = 0)
      by now rewrite Hevs1.
    rewrite length_seq in H. lia.
  - now apply (ensureAgain_settled _ _ _ _ evs).
Qed.

(** C8, witnessed on the tree that holds the directory [a], for the path
    [a/b]. *)
Lemma ensureDirectory_idempotent_witness :
  exists root1 k,
    ensureDirectorySync nothingIgnored
      (perform nothingIgnored emptyRoot (ensureDirectory "a")) "a/b"
    = mkOutcome (Return tt) root1
        (map (fun j => directoryCreated (join (firstn j (getPathNodes "a/b"))))
           (seq (S k) (length (getPathNodes "a/b") - k)))
    /\ k <= length (getPathNodes "a/b")
    /\ (forall j, j <= k ->
                  getPathTargetFrom
                    (perform nothingIgnored emptyRoot (ensureDirectory "a"))
                    (firstn j (getPathNodes "a/b")) <> None)
    /\ (forall j, k < j <= length (getPathNodes "a/b") ->
                  getPathTargetFrom
                    (perform nothingIgnored emptyRoot (ensureDirectory "a"))
                    (firstn j (getPathNodes "a/b")) = None)
    /\ (forall j, j <= length (getPathNodes "a/b") ->
                  getPathTargetFrom root1 (firstn j (getPathNodes "a/b"))
                  <> None)
    /\ (forall n,
           ensureAgain nothingIgnored
             (perform nothingIgnored emptyRoot (ensureDirectory "a"))
             "a/b" (S n)
           = mkOutcome (Return tt) root1 []).
Proof.
  apply (proj1 ensureDirectory_idempotent nothingIgnored
           (perform nothingIgnored emptyRoot (ensureDirectory "a")) "a/b").
  - apply (reachable_perform nothingIgnored emptyRoot (ensureDirectory "a")).
    apply reachable_fresh.
  - reflexivity.
  - reflexivity.
Defined.

(** ** The cases of saving *)

(** The three cases of [saveFileSync], on any tree, for a path whose parent
    path is not ignored. *)
Lemma saveFileSync_cases
    (isIgnored : string -> bool) (root : Directory) (p c : string) :
  isIgnored p = false -> getPathNodes p <> [] ->
  isIgnored (join (parentPath (getPathNodes p))) = false ->
  (forall g,
      nodeAt root (getPathNodes p) = Some (FileNode g) ->
      content g <> Some c ->
      completion (saveFileSync isIgnored root p c) = Return tt
      /\ nodeAt (rootAfter (saveFileSync isIgnored root p c)) (getPathNodes p)
         = Some (FileNode (mkFile (fileName g) (fileFullPath g) (Some c)))
      /\ emitted (saveFileSync isIgnored root p c) = [fileChanged p c])
  /\ (forall g,
         nodeAt root (getPathNodes p) = Some (FileNode g) ->
         content g = Some c ->
         saveFileSync isIgnored root p c = mkOutcome (Return tt) root [])
  /\ (nodeAt root (getPathNodes p) = None ->
      blockedByFile root (parentPath (getPathNodes p)) = false ->
      completion (saveFileSync isIgnored root p c) = Return tt
      /\ nodeAt (rootAfter (saveFileSync isIgnored root p c)) (getPathNodes p)
         = Some (FileNode (newFile (lastName (getPathNodes p)) p c))
      /\ emitted (saveFileSync isIgnored root p c)
         = emitted (ensureDirectorySync isIgnored root
                      (join (parentPath (getPathNodes p))))
           ++ [fileCreated p c]
      /\ forallb isDirectoryCreated
           (emitted (ensureDirectorySync isIgnored root
                       (join (parentPath (getPathNodes p))))) = true
      /\ length (filter isFileCreated
                   (emitted (saveFileSync isIgnored root p c))) = 1).
Proof.
  intros Hp Hne Hparent.
  destruct (getPathNodes_snoc _ Hne)
    as (pathArr & nm & Heq & Hpop & Hsegs & Hnm).
  rewrite Heq, parentPath_app in Hparent.
  rewrite Heq, !parentPath_app, lastName_app, !nodeAt_snoc.
  assert (Hexisting : forall g t,
             getPathTargetFrom root pathArr = Some t ->
             find (children t) nm = Some (FileNode g) ->
             saveFileSync isIgnored root p c
             = saveInto root pathArr nm p c []
             /\ getPathTarget root pathArr = Some t).
  { intros g t Ht F. split; [|exact Ht].
    apply saveFileSync_after_walk; try assumption.
    now apply (ensureFrom_existing _ _ t). }
  split; [|split].
  - intros g Hg Hcontent.
    destruct (getPathTargetFrom root pathArr) as [t|] eqn:Ht; [|discriminate].
    destruct (Hexisting g t eq_refl Hg) as [-> Htarget].
    unfold saveInto. rewrite Htarget, Hg.
    apply find_Some in Hg as Hg'. destruct Hg' as [_ Hname]. simpl in Hname.
    assert (Hneq : match content g with
                   | Some c0 => String.eqb c0 c
                   | None => false
                   end = false).
    { destruct (content g) as [c0|]; [|reflexivity].
      destruct (String.eqb c0 c) eqn:Hcc; [|reflexivity].
      apply String.eqb_eq in Hcc. subst. congruence. }
    rewrite Hneq. simpl. split; [reflexivity|]. split; [|reflexivity].
    look_in_updated Ht. rewrite children_setChildren.
    now rewrite (find_replaceFirst _ _ _ _ Hg) by exact Hname.
  - intros g Hg Hcontent.
    destruct (getPathTargetFrom root pathArr) as [t|] eqn:Ht; [|discriminate].
    destruct (Hexisting g t eq_refl Hg) as [-> Htarget].
    unfold saveInto. rewrite Htarget, Hg, Hcontent, String.eqb_refl.
    reflexivity.
  - intros Habsent Hblocked.
    pose proof (ensureFrom_succeeds_iff pathArr root) as Hblk.
    destruct (ensureFrom root pathArr) as [[err d] evs] eqn:E.
    simpl in Hblk. apply Hblk in Hblocked. subst err.
    rewrite (saveFileSync_after_walk _ _ _ _ _ _ _ _ Hp Hpop Hparent E).
    unfold ensureDirectorySync. rewrite Hparent.
    rewrite (getPathNodes_join _ Hsegs), E. simpl.
    destruct (ensureFrom_target _ (segments_nonEmpty _ Hsegs) _ _ _ E)
      as (t & Ht & Hcases).
    assert (F : find (children t) nm = None).
    { destruct Hcases as [[-> _]|[Hnil _]].
      - now rewrite Ht in Habsent.
      - now rewrite Hnil. }
    unfold saveInto, getPathTarget. rewrite Ht, F. simpl.
    pose proof (ensureFrom_emits_directoryCreated _ _ _ _ _ E) as Hevs.
    repeat split; try assumption.
    + look_in_updated Ht. rewrite children_setChildren.
      now rewrite (find_app_None _ _ _ F) by reflexivity.
    + rewrite filter_app, (filter_isFileCreated_directoryCreated _ Hevs).
      reflexivity.
Qed.





(** * Further properties of the store *)

(** ** Lookups, from the first name on *)

Lemma nodeAt_single (current : Directory) (nm : string) :
  nodeAt current [nm] = find (children current) nm.
Proof. reflexivity. Qed.

Lemma nodeAt_cons (current : Directory) (nm a : string) (rest : list string) :
  nodeAt current (nm :: a :: rest)
  = if nonEmpty nm then
      match find (children current) nm with
      | Some (DirNode next) => nodeAt next (a :: rest)
      | _ => None
      end
    else None.
Proof.
  unfold nodeAt.
  change (parentPath (nm :: a :: rest)) with (nm :: parentPath (a :: rest)).
  change (lastName (nm :: a :: rest)) with (lastName (a :: rest)).
  simpl getPathTargetFrom.
  destruct (nonEmpty nm); [|reflexivity].
  destruct (find (children current) nm) as [[f|next]|]; reflexivity.
Qed.

Lemma sameEntry_refl (a : option Node) : sameEntry a a.
Proof. destruct a as [[f|d]|]; simpl; auto. Qed.

Lemma sameEntry_sym (a b : option Node) : sameEntry a b -> sameEntry b a.
Proof.
  destruct a as [[f|d]|], b as [[g|e]|]; simpl; try tauto.
  - intros ->. reflexivity.
  - intros [H1 H2]. split; congruence.
Qed.

Lemma sameEntry_trans (a b c : option Node) :
  sameEntry a b -> sameEntry b c -> sameEntry a c.
Proof.
  destruct a as [[f|d]|], b as [[g|e]|], c as [[h|k]|]; simpl; try tauto.
  - congruence.
  - intros [H1 H2] [H3 H4]. split; congruence.
Qed.

Lemma find_replaceFirst_other (cs : list Node) (nm a : string) (n : Node) :
  nodeName n = nm -> a <> nm ->
  find (replaceFirst nm n cs) a = find cs a.
Proof.
  intros Hn Ha. unfold find. induction cs as [|c cs IH]; simpl; [reflexivity|].
  destruct (String.eqb (nodeName c) nm) eqn:E; simpl.
  - apply String.eqb_eq in E.
    assert (String.eqb (nodeName n) a = false) as ->
      by (apply String.eqb_neq; congruence).
    assert (String.eqb (nodeName c) a = false) as ->
      by (apply String.eqb_neq; congruence).
    reflexivity.
  - destruct (String.eqb (nodeName c) a); [reflexivity|exact IH].
Qed.

Lemma find_replaceFirst_absent (cs : list Node) (nm : string) (n : Node) :
  find cs nm = None -> replaceFirst nm n cs = cs.
Proof.
  unfold find. induction cs as [|c cs IH]; simpl; [reflexivity|].
  destruct (String.eqb (nodeName c) nm); [discriminate|].
  intros H. now rewrite IH.
Qed.

Lemma find_app_found (cs : list Node) (a : string) (c n : Node) :
  find cs a = Some c -> find (cs ++ [n]) a = Some c.
Proof.
  unfold find. induction cs as [|x cs IH]; simpl; [discriminate|].
  destruct (String.eqb (nodeName x) a); [trivial|exact IH].
Qed.

Lemma find_app_other (cs : list Node) (a : string) (n : Node) :
  nodeName n <> a -> find (cs ++ [n]) a = find cs a.
Proof.
  intros Hn. unfold find. induction cs as [|x cs IH]; simpl.
  - now apply String.eqb_neq in Hn as ->.
  - destruct (String.eqb (nodeName x) a); [reflexivity|exact IH].
Qed.

Lemma find_removeNamed_other (cs : list Node) (nm a : string) :
  a <> nm -> find (removeNamed nm cs) a = find cs a.
Proof.
  intros Ha. unfold find, removeNamed.
  induction cs as [|c cs IH]; simpl; [reflexivity|].
  destruct (String.eqb (nodeName c) nm) eqn:E; simpl.
  - apply String.eqb_eq in E.
    assert (String.eqb (nodeName c) a = false) as ->
      by (apply String.eqb_neq; congruence).
    exact IH.
  - destruct (String.eqb (nodeName c) a); [reflexivity|exact IH].
Qed.

Lemma find_removeNamed_same (cs : list Node) (nm : string) :
  find (removeNamed nm cs) nm = None.
Proof.
  unfold find, removeNamed. induction cs as [|c cs IH]; simpl; [reflexivity|].
  destruct (String.eqb (nodeName c) nm) eqn:E; simpl; [exact IH|].
  now rewrite E.
Qed.

Lemma extends_cons (a : string) (p q : list string) :
  extends (a :: p) (a :: q) <-> extends p q.
Proof.
  split; intros [rest H]; exists rest.
  - now inversion H.
  - simpl. now rewrite H.
Qed.

Lemma extends_dec (p q : list string) : extends p q \/ ~ extends p q.
Proof.
  revert q. induction p as [|a p IH]; intros q.
  - left. now exists q.
  - destruct q as [|b q].
    + right. intros [rest H]. discriminate.
    + destruct (string_dec a b) as [->|Hab].
      * destruct (IH q) as [H|H]; [left|right]; now rewrite extends_cons.
      * right. intros [rest H]. inversion H. congruence.
Qed.

Lemma nodeAt_nil (current : Directory) : nodeAt current [] = None.
Proof. reflexivity. Qed.

Lemma nodeAt_empty_directory (current : Directory) (segs : list string) :
  children current = [] -> nodeAt current segs = None.
Proof.
  intros Hc. destruct segs as [|a [|b rest]].
  - reflexivity.
  - now rewrite nodeAt_single, Hc.
  - rewrite nodeAt_cons, Hc. now destruct (nonEmpty a).
Qed.

(** Below a name that leads to no directory, lookups find nothing. *)
Lemma nodeAt_below_nondirectory (target : list string) :
  forall current more,
    target <> [] -> more <> [] ->
    isDir (nodeAt current target) = false ->
    nodeAt current (target ++ more) = None.
Proof.
  induction target as [|a target IH]; intros current more Ht Hm Hdir;
    [congruence|].
  destruct target as [|b target].
  - destruct more as [|m more]; [congruence|].
    rewrite nodeAt_single in Hdir. simpl app. rewrite nodeAt_cons.
    destruct (nonEmpty a); [|reflexivity].
    destruct (find (children current) a) as [[f|d]|];
      try reflexivity; discriminate.
  - rewrite nodeAt_cons in Hdir.
    change ((a :: b :: target) ++ more) with (a :: b :: (target ++ more)).
    rewrite nodeAt_cons.
    destruct (nonEmpty a); [|reflexivity].
    destruct (find (children current) a) as [[f|d]|]; try reflexivity.
    apply (IH d more); [discriminate|assumption|assumption].
Qed.

(** ** What an in-place update leaves alone *)

Section UpdateFrame.

Variable f : Directory -> Directory.
Variable nm : string.
Hypothesis f_name : forall t, name (f t) = name t.
Hypothesis f_fullPath : forall t, fullPath (f t) = fullPath t.
Hypothesis f_others :
  forall t a, a <> nm -> find (children (f t)) a = find (children t) a.

(** An update of the child [nm] of the directory at [pathArr] leaves every
    lookup alike that does not go through that child. *)
Lemma nodeAt_updateTarget_outside (pathArr : list string) :
  forall current segs,
    ~ extends (pathArr ++ [nm]) segs ->
    sameEntry (nodeAt (updateTarget current pathArr f) segs)
      (nodeAt current segs).
Proof.
  induction pathArr as [|p0 rest IH]; intros current segs Hout.
  - simpl updateTarget. destruct segs as [|a [|b r]].
    + exact I.
    + assert (a <> nm) as Ha
        by (intros ->; apply Hout; now exists []).
      rewrite !nodeAt_single, (f_others _ _ Ha). apply sameEntry_refl.
    + assert (a <> nm) as Ha
        by (intros ->; apply Hout; now exists (b :: r)).
      rewrite !nodeAt_cons, (f_others _ _ Ha). apply sameEntry_refl.
  - simpl updateTarget.
    destruct (nonEmpty p0) eqn:Hp0; [|apply sameEntry_refl].
    destruct (find (children current) p0) as [[g|next]|] eqn:F;
      try apply sameEntry_refl.
    apply find_Some in F as F'. destruct F' as [_ Hname]. simpl in Hname.
    assert (Hnew : nodeName (DirNode (updateTarget next rest f)) = p0)
      by (simpl; now rewrite updateTarget_name).
    destruct segs as [|a [|b r]].
    + exact I.
    + rewrite !nodeAt_single, children_setChildren.
      destruct (string_dec a p0) as [->|Ha].
      * rewrite (find_replaceFirst _ _ _ _ F Hnew), F. simpl.
        split; [now apply updateTarget_name|now apply updateTarget_fullPath].
      * rewrite (find_replaceFirst_other _ _ _ _ Hnew Ha).
        apply sameEntry_refl.
    + rewrite !nodeAt_cons, children_setChildren.
      destruct (string_dec a p0) as [->|Ha].
      * rewrite (find_replaceFirst _ _ _ _ F Hnew), F, Hp0.
        apply IH. intros Hext. apply Hout. simpl. now apply extends_cons.
      * rewrite (find_replaceFirst_other _ _ _ _ Hnew Ha).
        apply sameEntry_refl.
Qed.

(** When the update leaves no directory at the child [nm], lookups find
    nothing below it afterwards. *)
Lemma nodeAt_updateTarget_below (pathArr : list string) (current t : Directory)
    (more : list string) :
  isDir (find (children (f t)) nm) = false ->
  getPathTargetFrom current pathArr = Some t ->
  more <> [] ->
  nodeAt (updateTarget current pathArr f) ((pathArr ++ [nm]) ++ more) = None.
Proof.
  intros Hf Ht Hm. apply nodeAt_below_nondirectory; try assumption.
  - now destruct pathArr.
  - rewrite nodeAt_snoc.
    rewrite (getPathTargetFrom_updateTarget _ _ f_name _ _ Ht). exact Hf.
Qed.

End UpdateFrame.

Lemma sameEntry_files (a b : option Node) (g : File) :
  sameEntry a b -> (a = Some (FileNode g) <-> b = Some (FileNode g)).
Proof.
  destruct a as [[f|d]|], b as [[h|e]|]; simpl; try tauto;
    try (intros _; split; discriminate).
  intros ->. tauto.
Qed.

Lemma entryKept_files (before after : option Node) (g : File) :
  entryKept before after ->
  (after = Some (FileNode g) <-> before = Some (FileNode g)).
Proof.
  unfold entryKept. destruct before as [n|].
  - intros H. now apply sameEntry_files.
  - intros H. split; [|discriminate]. intros ->. discriminate.
Qed.

Lemma entryKept_refl (a : option Node) : entryKept a a.
Proof.
  destruct a as [[f|d]|]; simpl; auto.
Qed.

Lemma find_app_missing (cs : list Node) (a : string) (n : Node) :
  find cs a = None ->
  find (cs ++ [n]) a = if String.eqb (nodeName n) a then Some n else None.
Proof.
  unfold find. induction cs as [|x cs IH]; simpl; [reflexivity|].
  destruct (String.eqb (nodeName x) a); [discriminate|exact IH].
Qed.

(** The walk of [ensureDirectorySync] keeps every entry and adds no file. *)
Lemma ensureFrom_keeps_entries (names : list string) :
  forall current err d evs segs,
    ensureFrom current names = (err, d, evs) ->
    entryKept (nodeAt current segs) (nodeAt d segs).
Proof.
  induction names as [|nm rest IH]; simpl; intros current err d evs segs H.
  - inversion H; subst. apply entryKept_refl.
  - destruct (find (children current) nm) as [[g|next]|] eqn:F.
    + inversion H; subst. apply entryKept_refl.
    + destruct (ensureFrom next rest) as [[err' next'] evs'] eqn:E.
      inversion H; subst. clear H.
      destruct (ensureFrom_keeps_identity _ _ _ _ _ E) as [Hn Hf].
      apply find_Some in F as F'. destruct F' as [_ Hname]. simpl in Hname.
      assert (Hnew : nodeName (DirNode next') = nm) by (simpl; congruence).
      destruct segs as [|a [|b r]].
      * exact eq_refl.
      * rewrite !nodeAt_single, children_setChildren.
        destruct (string_dec a nm) as [->|Ha].
        -- rewrite (find_replaceFirst _ _ _ _ F Hnew), F. simpl. tauto.
        -- rewrite (find_replaceFirst_other _ _ _ _ Hnew Ha).
           apply entryKept_refl.
      * rewrite !nodeAt_cons, children_setChildren.
        destruct (string_dec a nm) as [->|Ha].
        -- rewrite (find_replaceFirst _ _ _ _ F Hnew), F.
           destruct (nonEmpty nm); [|exact eq_refl].
           apply (IH _ _ _ _ _ E).
        -- rewrite (find_replaceFirst_other _ _ _ _ Hnew Ha).
           apply entryKept_refl.
    + destruct (ensureFrom _ rest) as [[err' newDir'] evs'] eqn:E.
      inversion H; subst. clear H.
      destruct segs as [|a [|b r]].
      * exact eq_refl.
      * rewrite !nodeAt_single, children_setChildren.
        destruct (find (children current) a) as [c|] eqn:Fa.
        -- rewrite (find_app_found _ _ _ _ Fa). apply sameEntry_refl.
        -- rewrite (find_app_missing _ _ _ Fa). simpl.
           now destruct (String.eqb _ a).
      * rewrite !nodeAt_cons, children_setChildren.
        destruct (find (children current) a) as [c|] eqn:Fa.
        -- rewrite (find_app_found _ _ _ _ Fa). apply entryKept_refl.
        -- rewrite (find_app_missing _ _ _ Fa).
           assert (Hnone : entryKept None
                             (if nonEmpty a then
                                match
                                  (if String.eqb (nodeName (DirNode newDir')) a
                                   then Some (DirNode newDir') else None)
                                with
                                | Some (DirNode next) => nodeAt next (b :: r)
                                | _ => None
                                end
                              else None)).
           { destruct (nonEmpty a); [|exact eq_refl].
             destruct (String.eqb _ a); [|exact eq_refl].
             pose proof (IH _ _ _ _ (b :: r) E) as Hk.
             rewrite nodeAt_empty_directory in Hk by reflexivity.
             exact Hk. }
           destruct (nonEmpty a); exact Hnone.
Qed.

(** An update that leaves no directory at the child [nm], where there was
    none, changes no file found at other names. *)
Lemma update_other_files (f : Directory -> Directory) (nm : string)
    (pathArr : list string) (d t : Directory) (segs : list string) (g : File) :
  (forall t', name (f t') = name t') ->
  (forall t', fullPath (f t') = fullPath t') ->
  (forall t' a, a <> nm -> find (children (f t')) a = find (children t') a) ->
  getPathTargetFrom d pathArr = Some t ->
  isDir (find (children t) nm) = false ->
  isDir (find (children (f t)) nm) = false ->
  segs <> pathArr ++ [nm] ->
  nodeAt (updateTarget d pathArr f) segs = Some (FileNode g)
  <-> nodeAt d segs = Some (FileNode g).
Proof.
  intros Hn Hf Ho Ht Hbefore Hafter Hsegs.
  destruct (extends_dec (pathArr ++ [nm]) segs) as [[more ->]|Hout].
  - assert (more <> []) as Hm
      by (intros ->; apply Hsegs; now rewrite app_nil_r).
    rewrite (nodeAt_updateTarget_below f nm Hn pathArr d t more Hafter Ht Hm).
    rewrite nodeAt_below_nondirectory; try assumption.
    + tauto.
    + now destruct pathArr.
    + now rewrite nodeAt_snoc, Ht.
  - apply sameEntry_files.
    now apply (nodeAt_updateTarget_outside f nm Hn Hf Ho).
Qed.

(** ** Reads that a call leaves alone *)

(** [loadTextFileSync] returns exactly when the path is not ignored and a
    file is found at its segments. *)
Lemma loadTextFileSync_returns_iff
    (isIgnored : string -> bool) (root : Directory) (q c : string) :
  completion (loadTextFileSync isIgnored root q) = Return c
  <-> isIgnored q = false
      /\ exists g, nodeAt root (getPathNodes q) = Some (FileNode g)
                   /\ c = match content g with
                          | Some c0 => c0
                          | None => EmptyString
                          end.
Proof.
  destruct (isIgnored q) eqn:Hq.
  - unfold loadTextFileSync. rewrite Hq. simpl.
    split; [discriminate|intros [H _]; discriminate].
  - rewrite (loadTextFileSync_nodeAt _ _ _ Hq).
    destruct (nodeAt root (getPathNodes q)) as [[g|d]|].
    + split.
      * intros H. inversion H. split; [reflexivity|]. now exists g.
      * intros (_ & g' & Hg & ->). now inversion Hg.
    + split; [discriminate|]. intros (_ & g' & Hg & _). discriminate.
    + split; [discriminate|]. intros (_ & g' & Hg & _). discriminate.
Qed.

Lemma loads_alike (isIgnored : string -> bool) (r1 r2 : Directory)
    (q c : string) :
  (forall g, nodeAt r1 (getPathNodes q) = Some (FileNode g)
             <-> nodeAt r2 (getPathNodes q) = Some (FileNode g)) ->
  completion (loadTextFileSync isIgnored r1 q) = Return c
  <-> completion (loadTextFileSync isIgnored r2 q) = Return c.
Proof.
  intros H. rewrite !loadTextFileSync_returns_iff.
  split; intros (Hq & g & Hg & Hc); (split; [assumption|]);
    exists g; (split; [now apply H|assumption]).
Qed.

Lemma ensureDirectorySync_other_files
    (isIgnored : string -> bool) (root : Directory) (p : string)
    (segs : list string) (g : File) :
  nodeAt (rootAfter (ensureDirectorySync isIgnored root p)) segs
  = Some (FileNode g)
  <-> nodeAt root segs = Some (FileNode g).
Proof.
  unfold ensureDirectorySync. destruct (isIgnored p); [tauto|].
  destruct (ensureFrom root (getPathNodes p)) as [[err d] evs] eqn:E.
  pose proof (ensureFrom_keeps_entries _ _ _ _ _ segs E) as Hk.
  destruct err; now apply entryKept_files.
Qed.

(** X1: [ensureDirectorySync], whether it returns or throws and whatever the
    path, changes no text a [loadTextFileSync] returns: a path read returns
    a text after the call exactly when it returned that text before. *)
Theorem ensureDirectory_keeps_reads
    (isIgnored : string -> bool) (root : Directory) (p q c : string) :
  completion
    (loadTextFileSync isIgnored
       (rootAfter (ensureDirectorySync isIgnored root p)) q) = Return c
  <-> completion (loadTextFileSync isIgnored root q) = Return c.
Proof.
  apply loads_alike. intros g. apply ensureDirectorySync_other_files.
Qed.

Lemma saveInto_other_files (d : Directory) (pathArr : list string)
    (nm p c : string) (evs : list Event) (segs : list string) (g : File) :
  segs <> pathArr ++ [nm] ->
  nodeAt (rootAfter (saveInto d pathArr nm p c evs)) segs = Some (FileNode g)
  <-> nodeAt d segs = Some (FileNode g).
Proof.
  intros Hsegs. unfold saveInto, getPathTarget.
  destruct (getPathTargetFrom d pathArr) as [t|] eqn:Ht; [|simpl; tauto].
  destruct (find (children t) nm) as [[g0|sub]|] eqn:F; simpl; try tauto.
  - destruct (match content g0 with
              | Some c0 => String.eqb c0 c
              | None => false
              end); simpl; [tauto|].
    apply find_Some in F as F'. destruct F' as [_ Hname]. simpl in Hname.
    apply (update_other_files _ nm pathArr d t); try assumption;
      try (intros; reflexivity).
    + intros t' a Ha. rewrite children_setChildren.
      now apply find_replaceFirst_other.
    + now rewrite F.
    + rewrite children_setChildren.
      now rewrite (find_replaceFirst _ _ _ _ F) by exact Hname.
  - apply (update_other_files _ nm pathArr d t); try assumption;
      try (intros; reflexivity).
    + intros t' a Ha. rewrite children_setChildren.
      apply find_app_other. simpl. congruence.
    + now rewrite F.
    + rewrite children_setChildren.
      now rewrite (find_app_None _ _ _ F) by reflexivity.
Qed.

Lemma saveFileSync_other_files
    (isIgnored : string -> bool) (root : Directory) (p c : string)
    (segs : list string) (g : File) :
  segs <> getPathNodes p ->
  nodeAt (rootAfter (saveFileSync isIgnored root p c)) segs = Some (FileNode g)
  <-> nodeAt root segs = Some (FileNode g).
Proof.
  intros Hsegs. unfold saveFileSync.
  destruct (isIgnored p); [simpl; tauto|].
  destruct (pop (getPathNodes p)) as [[pathArr nm]|] eqn:Hpop;
    [|simpl; tauto].
  destruct (nonEmpty nm); [|simpl; tauto].
  apply pop_spec in Hpop as Hsplit. rewrite Hsplit in Hsegs.
  pose proof (ensureDirectorySync_other_files isIgnored root (join pathArr)
                segs g) as Hensure.
  destruct (completion (ensureDirectorySync isIgnored root (join pathArr)));
    [|exact Hensure].
  rewrite <- Hensure. now apply saveInto_other_files.
Qed.

(** X2: [saveFileSync], whether it returns or throws, changes no text that
    [loadTextFileSync] returns for a path with other segments: such a read
    returns a text after the call exactly when it returned that text
    before. *)
Theorem saveFile_keeps_other_reads
    (isIgnored : string -> bool) (root : Directory) (p c q c' : string) :
  getPathNodes q <> getPathNodes p ->
  completion
    (loadTextFileSync isIgnored
       (rootAfter (saveFileSync isIgnored root p c)) q) = Return c'
  <-> completion (loadTextFileSync isIgnored root q) = Return c'.
Proof.
  intros Hq. apply loads_alike. intros g.
  now apply saveFileSync_other_files.
Qed.

(** X2, witnessed: saving [a/c.txt] beside the saved [a/b.txt]. *)
Lemma saveFile_keeps_other_reads_witness :
  completion
    (loadTextFileSync nothingIgnored
       (rootAfter
          (saveFileSync nothingIgnored
             (perform nothingIgnored emptyRoot (saveFile "a/b.txt" "hi"))
             "a/c.txt" "ho"))
       "a/b.txt") = Return "hi"
  <-> completion
        (loadTextFileSync nothingIgnored
           (perform nothingIgnored emptyRoot (saveFile "a/b.txt" "hi"))
           "a/b.txt") = Return "hi".
Proof.
  apply (saveFile_keeps_other_reads nothingIgnored
           (perform nothingIgnored emptyRoot (saveFile "a/b.txt" "hi"))
           "a/c.txt" "ho" "a/b.txt" "hi").
  discriminate.
Defined.

(** ** Deleting, by what is found at the path *)

Lemma segments_split (segs : list string) :
  segs <> [] -> segs = parentPath segs ++ [lastName segs].
Proof. intros H. now apply app_removelast_last. Qed.

Lemma deleteFileSync_cases
    (isIgnored : string -> bool) (root : Directory) (p : string) :
  deleteFileSync isIgnored root p
  = if isIgnored p then mkOutcome (Return tt) root []
    else
      match nodeAt root (getPathNodes p) with
      | Some (FileNode _) =>
          mkOutcome (Return tt)
            (updateTarget root (parentPath (getPathNodes p)) (fun d =>
               setChildren d
                 (removeNamed (lastName (getPathNodes p)) (children d))))
            [fileDeleted p]
      | Some (DirNode _) => mkOutcome (Throw (DirectoryIsNotAFile p)) root []
      | None => mkOutcome (Return tt) root []
      end.
Proof.
  unfold deleteFileSync, nodeAt, getPathTarget.
  destruct (getPathNodes p) as [|s l]; [now destruct (isIgnored p)|].
  destruct (getPathTargetFrom root (parentPath (s :: l))) as [t|];
    [|now destruct (isIgnored p)].
  destruct (isIgnored p); [reflexivity|]. simpl negb. cbv iota.
  destruct (find (children t) (lastName (s :: l))) as [[node|sub]|] eqn:F;
    try reflexivity.
  apply find_Some in F as [_ Hname]. simpl in Hname. now rewrite Hname.
Qed.

Lemma deleteDirectorySync_cases
    (isIgnored : string -> bool) (root : Directory) (p : string)
    (recursive : option bool) :
  deleteDirectorySync isIgnored root p recursive
  = match getPathNodes p with
    | [] => mkOutcome (Throw CantDeleteRootDirectory) root []
    | _ =>
        if isIgnored p then mkOutcome (Return tt) root []
        else
          match nodeAt root (getPathNodes p) with
          | Some (FileNode _) =>
              mkOutcome (Throw (FileIsNotADirectory p)) root []
          | Some (DirNode node) =>
              if negb (match recursive with Some b => b | None => false end)
                 && negb (Nat.eqb (length (children node)) 0)
              then mkOutcome (Throw (DirectoryIsNotEmpty p)) root []
              else
                mkOutcome (Return tt)
                  (updateTarget root (parentPath (getPathNodes p)) (fun d =>
                     setChildren d
                       (removeNamed (lastName (getPathNodes p)) (children d))))
                  (recursiveEmitDeletion node)
          | None => mkOutcome (Return tt) root []
          end
    end.
Proof.
  unfold deleteDirectorySync, nodeAt, getPathTarget.
  destruct (getPathNodes p) as [|s l]; [reflexivity|].
  destruct (getPathTargetFrom root (parentPath (s :: l))) as [t|];
    [|now destruct (isIgnored p)].
  destruct (isIgnored p); [reflexivity|]. simpl negb at 1. cbv iota.
  destruct (find (children t) (lastName (s :: l))) as [[node|sub]|] eqn:F;
    try reflexivity.
  apply find_Some in F as [_ Hname]. simpl in Hname. now rewrite Hname.
Qed.

(** Removing the children named like the last segment leaves nothing at the
    segments, and changes no file found at other segments when no directory
    was removed. *)
Lemma removal_at (root : Directory) (segs : list string) (n : Node) :
  nodeAt root segs = Some n ->
  nodeAt
    (updateTarget root (parentPath segs) (fun d =>
       setChildren d (removeNamed (lastName segs) (children d)))) segs
  = None.
Proof.
  intros Hn. assert (segs <> []) as Hne by (intros ->; discriminate).
  pose proof (segments_split _ Hne) as Hsplit.
  revert Hn Hsplit.
  generalize (parentPath segs) as pathArr, (lastName segs) as nm.
  intros pathArr nm Hn ->. rewrite nodeAt_snoc in *.
  destruct (getPathTargetFrom root pathArr) as [t|] eqn:Ht; [|discriminate].
  look_in_updated Ht. rewrite children_setChildren.
  apply find_removeNamed_same.
Qed.

Lemma removal_below (root : Directory) (segs more : list string) (n : Node) :
  nodeAt root segs = Some n -> more <> [] ->
  nodeAt
    (updateTarget root (parentPath segs) (fun d =>
       setChildren d (removeNamed (lastName segs) (children d))))
    (segs ++ more)
  = None.
Proof.
  intros Hn Hm. assert (segs <> []) as Hne by (intros ->; discriminate).
  apply nodeAt_below_nondirectory; try assumption.
  now rewrite (removal_at _ _ _ Hn).
Qed.

Lemma removal_outside (root : Directory) (segs other : list string) :
  segs <> [] -> ~ extends segs other ->
  sameEntry
    (nodeAt
       (updateTarget root (parentPath segs) (fun d =>
          setChildren d (removeNamed (lastName segs) (children d)))) other)
    (nodeAt root other).
Proof.
  intros Hne Hout.
  apply (nodeAt_updateTarget_outside _ (lastName segs));
    try (intros; reflexivity).
  - intros t a Ha. rewrite children_setChildren.
    now apply find_removeNamed_other.
  - now rewrite <- (segments_split _ Hne).
Qed.

Lemma deleteFileSync_other_files
    (isIgnored : string -> bool) (root : Directory) (p : string)
    (segs : list string) (g : File) :
  segs <> getPathNodes p ->
  nodeAt (rootAfter (deleteFileSync isIgnored root p)) segs = Some (FileNode g)
  <-> nodeAt root segs = Some (FileNode g).
Proof.
  intros Hsegs. rewrite deleteFileSync_cases.
  destruct (isIgnored p); [simpl; tauto|].
  destruct (nodeAt root (getPathNodes p)) as [[node|sub]|] eqn:Hn;
    simpl; try tauto.
  assert (getPathNodes p <> []) as Hne by (intros E; now rewrite E in Hn).
  destruct (extends_dec (getPathNodes p) segs) as [[more ->]|Hout].
  - assert (more <> []) as Hm
      by (intros ->; apply Hsegs; now rewrite app_nil_r).
    rewrite (removal_below _ _ _ _ Hn Hm).
    rewrite nodeAt_below_nondirectory; try assumption; [tauto|].
    now rewrite Hn.
  - apply sameEntry_files. now apply removal_outside.
Qed.

(** X3: [deleteFileSync], whether it returns or throws, changes no text that
    [loadTextFileSync] returns for a path with other segments. *)
Theorem deleteFile_keeps_other_reads
    (isIgnored : string -> bool) (root : Directory) (p q c : string) :
  getPathNodes q <> getPathNodes p ->
  completion
    (loadTextFileSync isIgnored
       (rootAfter (deleteFileSync isIgnored root p)) q) = Return c
  <-> completion (loadTextFileSync isIgnored root q) = Return c.
Proof.
  intros Hq. apply loads_alike. intros g.
  now apply deleteFileSync_other_files.
Qed.

(** X3, witnessed: deleting [a/c.txt] beside [a/b.txt]. *)
Lemma deleteFile_keeps_other_reads_witness :
  completion
    (loadTextFileSync nothingIgnored
       (rootAfter
          (deleteFileSync nothingIgnored
             (perform nothingIgnored
                (perform nothingIgnored emptyRoot (saveFile "a/b.txt" "hi"))
                (saveFile "a/c.txt" "ho"))
             "a/c.txt"))
       "a/b.txt") = Return "hi"
  <-> completion
        (loadTextFileSync nothingIgnored
           (perform nothingIgnored
              (perform nothingIgnored emptyRoot (saveFile "a/b.txt" "hi"))
              (saveFile "a/c.txt" "ho"))
           "a/b.txt") = Return "hi".
Proof.
  apply (deleteFile_keeps_other_reads nothingIgnored
           (perform nothingIgnored
              (perform nothingIgnored emptyRoot (saveFile "a/b.txt" "hi"))
              (saveFile "a/c.txt" "ho"))
           "a/c.txt" "a/b.txt" "hi").
  discriminate.
Defined.

Lemma deleteDirectorySync_outside
    (isIgnored : string -> bool) (root : Directory) (p : string)
    (recursive : option bool) (segs : list string) :
  ~ extends (getPathNodes p) segs ->
  sameEntry
    (nodeAt (rootAfter (deleteDirectorySync isIgnored root p recursive)) segs)
    (nodeAt root segs).
Proof.
  intros Hout. rewrite deleteDirectorySync_cases.
  destruct (getPathNodes p) as [|s l] eqn:Hp; [apply sameEntry_refl|].
  destruct (isIgnored p); [apply sameEntry_refl|].
  destruct (nodeAt root (s :: l)) as [[node|sub]|];
    try apply sameEntry_refl.
  destruct (_ && _); [apply sameEntry_refl|]. cbn [rootAfter].
  apply removal_outside; [discriminate|assumption].
Qed.

(** X4: [deleteDirectorySync], whether it returns or throws, changes no
    text that [loadTextFileSync] returns for a path that does not lie at or
    below the deleted path. *)
Theorem deleteDirectory_keeps_outside_reads
    (isIgnored : string -> bool) (root : Directory) (p q c : string)
    (recursive : option bool) :
  ~ extends (getPathNodes p) (getPathNodes q) ->
  completion
    (loadTextFileSync isIgnored
       (rootAfter (deleteDirectorySync isIgnored root p recursive)) q)
  = Return c
  <-> completion (loadTextFileSync isIgnored root q) = Return c.
Proof.
  intros Hq. apply loads_alike. intros g. apply sameEntry_files.
  now apply deleteDirectorySync_outside.
Qed.

(** X4, witnessed: deleting the directory [a] beside the file [b.txt]. *)
Lemma deleteDirectory_keeps_outside_reads_witness :
  completion
    (loadTextFileSync nothingIgnored
       (rootAfter
          (deleteDirectorySync nothingIgnored
             (perform nothingIgnored
                (perform nothingIgnored emptyRoot (saveFile "b.txt" "hi"))
                (saveFile "a/c.txt" "ho"))
             "a" (Some true)))
       "b.txt") = Return "hi"
  <-> completion
        (loadTextFileSync nothingIgnored
           (perform nothingIgnored
              (perform nothingIgnored emptyRoot (saveFile "b.txt" "hi"))
              (saveFile "a/c.txt" "ho"))
           "b.txt") = Return "hi".
Proof.
  apply (deleteDirectory_keeps_outside_reads nothingIgnored
           (perform nothingIgnored
              (perform nothingIgnored emptyRoot (saveFile "b.txt" "hi"))
              (saveFile "a/c.txt" "ho"))
           "a" "b.txt" "hi" (Some true)).
  intros [rest H]. discriminate.
Defined.

Lemma getPathTargetFrom_nodeAt (segs : list string) :
  forall current d,
    segs <> [] ->
    getPathTargetFrom current segs = Some d ->
    nodeAt current segs = Some (DirNode d).
Proof.
  induction segs as [|a segs IH]; intros current d Hne H; [congruence|].
  destruct segs as [|b segs].
  - rewrite nodeAt_single. simpl in H.
    destruct (nonEmpty a); [|discriminate].
    destruct (find (children current) a) as [[f|next]|]; try discriminate.
    now inversion H.
  - rewrite nodeAt_cons.
    change (getPathTargetFrom current (a :: b :: segs))
      with (if nonEmpty a then
              match find (children current) a with
              | Some (DirNode node) => getPathTargetFrom node (b :: segs)
              | _ => None
              end
            else None) in H.
    destruct (nonEmpty a); [|discriminate].
    destruct (find (children current) a) as [[f|next]|]; try discriminate.
    apply IH; [discriminate|assumption].
Qed.

(** X5: where a file is found at a path that is not ignored,
    [deleteFileSync] returns and emits exactly one [fileDeleted] with the
    path as given; afterwards nothing is found at the path, and
    [loadTextFileSync] of it throws the cannot-find error. *)
Theorem deleteFile_removes
    (isIgnored : string -> bool) (root : Directory) (p : string) (node : File) :
  isIgnored p = false ->
  nodeAt root (getPathNodes p) = Some (FileNode node) ->
  completion (deleteFileSync isIgnored root p) = Return tt
  /\ emitted (deleteFileSync isIgnored root p) = [fileDeleted p]
  /\ nodeAt (rootAfter (deleteFileSync isIgnored root p)) (getPathNodes p)
     = None
  /\ completion
       (loadTextFileSync isIgnored
          (rootAfter (deleteFileSync isIgnored root p)) p)
     = Throw (CannotFindFile p).
Proof.
  intros Hp Hn. rewrite deleteFileSync_cases, Hp, Hn.
  cbn [completion emitted rootAfter].
  rewrite (loadTextFileSync_nodeAt _ _ _ Hp), (removal_at _ _ _ Hn).
  repeat split; reflexivity.
Qed.

(** X5, witnessed on the saved [a/b.txt]. *)
Lemma deleteFile_removes_witness :
  completion
    (deleteFileSync nothingIgnored
       (perform nothingIgnored emptyRoot (saveFile "a/b.txt" "hi")) "a/b.txt")
  = Return tt
  /\ emitted
       (deleteFileSync nothingIgnored
          (perform nothingIgnored emptyRoot (saveFile "a/b.txt" "hi"))
          "a/b.txt")
     = [fileDeleted "a/b.txt"]
  /\ nodeAt
       (rootAfter
          (deleteFileSync nothingIgnored
             (perform nothingIgnored emptyRoot (saveFile "a/b.txt" "hi"))
             "a/b.txt"))
       (getPathNodes "a/b.txt")
     = None
  /\ completion
       (loadTextFileSync nothingIgnored
          (rootAfter
             (deleteFileSync nothingIgnored
                (perform nothingIgnored emptyRoot (saveFile "a/b.txt" "hi"))
                "a/b.txt"))
          "a/b.txt")
     = Throw (CannotFindFile "a/b.txt").
Proof.
  apply (deleteFile_removes nothingIgnored
           (perform nothingIgnored emptyRoot (saveFile "a/b.txt" "hi"))
           "a/b.txt" (mkFile "b.txt" "a/b.txt" (Some "hi"))).
  - reflexivity.
  - reflexivity.
Defined.

(** X6: where a directory is found at a path that is not ignored, and it is
    empty or the deletion is recursive, [deleteDirectorySync] returns with
    the events of [recursiveEmitDeletion] on that directory; afterwards
    nothing is found at the path nor at any path below it, and both listings
    of the path throw the unable-to-read-folder error. *)
Theorem deleteDirectory_removes
    (isIgnored : string -> bool) (root : Directory) (p : string)
    (recursive : option bool) (node : Directory) :
  isIgnored p = false ->
  nodeAt root (getPathNodes p) = Some (DirNode node) ->
  recursive = Some true \/ children node = [] ->
  completion (deleteDirectorySync isIgnored root p recursive) = Return tt
  /\ emitted (deleteDirectorySync isIgnored root p recursive)
     = recursiveEmitDeletion node
  /\ (forall segs,
         extends (getPathNodes p) segs ->
         nodeAt (rootAfter (deleteDirectorySync isIgnored root p recursive))
           segs = None)
  /\ completion
       (loadDirectoryTreeSync isIgnored
          (rootAfter (deleteDirectorySync isIgnored root p recursive))
          (Some p))
     = Throw (UnableToReadFolderInPath p)
  /\ completion
       (loadDirectoryChildrenSync isIgnored
          (rootAfter (deleteDirectorySync isIgnored root p recursive)) p)
     = Throw (UnableToReadFolderInPath p).
Proof.
  intros Hp Hn Hrec.
  assert (Hguard :
            negb (match recursive with Some b => b | None => false end)
            && negb (Nat.eqb (length (children node)) 0) = false).
  { destruct Hrec as [->| ->]; [reflexivity|]. apply andb_false_r. }
  assert (Hgone : forall segs,
             extends (getPathNodes p) segs ->
             nodeAt
               (updateTarget root (parentPath (getPathNodes p)) (fun d =>
                  setChildren d
                    (removeNamed (lastName (getPathNodes p)) (children d))))
               segs = None).
  { intros segs [more ->]. destruct more as [|m more].
    - rewrite app_nil_r. now apply (removal_at _ _ _ Hn).
    - now apply (removal_below _ _ _ _ Hn). }
  assert (Hlisted :
            listedDirectory
              (updateTarget root (parentPath (getPathNodes p)) (fun d =>
                 setChildren d
                   (removeNamed (lastName (getPathNodes p)) (children d))))
              p = None).
  { unfold listedDirectory, getPathTarget. revert Hn Hgone.
    destruct (getPathNodes p) as [|s l]; intros Hn Hgone; [discriminate|].
    destruct (getPathTargetFrom _ (s :: l)) as [d|] eqn:Hd; [|reflexivity].
    apply getPathTargetFrom_nodeAt in Hd; [|discriminate].
    rewrite Hgone in Hd; [discriminate|]. exists []. now rewrite app_nil_r. }
  rewrite deleteDirectorySync_cases. revert Hn Hgone Hlisted.
  destruct (getPathNodes p) as [|s l]; intros Hn Hgone Hlisted;
    [discriminate|].
  rewrite Hp, Hn, Hguard. cbn [completion emitted rootAfter].
  unfold loadDirectoryTreeSync, loadDirectoryChildrenSync.
  rewrite Hp, Hlisted. repeat split; try reflexivity. exact Hgone.
Qed.

(** X6, witnessed: deleting [a], which holds [a/b/c.txt], recursively. *)
Lemma deleteDirectory_removes_witness :
  completion
    (deleteDirectorySync nothingIgnored
       (perform nothingIgnored emptyRoot (saveFile "a/b/c.txt" "hi"))
       "a" (Some true)) = Return tt
  /\ emitted
       (deleteDirectorySync nothingIgnored
          (perform nothingIgnored emptyRoot (saveFile "a/b/c.txt" "hi"))
          "a" (Some true))
     = recursiveEmitDeletion
         (mkDirectory "a" "a"
            [DirNode
               (mkDirectory "b" "a/b"
                  [FileNode (mkFile "c.txt" "a/b/c.txt" (Some "hi"))])])
  /\ (forall segs,
         extends (getPathNodes "a") segs ->
         nodeAt
           (rootAfter
              (deleteDirectorySync nothingIgnored
                 (perform nothingIgnored emptyRoot
                    (saveFile "a/b/c.txt" "hi"))
                 "a" (Some true)))
           segs = None)
  /\ completion
       (loadDirectoryTreeSync nothingIgnored
          (rootAfter
             (deleteDirectorySync nothingIgnored
                (perform nothingIgnored emptyRoot (saveFile "a/b/c.txt" "hi"))
                "a" (Some true)))
          (Some "a"))
     = Throw (UnableToReadFolderInPath "a")
  /\ completion
       (loadDirectoryChildrenSync nothingIgnored
          (rootAfter
             (deleteDirectorySync nothingIgnored
                (perform nothingIgnored emptyRoot (saveFile "a/b/c.txt" "hi"))
                "a" (Some true)))
          "a")
     = Throw (UnableToReadFolderInPath "a").
Proof.
  apply (deleteDirectory_removes nothingIgnored
           (perform nothingIgnored emptyRoot (saveFile "a/b/c.txt" "hi"))
           "a" (Some true)).
  - reflexivity.
  - reflexivity.
  - left. reflexivity.
Defined.

(** ** Properties over whole trees *)

(** Induction over a directory and the directories below it. *)
Lemma Directory_tree_ind (P : Directory -> Prop) :
  (forall nm fp cs,
      Forall (fun c => match c with
                       | DirNode d => P d
                       | FileNode _ => True
                       end) cs ->
      P (mkDirectory nm fp cs)) ->
  forall d, P d.
Proof.
  intros H. fix IH 1. intros [nm fp cs]. apply H.
  induction cs as [|c cs IHcs]; constructor.
  - destruct c as [f|d]; [exact I|apply IH].
  - exact IHcs.
Qed.

Lemma deletedDirectories_app (a b : list Event) :
  deletedDirectories (a ++ b) = deletedDirectories a ++ deletedDirectories b.
Proof. apply flat_map_app. Qed.

Lemma deletedFiles_app (a b : list Event) :
  deletedFiles (a ++ b) = deletedFiles a ++ deletedFiles b.
Proof. apply flat_map_app. Qed.

(** The events of [recursiveEmitDeletion]: only deletions; the
    [directoryDeleted] events are those of the directory and of every
    directory below it, parents before their children; there is one
    [fileDeleted] event for every node below the directory, directories
    included. *)
Lemma recursiveEmitDeletion_events (d : Directory) :
  forallb isDeletion (recursiveEmitDeletion d) = true
  /\ deletedDirectories (recursiveEmitDeletion d)
     = fullPath d :: directoriesBelow d
  /\ Permutation (deletedFiles (recursiveEmitDeletion d))
       (map nodeFullPath (descendants d)).
Proof.
  induction d as [nm fp cs IH] using Directory_tree_ind.
  unfold directoriesBelow. simpl recursiveEmitDeletion. simpl descendants.
  simpl fullPath. cbn [forallb isDeletion andb].
  change (deletedDirectories (directoryDeleted fp :: ?l))
    with (fp :: deletedDirectories l).
  change (deletedFiles (directoryDeleted fp :: ?l)) with (deletedFiles l).
  induction IH as [|c cs Hc Hcs IHcs]; [repeat split; constructor|].
  destruct IHcs as (Hall & Hdirs & Hfiles).
  injection Hdirs as Hdirs.
  cbn [flat_map].
  rewrite forallb_app, deletedDirectories_app, deletedFiles_app.
  rewrite map_app, flat_map_app, Hall, Hdirs.
  destruct c as [f|sub].
  - repeat split.
    + simpl. now apply Permutation_cons.
  - destruct Hc as (Hsub & Hsubdirs & Hsubfiles).
    rewrite forallb_app, deletedDirectories_app, deletedFiles_app.
    rewrite Hsub, Hsubdirs. unfold directoriesBelow. simpl.
    rewrite !app_nil_r. repeat split.
    change (fullPath sub
            :: map nodeFullPath (descendants sub) ++ ?l)
      with ((fullPath sub :: map nodeFullPath (descendants sub)) ++ l).
    apply Permutation_app; [|assumption].
    apply (Permutation_trans
             (l' := fullPath sub :: deletedFiles (recursiveEmitDeletion sub))).
    + apply Permutation_sym, Permutation_cons_append.
    + now apply Permutation_cons.
Qed.

(** X7: where [deleteDirectorySync] deletes the directory found at a path
    (not ignored; empty, or deleted recursively), the events are deletions
    only; the [directoryDeleted] events are that of the directory, then
    those of every directory below it, parents before their children; and
    there is exactly one [fileDeleted] event for every node below the
    directory, the directories below it included. *)
Theorem deletion_events
    (isIgnored : string -> bool) (root : Directory) (p : string)
    (recursive : option bool) (node : Directory) :
  isIgnored p = false ->
  nodeAt root (getPathNodes p) = Some (DirNode node) ->
  recursive = Some true \/ children node = [] ->
  forallb isDeletion
    (emitted (deleteDirectorySync isIgnored root p recursive)) = true
  /\ deletedDirectories
       (emitted (deleteDirectorySync isIgnored root p recursive))
     = fullPath node :: directoriesBelow node
  /\ Permutation
       (deletedFiles
          (emitted (deleteDirectorySync isIgnored root p recursive)))
       (map nodeFullPath (descendants node)).
Proof.
  intros Hp Hn Hrec.
  assert (Hguard :
            negb (match recursive with Some b => b | None => false end)
            && negb (Nat.eqb (length (children node)) 0) = false).
  { destruct Hrec as [->| ->]; [reflexivity|]. apply andb_false_r. }
  rewrite deleteDirectorySync_cases. revert Hn.
  destruct (getPathNodes p) as [|s l]; intros Hn; [discriminate|].
  rewrite Hp, Hn, Hguard. cbn [emitted].
  apply recursiveEmitDeletion_events.
Qed.

(** X7, witnessed: deleting [a], which holds [a/b/c.txt], recursively. *)
Lemma deletion_events_witness :
  forallb isDeletion
    (emitted
       (deleteDirectorySync nothingIgnored
          (perform nothingIgnored emptyRoot (saveFile "a/b/c.txt" "hi"))
          "a" (Some true))) = true
  /\ deletedDirectories
       (emitted
          (deleteDirectorySync nothingIgnored
             (perform nothingIgnored emptyRoot (saveFile "a/b/c.txt" "hi"))
             "a" (Some true)))
     = fullPath
         (mkDirectory "a" "a"
            [DirNode
               (mkDirectory "b" "a/b"
                  [FileNode (mkFile "c.txt" "a/b/c.txt" (Some "hi"))])])
       :: directoriesBelow
            (mkDirectory "a" "a"
               [DirNode
                  (mkDirectory "b" "a/b"
                     [FileNode (mkFile "c.txt" "a/b/c.txt" (Some "hi"))])])
  /\ Permutation
       (deletedFiles
          (emitted
             (deleteDirectorySync nothingIgnored
                (perform nothingIgnored emptyRoot (saveFile "a/b/c.txt" "hi"))
                "a" (Some true))))
       (map nodeFullPath
          (descendants
             (mkDirectory "a" "a"
                [DirNode
                   (mkDirectory "b" "a/b"
                      [FileNode (mkFile "c.txt" "a/b/c.txt" (Some "hi"))])]))).
Proof.
  apply (deletion_events nothingIgnored
           (perform nothingIgnored emptyRoot (saveFile "a/b/c.txt" "hi"))
           "a" (Some true)).
  - reflexivity.
  - reflexivity.
  - left. reflexivity.
Defined.

(** ** Calls that throw, calls that emit nothing *)

(** A walk that emits nothing has changed nothing. *)
Lemma ensureFrom_silent (names : list string) :
  forall current err d,
    ensureFrom current names = (err, d, []) -> d = current.
Proof.
  induction names as [|nm rest IH]; simpl; intros current err d H.
  - now inversion H.
  - destruct (find (children current) nm) as [[g|next]|] eqn:F.
    + now inversion H.
    + destruct (ensureFrom next rest) as [[err' next'] evs'] eqn:E.
      inversion H; subst. rewrite (IH _ _ _ E).
      now rewrite (replaceFirst_found _ _ _ F), setChildren_children.
    + destruct (ensureFrom _ rest) as [[err' next'] evs'].
      inversion H.
Qed.

(** A walk that emits an event has made a directory that was not there. *)
Lemma ensureFrom_loud (names : list string) (current d : Directory)
    (err : option Error) (evs : list Event) :
  Forall (fun s => nonEmpty s = true) names ->
  ensureFrom current names = (err, d, evs) -> evs <> [] ->
  getPathTargetFrom current names = None
  /\ getPathTargetFrom d names <> None.
Proof.
  intros Hnames E Hevs. split.
  - destruct (getPathTargetFrom current names) as [t|] eqn:Ht; [|reflexivity].
    rewrite (ensureFrom_existing _ _ _ Ht) in E. inversion E. congruence.
  - destruct err as [e|].
    + apply ensureFrom_throw_unchanged in E as [_ ->]. congruence.
    + destruct (ensureFrom_target _ Hnames _ _ _ E) as (t & -> & _).
      discriminate.
Qed.

(** The error of a walk that throws names the full path stored in the file
    that the walk met, and the file is the node at the segments walked up to
    it. *)
Lemma ensureFrom_error (names : list string) :
  forall current e d evs,
    Forall (fun s => nonEmpty s = true) names ->
    ensureFrom current names = (Some e, d, evs) ->
    exists k f,
      k < length names
      /\ nodeAt current (firstn (S k) names) = Some (FileNode f)
      /\ e = SegmentIsAFile (fileFullPath f).
Proof.
  induction names as [|nm rest IH]; intros current e d evs Hnames H.
  - discriminate.
  - inversion Hnames as [|? ? Hnm Hrest]; subst. simpl in H.
    destruct (find (children current) nm) as [[g|next]|] eqn:F.
    + inversion H; subst.
      exists 0, g. split; [simpl; lia|].
      split; [|reflexivity].
      change (firstn 1 (nm :: rest)) with [nm].
      rewrite nodeAt_single. exact F.
    + destruct (ensureFrom next rest) as [[err' next'] evs'] eqn:E.
      inversion H; subst.
      destruct (IH _ _ _ _ Hrest E) as (k & f & Hk & Hf & He).
      exists (S k), f. repeat split; [simpl; lia| |exact He].
      destruct rest as [|a rest']; [simpl in Hk; lia|].
      change (firstn (S (S k)) (nm :: a :: rest'))
        with (nm :: a :: firstn k rest').
      rewrite nodeAt_cons, Hnm, F. exact Hf.
    + pose proof (ensureFrom_empty_succeeds rest
                    (mkDirectory nm (newFullPath (fullPath current) nm) [])
                    eq_refl) as Hok.
      destruct (ensureFrom _ rest) as [[err' next'] evs'].
      simpl in Hok. subst err'. discriminate.
Qed.

(** X8: [ensureDirectorySync] throws exactly when the path is ignored or a
    file occupies one of its segments.  Where the path is ignored the error
    names the path; where it is not, a file is the node at some of the first
    segments of the path, and the error names the full path stored in that
    file.  A call that throws has left the tree as it was and emitted
    nothing. *)
Theorem ensureDirectory_throws
    (isIgnored : string -> bool) (root : Directory) (p : string) :
  ((exists e, completion (ensureDirectorySync isIgnored root p) = Throw e)
   <-> isIgnored p = true \/ blockedByFile root (getPathNodes p) = true)
  /\ (forall e,
         completion (ensureDirectorySync isIgnored root p) = Throw e ->
         rootAfter (ensureDirectorySync isIgnored root p) = root
         /\ emitted (ensureDirectorySync isIgnored root p) = []
         /\ ((isIgnored p = true
              /\ e = UnableToReadAndWriteIgnoredPath p)
             \/ (isIgnored p = false
                 /\ exists k f,
                      k < length (getPathNodes p)
                      /\ nodeAt root (firstn (S k) (getPathNodes p))
                         = Some (FileNode f)
                      /\ e = SegmentIsAFile (fileFullPath f)))).
Proof.
  unfold ensureDirectorySync. destruct (isIgnored p) eqn:Hp.
  - split.
    + split; [now left|]. intros _. now eexists.
    + intros e H. inversion H. repeat split. left. now split.
  - pose proof (ensureFrom_succeeds_iff (getPathNodes p) root) as Hok.
    destruct (ensureFrom root (getPathNodes p)) as [[[e0|] d] evs] eqn:E;
      simpl in Hok.
    + split.
      * split; [intros _; right|intros _; now eexists].
        destruct (blockedByFile root (getPathNodes p)); [reflexivity|].
        pose proof (proj2 Hok eq_refl). discriminate.
      * intros e H. inversion H; subst e0.
        destruct (ensureFrom_throw_unchanged _ _ _ _ _ E) as [-> ->].
        repeat split. right. split; [reflexivity|].
        apply (ensureFrom_error _ _ _ _ _
                 (segments_nonEmpty _ (getPathNodes_segments p)) E).
    + split.
      * split; [intros [e H]; discriminate|].
        intros [H|H]; [discriminate|].
        rewrite (proj1 Hok eq_refl) in H. discriminate.
      * intros e H. discriminate.
Qed.

(** X9: [deleteFileSync] throws exactly when the path is not ignored and a
    directory is found at it; [deleteDirectorySync] throws exactly when the
    path has no segment, or is not ignored and leads to a file, or is not
    ignored and leads to a directory with children while the deletion is not
    recursive.  Either call, when it throws, has left the tree as it was
    and emitted nothing. *)
Theorem delete_throws
    (isIgnored : string -> bool) (root : Directory) (p : string)
    (recursive : option bool) :
  ((exists e, completion (deleteFileSync isIgnored root p) = Throw e)
   <-> isIgnored p = false /\ isDir (nodeAt root (getPathNodes p)) = true)
  /\ ((exists e,
          completion (deleteDirectorySync isIgnored root p recursive) = Throw e)
      <-> getPathNodes p = []
          \/ (isIgnored p = false
              /\ isFile (nodeAt root (getPathNodes p)) = true)
          \/ (isIgnored p = false
              /\ recursive <> Some true
              /\ exists node,
                   nodeAt root (getPathNodes p) = Some (DirNode node)
                   /\ children node <> []))
  /\ (forall e,
         completion (deleteFileSync isIgnored root p) = Throw e ->
         rootAfter (deleteFileSync isIgnored root p) = root
         /\ emitted (deleteFileSync isIgnored root p) = [])
  /\ (forall e,
         completion (deleteDirectorySync isIgnored root p recursive)
         = Throw e ->
         rootAfter (deleteDirectorySync isIgnored root p recursive) = root
         /\ emitted (deleteDirectorySync isIgnored root p recursive) = []).
Proof.
  rewrite deleteFileSync_cases, deleteDirectorySync_cases.
  split; [|split; [|split]].
  - destruct (isIgnored p).
    + split; [intros [e H]; discriminate|intros [H _]; discriminate].
    + destruct (nodeAt root (getPathNodes p)) as [[f|d]|]; simpl.
      * split; [intros [e H]; discriminate|intros [_ H]; discriminate].
      * split; [intros _; now split|intros _; now eexists].
      * split; [intros [e H]; discriminate|intros [_ H]; discriminate].
  - destruct (getPathNodes p) as [|s l] eqn:Hsegs.
    + split; [intros _; now left|intros _; now eexists].
    + destruct (isIgnored p).
      * split; [intros [e H]; discriminate|].
        intros [H|[[H _]|[H _]]]; discriminate.
      * destruct (nodeAt root (s :: l)) as [[f|d]|]; simpl.
        -- split; [intros _; right; left; now split|intros _; now eexists].
        -- destruct recursive as [[|]|]; simpl.
           ++ split; [intros [e H]; discriminate|].
              intros [H|[[_ H]|(_ & H & _)]]; try discriminate. congruence.
           ++ destruct (children d) as [|c cs] eqn:Hc; simpl.
              ** split; [intros [e H]; discriminate|].
                 intros [H|[[_ H]|(_ & _ & node & Hnode & Hne)]];
                   try discriminate.
                 inversion Hnode; subst node. congruence.
              ** split; [|intros _; now eexists].
                 intros _. right. right. repeat split; [discriminate|].
                 exists d. split; [reflexivity|]. now rewrite Hc.
           ++ destruct (children d) as [|c cs] eqn:Hc; simpl.
              ** split; [intros [e H]; discriminate|].
                 intros [H|[[_ H]|(_ & _ & node & Hnode & Hne)]];
                   try discriminate.
                 inversion Hnode; subst node. congruence.
              ** split; [|intros _; now eexists].
                 intros _. right. right. repeat split; [discriminate|].
                 exists d. split; [reflexivity|]. now rewrite Hc.
        -- split; [intros [e H]; discriminate|].
           intros [H|[[_ H]|(_ & _ & node & Hnode & _)]]; discriminate.
  - intros e. destruct (isIgnored p); [discriminate|].
    destruct (nodeAt root (getPathNodes p)) as [[f|d]|]; simpl;
      try discriminate. now split.
  - intros e. destruct (getPathNodes p) as [|s l]; [now split|].
    destruct (isIgnored p); [discriminate|].
    destruct (nodeAt root (s :: l)) as [[f|d]|]; simpl;
      try discriminate; [now split|].
    destruct (_ && _); simpl; [now split|discriminate].
Qed.

(** X8, witnessed: a file at [a] blocks [ensureDirectory('a/b')]. *)
Lemma ensureDirectory_throws_witness :
  rootAfter
    (ensureDirectorySync nothingIgnored
       (perform nothingIgnored emptyRoot (saveFile "a" "x")) "a/b")
  = perform nothingIgnored emptyRoot (saveFile "a" "x")
  /\ emitted
       (ensureDirectorySync nothingIgnored
          (perform nothingIgnored emptyRoot (saveFile "a" "x")) "a/b")
     = []
  /\ ((nothingIgnored "a/b" = true
       /\ SegmentIsAFile "a" = UnableToReadAndWriteIgnoredPath "a/b")
      \/ (nothingIgnored "a/b" = false
          /\ exists k f,
               k < length (getPathNodes "a/b")
               /\ nodeAt (perform nothingIgnored emptyRoot (saveFile "a" "x"))
                    (firstn (S k) (getPathNodes "a/b"))
                  = Some (FileNode f)
               /\ SegmentIsAFile "a" = SegmentIsAFile (fileFullPath f))).
Proof.
  apply (proj2 (ensureDirectory_throws nothingIgnored
                  (perform nothingIgnored emptyRoot (saveFile "a" "x")) "a/b")
           (SegmentIsAFile "a")).
  reflexivity.
Defined.

(** X9, witnessed: deleting the directory [a], which holds a file, without
    the recursive flag. *)
Lemma delete_throws_witness :
  rootAfter
    (deleteDirectorySync nothingIgnored
       (perform nothingIgnored emptyRoot (saveFile "a/b.txt" "hi")) "a" None)
  = perform nothingIgnored emptyRoot (saveFile "a/b.txt" "hi")
  /\ emitted
       (deleteDirectorySync nothingIgnored
          (perform nothingIgnored emptyRoot (saveFile "a/b.txt" "hi"))
          "a" None)
     = [].
Proof.
  apply (proj2 (proj2 (proj2
           (delete_throws nothingIgnored
              (perform nothingIgnored emptyRoot (saveFile "a/b.txt" "hi"))
              "a" None)))
           (DirectoryIsNotEmpty "a")).
  reflexivity.
Defined.

Lemma recursiveEmitDeletion_not_nil (node : Directory) :
  recursiveEmitDeletion node <> [].
Proof. destruct node. discriminate. Qed.

Lemma saveFileSync_events_iff_change
    (isIgnored : string -> bool) (root : Directory) (p c : string) :
  emitted (saveFileSync isIgnored root p c) = []
  <-> rootAfter (saveFileSync isIgnored root p c) = root.
Proof.
  unfold saveFileSync.
  destruct (isIgnored p); [simpl; tauto|].
  destruct (pop (getPathNodes p)) as [[pathArr nm]|] eqn:Hpop;
    [|simpl; tauto].
  destruct (nonEmpty nm); [|simpl; tauto].
  apply pop_getPathNodes in Hpop as (_ & Hsegs & _).
  unfold ensureDirectorySync.
  destruct (isIgnored (join pathArr)); [simpl; tauto|].
  rewrite (getPathNodes_join _ Hsegs).
  destruct (ensureFrom root pathArr) as [[[e|] d] evs] eqn:E; simpl.
  { destruct (ensureFrom_throw_unchanged _ _ _ _ _ E) as [-> ->]. tauto. }
  destruct (ensureFrom_target _ (segments_nonEmpty _ Hsegs) _ _ _ E)
    as (t & Ht & Hcases).
  assert (Hfound : forall n, find (children t) nm = Some n ->
                             d = root /\ evs = []).
  { intros n F. destruct Hcases as [H|[Hnil _]]; [exact H|].
    rewrite Hnil in F. discriminate. }
  assert (Hbefore : find (children t) nm = None ->
                    nodeAt root (pathArr ++ [nm]) = None).
  { intros F. rewrite nodeAt_snoc.
    destruct (getPathTargetFrom root pathArr) as [t0|] eqn:Ht0;
      [|reflexivity].
    rewrite (ensureFrom_existing _ _ _ Ht0) in E. inversion E; subst.
    rewrite Ht in Ht0. now inversion Ht0; subst. }
  unfold saveInto, getPathTarget. rewrite Ht.
  destruct (find (children t) nm) as [[g0|sub]|] eqn:F; simpl.
  - destruct (Hfound _ eq_refl) as [-> ->].
    destruct (content g0) as [c0|] eqn:Hc0.
    + destruct (String.eqb c0 c) eqn:Hcc; simpl; [tauto|].
      split; [discriminate|]. intros Hsame. exfalso.
      pose proof (f_equal (fun r => nodeAt r (pathArr ++ [nm])) Hsame) as Hat.
      simpl in Hat. rewrite !nodeAt_snoc, Ht in Hat.
      revert Hat. look_in_updated Ht. rewrite children_setChildren, F.
      apply find_Some in F as F'. destruct F' as [_ Hname].
      rewrite (find_replaceFirst _ _ _ _ F) by exact Hname.
      intros Hat. inversion Hat as [Hg]. rewrite <- Hg in Hc0. simpl in Hc0.
      inversion Hc0; subst. now rewrite String.eqb_refl in Hcc.
    + simpl. split; [discriminate|]. intros Hsame. exfalso.
      pose proof (f_equal (fun r => nodeAt r (pathArr ++ [nm])) Hsame) as Hat.
      simpl in Hat. rewrite !nodeAt_snoc, Ht in Hat.
      revert Hat. look_in_updated Ht. rewrite children_setChildren, F.
      apply find_Some in F as F'. destruct F' as [_ Hname].
      rewrite (find_replaceFirst _ _ _ _ F) by exact Hname.
      intros Hat. inversion Hat as [Hg]. rewrite <- Hg in Hc0. discriminate.
  - destruct (Hfound _ eq_refl) as [-> ->]. tauto.
  - split; [destruct evs; discriminate|]. intros Hsame. exfalso.
    pose proof (f_equal (fun r => nodeAt r (pathArr ++ [nm])) Hsame) as Hat.
    simpl in Hat. rewrite (Hbefore eq_refl), nodeAt_snoc in Hat.
    revert Hat. look_in_updated Ht. rewrite children_setChildren.
    now rewrite (find_app_None _ _ _ F).
Qed.

Lemma ensureDirectorySync_events_iff_change
    (isIgnored : string -> bool) (root : Directory) (p : string) :
  emitted (ensureDirectorySync isIgnored root p) = []
  <-> rootAfter (ensureDirectorySync isIgnored root p) = root.
Proof.
  unfold ensureDirectorySync. destruct (isIgnored p); [simpl; tauto|].
  destruct (ensureFrom root (getPathNodes p)) as [[err d] evs] eqn:E.
  assert (evs = [] <-> d = root) as Hiff.
  { split.
    - intros ->. now apply (ensureFrom_silent _ _ _ _ E).
    - intros ->. destruct evs as [|ev evs]; [reflexivity|]. exfalso.
      destruct (ensureFrom_loud _ _ _ _ _
                  (segments_nonEmpty _ (getPathNodes_segments p)) E)
        as [Hnone Hsome]; [discriminate|]. contradiction. }
  destruct err; exact Hiff.
Qed.

Lemma deleteFileSync_events_iff_change
    (isIgnored : string -> bool) (root : Directory) (p : string) :
  emitted (deleteFileSync isIgnored root p) = []
  <-> rootAfter (deleteFileSync isIgnored root p) = root.
Proof.
  rewrite deleteFileSync_cases. destruct (isIgnored p); [simpl; tauto|].
  destruct (nodeAt root (getPathNodes p)) as [[f|d]|] eqn:Hn;
    cbn [emitted rootAfter]; try tauto.
  split; [discriminate|]. intros Hsame. exfalso.
  pose proof (removal_at _ _ _ Hn) as Hgone.
  rewrite Hsame, Hn in Hgone. discriminate.
Qed.

Lemma deleteDirectorySync_events_iff_change
    (isIgnored : string -> bool) (root : Directory) (p : string)
    (recursive : option bool) :
  emitted (deleteDirectorySync isIgnored root p recursive) = []
  <-> rootAfter (deleteDirectorySync isIgnored root p recursive) = root.
Proof.
  rewrite deleteDirectorySync_cases.
  destruct (getPathNodes p) as [|s l]; [simpl; tauto|].
  destruct (isIgnored p); [simpl; tauto|].
  destruct (nodeAt root (s :: l)) as [[f|d]|] eqn:Hn;
    cbn [emitted rootAfter]; try tauto.
  destruct (_ && _); cbn [emitted rootAfter]; [tauto|].
  split.
  - intros H. now apply recursiveEmitDeletion_not_nil in H.
  - intros Hsame. exfalso.
    pose proof (removal_at _ _ _ Hn) as Hgone.
    rewrite Hsame, Hn in Hgone. discriminate.
Qed.

(** X10: every call changes the tree exactly when it emits an event: a call
    that emits nothing leaves the tree as it was, and a call that emits an
    event leaves another tree. *)
Theorem events_iff_change
    (isIgnored : string -> bool) (root : Directory) (op : Operation) :
  emits isIgnored root op = [] <-> perform isIgnored root op = root.
Proof.
  destruct op as [p c|p|p r|p|p|q|p]; simpl.
  - apply saveFileSync_events_iff_change.
  - apply deleteFileSync_events_iff_change.
  - apply deleteDirectorySync_events_iff_change.
  - apply ensureDirectorySync_events_iff_change.
  - destruct (loadTextFileSync_pure isIgnored root p) as [-> ->]. tauto.
  - destruct (loadDirectoryTreeSync_pure isIgnored root q) as [-> ->]. tauto.
  - destruct (loadDirectoryChildrenSync_pure isIgnored root p) as [-> ->].
    tauto.
Qed.

(** ** Saving twice *)

(** What a [saveFileSync] that returned leaves at the path: the file the
    constructor makes where no node was there, and a file that holds the
    content where one was. *)
Lemma saveFileSync_stored
    (isIgnored : string -> bool) (root : Directory) (p c : string) :
  isIgnored p = false -> getPathNodes p <> [] ->
  completion (saveFileSync isIgnored root p c) = Return tt ->
  (nodeAt root (getPathNodes p) = None ->
   nodeAt (rootAfter (saveFileSync isIgnored root p c)) (getPathNodes p)
   = Some (FileNode (newFile (lastName (getPathNodes p)) p c)))
  /\ (nodeAt root (getPathNodes p) <> None ->
      exists f,
        nodeAt (rootAfter (saveFileSync isIgnored root p c)) (getPathNodes p)
        = Some (FileNode f)
        /\ content f = Some c).
Proof.
  intros Hp Hne Hsave.
  pose proof (proj1 (saveFileSync_returns_iff _ _ _ c Hp Hne) Hsave)
    as (Hparent & Hblocked & Hdir).
  destruct (saveFileSync_cases isIgnored root p c Hp Hne Hparent)
    as (Hchanged & Hsame & Hcreated).
  split.
  - intros Habsent. now apply Hcreated.
  - intros Hthere.
    destruct (nodeAt root (getPathNodes p)) as [[g|d]|] eqn:Hg;
      [|discriminate|congruence].
    assert (Hdec : content g = Some c \/ content g <> Some c).
    { destruct (content g) as [c0|]; [|right; discriminate].
      destruct (String.eqb c0 c) eqn:Hcc.
      - apply String.eqb_eq in Hcc. left. now subst.
      - apply String.eqb_neq in Hcc. right. congruence. }
    destruct Hdec as [Hc|Hc].
    + exists g. rewrite (Hsame g eq_refl Hc). cbn [rootAfter]. now split.
    + destruct (Hchanged g eq_refl Hc) as (_ & Hafter & _).
      eexists. split; [exact Hafter|reflexivity].
Qed.

(** X11: after a [saveFileSync] that returned, a second call with the same
    path and content changes nothing and emits nothing where the first call
    found a node at the path or the content is not empty; where the first
    call created the file with the empty content, which the constructor does
    not keep, the second call returns, sets the content of the file and
    emits one [fileChanged]; a third call changes nothing and emits nothing
    in every case. *)
Theorem saveFile_twice
    (isIgnored : string -> bool) (root : Directory) (p c : string) :
  completion (saveFileSync isIgnored root p c) = Return tt ->
  (nodeAt root (getPathNodes p) <> None \/ c <> EmptyString ->
   saveFileSync isIgnored (rootAfter (saveFileSync isIgnored root p c)) p c
   = mkOutcome (Return tt) (rootAfter (saveFileSync isIgnored root p c)) [])
  /\ (nodeAt root (getPathNodes p) = None -> c = EmptyString ->
      completion
        (saveFileSync isIgnored
           (rootAfter (saveFileSync isIgnored root p c)) p c) = Return tt
      /\ emitted
           (saveFileSync isIgnored
              (rootAfter (saveFileSync isIgnored root p c)) p c)
         = [fileChanged p c]
      /\ nodeAt
           (rootAfter
              (saveFileSync isIgnored
                 (rootAfter (saveFileSync isIgnored root p c)) p c))
           (getPathNodes p)
         = Some (FileNode (mkFile (lastName (getPathNodes p)) p (Some c))))
  /\ saveFileSync isIgnored
       (rootAfter
          (saveFileSync isIgnored
             (rootAfter (saveFileSync isIgnored root p c)) p c)) p c
     = mkOutcome (Return tt)
         (rootAfter
            (saveFileSync isIgnored
               (rootAfter (saveFileSync isIgnored root p c)) p c)) [].
Proof.
  intros Hsave.
  assert (Hp : isIgnored p = false).
  { unfold saveFileSync in Hsave. destruct (isIgnored p); [discriminate|].
    reflexivity. }
  assert (Hne : getPathNodes p <> []).
  { intros Hnil. unfold saveFileSync in Hsave. rewrite Hp, Hnil in Hsave.
    discriminate. }
  pose proof (proj1 (saveFileSync_returns_iff _ _ _ c Hp Hne) Hsave)
    as (Hparent & _).
  destruct (saveFileSync_stored _ _ _ _ Hp Hne Hsave) as [Hnew Hold].
  pose proof (saveFileSync_cases isIgnored
                (rootAfter (saveFileSync isIgnored root p c)) p c
                Hp Hne Hparent) as (Hchanged & Hsame & _).
  assert (Hquiet :
            nodeAt root (getPathNodes p) <> None \/ c <> EmptyString ->
            saveFileSync isIgnored
              (rootAfter (saveFileSync isIgnored root p c)) p c
            = mkOutcome (Return tt)
                (rootAfter (saveFileSync isIgnored root p c)) []).
  { intros [Hthere|Hc].
    - destruct (Hold Hthere) as (f & Hf & Hcontent).
      now apply (Hsame f).
    - destruct (nodeAt root (getPathNodes p)) as [n|] eqn:Hn.
      + destruct Hold as (f & Hf & Hcontent); [discriminate|].
        now apply (Hsame f).
      + apply (Hsame _ (Hnew eq_refl)).
        destruct c; [congruence|reflexivity]. }
  assert (Hloud :
            nodeAt root (getPathNodes p) = None -> c = EmptyString ->
            completion
              (saveFileSync isIgnored
                 (rootAfter (saveFileSync isIgnored root p c)) p c)
            = Return tt
            /\ emitted
                 (saveFileSync isIgnored
                    (rootAfter (saveFileSync isIgnored root p c)) p c)
               = [fileChanged p c]
            /\ nodeAt
                 (rootAfter
                    (saveFileSync isIgnored
                       (rootAfter (saveFileSync isIgnored root p c)) p c))
                 (getPathNodes p)
               = Some (FileNode
                         (mkFile (lastName (getPathNodes p)) p (Some c)))).
  { intros Habsent Hc.
    destruct (Hchanged _ (Hnew Habsent)) as (Hret & Hafter & Hevs).
    - subst c. discriminate.
    - repeat split; assumption. }
  split; [exact Hquiet|]. split; [exact Hloud|].
  assert (Hcase : (nodeAt root (getPathNodes p) <> None \/ c <> EmptyString)
                  \/ (nodeAt root (getPathNodes p) = None
                      /\ c = EmptyString)).
  { destruct (nodeAt root (getPathNodes p)); [left; left; discriminate|].
    destruct c; [right; now split|left; right; discriminate]. }
  destruct Hcase as [Hq|[Habsent Hc]].
  - rewrite (Hquiet Hq). cbn [rootAfter]. exact (Hquiet Hq).
  - destruct (Hloud Habsent Hc) as (Hret & _ & Hafter).
    pose proof (proj1 (saveFileSync_returns_iff _ _ _ c Hp Hne) Hret)
      as (Hparent2 & _).
    exact (proj1 (proj2 (saveFileSync_cases isIgnored _ p c Hp Hne Hparent2))
             _ Hafter eq_refl).
Qed.

(** X11, witnessed on a fresh store, for the content [hi] and for the
    empty content. *)
Lemma saveFile_twice_witness :
  saveFileSync nothingIgnored
    (rootAfter (saveFileSync nothingIgnored emptyRoot "a/b.txt" "hi"))
    "a/b.txt" "hi"
  = mkOutcome (Return tt)
      (rootAfter (saveFileSync nothingIgnored emptyRoot "a/b.txt" "hi")) []
  /\ emitted
       (saveFileSync nothingIgnored
          (rootAfter
             (saveFileSync nothingIgnored emptyRoot "a.txt" EmptyString))
          "a.txt" EmptyString)
     = [fileChanged "a.txt" EmptyString].
Proof.
  split.
  - apply (proj1 (saveFile_twice nothingIgnored emptyRoot "a/b.txt" "hi"
                    eq_refl)).
    right. discriminate.
  - apply (proj1 (proj2 (saveFile_twice nothingIgnored emptyRoot "a.txt"
                           EmptyString eq_refl))); reflexivity.
Defined.

(** ** The two listings *)

Lemma name_parseTree (d : Directory) : name (parseTree d) = name d.
Proof. destruct d; reflexivity. Qed.

Lemma children_parseTree (d : Directory) :
  children (parseTree d) = map listedNode (children d).
Proof. destruct d; reflexivity. Qed.

Lemma shallowNode_listedNode (c : Node) :
  shallowNode (listedNode c) = shallowNode c.
Proof.
  destruct c as [f|d]; simpl; [reflexivity|].
  now rewrite name_parseTree, fullPath_parseTree.
Qed.

(** X12: on every tree and path, [loadDirectoryChildrenSync] throws the
    error [loadDirectoryTreeSync] throws, and returns, when that one returns
    a tree, the children of that tree, each without its own children. *)
Theorem listings_agree
    (isIgnored : string -> bool) (root : Directory) (p : string) :
  completion (loadDirectoryChildrenSync isIgnored root p)
  = match completion (loadDirectoryTreeSync isIgnored root (Some p)) with
    | Return tree => Return (map shallowNode (children tree))
    | Throw e => Throw e
    end.
Proof.
  unfold loadDirectoryChildrenSync, loadDirectoryTreeSync.
  destruct (isIgnored p); [reflexivity|].
  destruct (listedDirectory root p) as [dir|]; [|reflexivity].
  cbn [completion]. rewrite children_parseTree, map_map. f_equal.
  apply map_ext. intros c. rewrite shallowNode_listedNode.
  now destruct c.
Qed.

Lemma entryOf_listedNode (c : Node) : entryOf (listedNode c) = entryOf c.
Proof.
  destruct c as [f|d]; unfold entryOf; simpl; [reflexivity|].
  now rewrite name_parseTree, fullPath_parseTree.
Qed.

(** The listing of a directory shows the nodes below it, in the same order,
    with their kinds, names and full paths, and no content. *)
Lemma parseTree_entries (d : Directory) :
  map entryOf (descendants (parseTree d)) = map entryOf (descendants d)
  /\ (forall f, In (FileNode f) (descendants (parseTree d)) ->
                content f = None)
  /\ parseTree (parseTree d) = parseTree d.
Proof.
  induction d as [nm fp cs IH] using Directory_tree_ind.
  change (parseTree (mkDirectory nm fp cs))
    with (mkDirectory nm fp (map listedNode cs)).
  change (parseTree (mkDirectory nm fp (map listedNode cs)))
    with (mkDirectory nm fp (map listedNode (map listedNode cs))).
  assert (map entryOf (descendants (mkDirectory nm fp (map listedNode cs)))
          = map entryOf (descendants (mkDirectory nm fp cs))
          /\ (forall f,
                 In (FileNode f)
                   (descendants (mkDirectory nm fp (map listedNode cs))) ->
                 content f = None)
          /\ map listedNode (map listedNode cs) = map listedNode cs)
    as (H1 & H2 & H3); [|now rewrite H3].
  induction IH as [|c cs Hc Hcs IHcs].
  - repeat split. intros f [].
  - destruct IHcs as (Hentries & Hcontent & Hidem).
    change (descendants (mkDirectory nm fp (map listedNode (c :: cs))))
      with ((listedNode c
             :: match listedNode c with
                | DirNode d' => descendants d'
                | FileNode _ => []
                end)
            ++ descendants (mkDirectory nm fp (map listedNode cs))).
    change (descendants (mkDirectory nm fp (c :: cs)))
      with ((c :: match c with
                  | DirNode d' => descendants d'
                  | FileNode _ => []
                  end)
            ++ descendants (mkDirectory nm fp cs)).
    rewrite !map_app, Hentries. cbn [map]. rewrite entryOf_listedNode, Hidem.
    destruct c as [f|sub].
    + repeat split.
      intros f' Hf'. apply in_app_or in Hf' as [[Hf'|[]]|Hf'];
        [now inversion Hf'|now apply Hcontent].
    + destruct Hc as (Hsub & Hsubcontent & Hsubidem).
      cbn [listedNode]. rewrite Hsub, Hsubidem. repeat split.
      intros f' Hf'. apply in_app_or in Hf' as [[Hf'|Hf']|Hf'];
        [discriminate|now apply Hsubcontent|now apply Hcontent].
Qed.

(** X13: the tree [loadDirectoryTreeSync] returns is the listing of a
    directory of the store: it has that directory's name and full path, shows
    the nodes below it in the same order with their kinds, names and full
    paths, holds no file content, and listing it again changes nothing. *)
Theorem listed_tree
    (isIgnored : string -> bool) (root tree : Directory) (q : option string) :
  completion (loadDirectoryTreeSync isIgnored root q) = Return tree ->
  exists dir,
    listedDirectory root
      (match q with Some p => p | None => EmptyString end) = Some dir
    /\ name tree = name dir /\ fullPath tree = fullPath dir
    /\ map entryOf (descendants tree) = map entryOf (descendants dir)
    /\ (forall f, In (FileNode f) (descendants tree) -> content f = None)
    /\ parseTree tree = tree.
Proof.
  unfold loadDirectoryTreeSync.
  destruct (isIgnored _); [discriminate|].
  destruct (listedDirectory root _) as [dir|]; [|discriminate].
  intros H. inversion H; subst tree. exists dir.
  destruct (parseTree_entries dir) as (He & Hc & Hi).
  repeat split; try assumption.
  - apply name_parseTree.
  - apply fullPath_parseTree.
Qed.

(** X13, witnessed on the store that holds [a/b.txt]. *)
Lemma listed_tree_witness :
  exists dir,
    listedDirectory
      (perform nothingIgnored emptyRoot (saveFile "a/b.txt" "hi")) "a"
    = Some dir
    /\ name (mkDirectory "a" "a" [FileNode (mkFile "b.txt" "a/b.txt" None)])
       = name dir
    /\ fullPath (mkDirectory "a" "a" [FileNode (mkFile "b.txt" "a/b.txt" None)])
       = fullPath dir
    /\ map entryOf
         (descendants
            (mkDirectory "a" "a" [FileNode (mkFile "b.txt" "a/b.txt" None)]))
       = map entryOf (descendants dir)
    /\ (forall f,
           In (FileNode f)
             (descendants
                (mkDirectory "a" "a"
                   [FileNode (mkFile "b.txt" "a/b.txt" None)])) ->
           content f = None)
    /\ parseTree
         (mkDirectory "a" "a" [FileNode (mkFile "b.txt" "a/b.txt" None)])
       = mkDirectory "a" "a" [FileNode (mkFile "b.txt" "a/b.txt" None)].
Proof.
  apply (listed_tree nothingIgnored
           (perform nothingIgnored emptyRoot (saveFile "a/b.txt" "hi"))
           (mkDirectory "a" "a" [FileNode (mkFile "b.txt" "a/b.txt" None)])
           (Some "a")).
  reflexivity.
Defined.

(** ** Sibling names *)

Lemma map_nodeName_replaceFirst (nm : string) (n : Node) (cs : list Node) :
  nodeName n = nm ->
  map nodeName (replaceFirst nm n cs) = map nodeName cs.
Proof.
  intros Hn. induction cs as [|c cs IH]; simpl; [reflexivity|].
  destruct (String.eqb (nodeName c) nm) eqn:E; simpl.
  - apply String.eqb_eq in E. congruence.
  - now rewrite IH.
Qed.

Lemma find_None_names (cs : list Node) (nm : string) :
  find cs nm = None -> ~ In nm (map nodeName cs).
Proof.
  unfold find. induction cs as [|c cs IH]; simpl; [tauto|].
  destruct (String.eqb (nodeName c) nm) eqn:E; [discriminate|].
  apply String.eqb_neq in E. intros H [Hc|Hin]; [contradiction|].
  now apply IH.
Qed.

Lemma NoDup_names_push (cs : list Node) (n : Node) :
  NoDup (map nodeName cs) -> find cs (nodeName n) = None ->
  NoDup (map nodeName (cs ++ [n])).
Proof.
  intros Hcs Hn. rewrite map_app. simpl.
  apply NoDup_app; [assumption|repeat constructor; intros []|].
  intros x Hx [<-|[]]. now apply (find_None_names _ _ Hn).
Qed.

Lemma NoDup_names_removeNamed (nm : string) (cs : list Node) :
  NoDup (map nodeName cs) -> NoDup (map nodeName (removeNamed nm cs)).
Proof.
  unfold removeNamed. induction cs as [|c cs IH]; simpl; intros H;
    [constructor|].
  inversion H as [|? ? Hnotin Hrest]; subst.
  destruct (negb (String.eqb (nodeName c) nm)); simpl; [|now apply IH].
  constructor; [|now apply IH].
  intros Hin. apply Hnotin. apply in_map_iff in Hin as (x & Hx & Hfil).
  apply filter_In in Hfil as [Hfil _]. apply in_map_iff. now exists x.
Qed.

Lemma uniqueNames_empty (d : Directory) : children d = [] -> uniqueNames d.
Proof.
  intros Hc. constructor; rewrite Hc; [constructor|intros ? []].
Qed.

Lemma uniqueNames_replace (d : Directory) (nm : string) (n : Node) :
  uniqueNames d -> nodeName n = nm ->
  (forall d', n = DirNode d' -> uniqueNames d') ->
  uniqueNames (setChildren d (replaceFirst nm n (children d))).
Proof.
  intros Hd Hn Hsub. inversion Hd as [? Hnodup Hall]; subst.
  constructor; rewrite children_setChildren.
  - now rewrite map_nodeName_replaceFirst.
  - intros d' Hin. apply In_replaceFirst in Hin as [Heq|Hin];
      [now apply Hsub|now apply Hall].
Qed.

Lemma uniqueNames_push (d : Directory) (n : Node) :
  uniqueNames d -> find (children d) (nodeName n) = None ->
  (forall d', n = DirNode d' -> uniqueNames d') ->
  uniqueNames (setChildren d (children d ++ [n])).
Proof.
  intros Hd Hn Hsub. inversion Hd as [? Hnodup Hall]; subst.
  constructor; rewrite children_setChildren.
  - now apply NoDup_names_push.
  - intros d' Hin. apply in_app_or in Hin as [Hin|[Heq|[]]];
      [now apply Hall|now apply Hsub].
Qed.

Lemma uniqueNames_removeNamed (d : Directory) (nm : string) :
  uniqueNames d ->
  uniqueNames (setChildren d (removeNamed nm (children d))).
Proof.
  intros Hd. inversion Hd as [? Hnodup Hall]; subst.
  constructor; rewrite children_setChildren.
  - now apply NoDup_names_removeNamed.
  - intros d' Hin. apply filter_In in Hin as [Hin _]. now apply Hall.
Qed.

Lemma ensureFrom_uniqueNames (names : list string) :
  forall current err d evs,
    uniqueNames current ->
    ensureFrom current names = (err, d, evs) ->
    uniqueNames d.
Proof.
  induction names as [|nm rest IH]; simpl; intros current err d evs Hcur H.
  - now inversion H; subst.
  - destruct (find (children current) nm) as [[g|next]|] eqn:F.
    + now inversion H; subst.
    + destruct (ensureFrom next rest) as [[err' next'] evs'] eqn:E.
      inversion H; subst. clear H.
      destruct (ensureFrom_keeps_identity _ _ _ _ _ E) as [Hn _].
      apply find_Some in F as [Hin Hname]. simpl in Hname.
      apply uniqueNames_replace; [assumption|simpl; congruence|].
      intros d' Heq. inversion Heq; subst d'.
      apply (IH next _ _ _) in E; [assumption|].
      inversion Hcur as [? _ Hall]; subst. now apply Hall.
    + destruct (ensureFrom _ rest) as [[err' newDir'] evs'] eqn:E.
      inversion H; subst. clear H.
      destruct (ensureFrom_keeps_identity _ _ _ _ _ E) as [Hn _].
      simpl in Hn.
      apply uniqueNames_push; [assumption|simpl; now rewrite Hn|].
      intros d' Heq. inversion Heq; subst d'.
      apply (IH _ _ _ _
               (uniqueNames_empty
                  (mkDirectory nm (newFullPath (fullPath current) nm) [])
                  eq_refl) E).
Qed.

Lemma updateTarget_uniqueNames (f : Directory -> Directory)
    (pathArr : list string) :
  (forall t, name (f t) = name t) ->
  forall current t,
    getPathTargetFrom current pathArr = Some t ->
    (uniqueNames t -> uniqueNames (f t)) ->
    uniqueNames current ->
    uniqueNames (updateTarget current pathArr f).
Proof.
  intros Hn. induction pathArr as [|nm rest IH];
    simpl; intros current t Ht Hf Hcur.
  - inversion Ht; subst. now apply Hf.
  - destruct (nonEmpty nm); [|discriminate].
    destruct (find (children current) nm) as [[g|next]|] eqn:F;
      try discriminate.
    apply find_Some in F as [Hin Hname]. simpl in Hname.
    apply uniqueNames_replace; [assumption| |].
    + simpl. now rewrite updateTarget_name.
    + intros d' Heq. inversion Heq; subst d'.
      apply (IH next t); try assumption.
      inversion Hcur as [? _ Hall]; subst. now apply Hall.
Qed.

Lemma getPathTargetFrom_uniqueNames (pathArr : list string) :
  forall current t,
    getPathTargetFrom current pathArr = Some t ->
    uniqueNames current -> uniqueNames t.
Proof.
  induction pathArr as [|nm rest IH]; simpl; intros current t Ht Hcur.
  - now inversion Ht; subst.
  - destruct (nonEmpty nm); [|discriminate].
    destruct (find (children current) nm) as [[g|next]|] eqn:F;
      try discriminate.
    apply find_Some in F as [Hin _].
    apply (IH next t Ht). inversion Hcur as [? _ Hall]; subst.
    now apply Hall.
Qed.

Section UniqueNamesKept.

Variable isIgnored : string -> bool.

Lemma ensureDirectorySync_uniqueNames (root : Directory) (p : string) :
  uniqueNames root ->
  uniqueNames (rootAfter (ensureDirectorySync isIgnored root p)).
Proof.
  intros Hroot. unfold ensureDirectorySync.
  destruct (isIgnored p); [assumption|].
  destruct (ensureFrom root (getPathNodes p)) as [[err d] evs] eqn:E.
  pose proof (ensureFrom_uniqueNames _ _ _ _ _ Hroot E).
  now destruct err.
Qed.

Lemma saveInto_uniqueNames (d : Directory) (pathArr : list string)
    (nm p c : string) (evs : list Event) :
  uniqueNames d ->
  uniqueNames (rootAfter (saveInto d pathArr nm p c evs)).
Proof.
  intros Hd. unfold saveInto, getPathTarget.
  destruct (getPathTargetFrom d pathArr) as [t|] eqn:Ht; [|assumption].
  destruct (find (children t) nm) as [[g|sub]|] eqn:F; simpl;
    try assumption.
  - destruct (match content g with
              | Some c0 => String.eqb c0 c
              | None => false
              end); simpl; [assumption|].
    apply find_Some in F as [_ Hname].
    apply updateTarget_uniqueNames with (t := t);
      [intros; reflexivity|exact Ht| |assumption].
    intros Hwt. apply uniqueNames_replace; [assumption|exact Hname|].
    intros d' Heq. discriminate.
  - apply updateTarget_uniqueNames with (t := t);
      [intros; reflexivity|exact Ht| |assumption].
    intros Hwt. apply uniqueNames_push; [assumption|exact F|].
    intros d' Heq. discriminate.
Qed.

Lemma saveFileSync_uniqueNames (root : Directory) (p c : string) :
  uniqueNames root ->
  uniqueNames (rootAfter (saveFileSync isIgnored root p c)).
Proof.
  intros Hroot. unfold saveFileSync.
  destruct (isIgnored p); [assumption|].
  destruct (pop (getPathNodes p)) as [[pathArr nm]|]; [|assumption].
  destruct (nonEmpty nm); [|assumption].
  pose proof (ensureDirectorySync_uniqueNames root (join pathArr) Hroot).
  destruct (completion (ensureDirectorySync isIgnored root (join pathArr)));
    [|assumption].
  now apply saveInto_uniqueNames.
Qed.

Lemma deleteFileSync_uniqueNames (root : Directory) (p : string) :
  uniqueNames root ->
  uniqueNames (rootAfter (deleteFileSync isIgnored root p)).
Proof.
  intros Hroot. unfold deleteFileSync, getPathTarget.
  destruct (getPathNodes p) as [|s l]; [assumption|].
  destruct (getPathTargetFrom root (parentPath (s :: l))) as [t|] eqn:Ht;
    [|assumption].
  destruct (negb (isIgnored p)); [|assumption].
  destruct (find _ _) as [[f0|d0]|]; try assumption. cbn [rootAfter].
  apply updateTarget_uniqueNames with (t := t);
    [intros; reflexivity|exact Ht| |assumption].
  apply uniqueNames_removeNamed.
Qed.

Lemma deleteDirectorySync_uniqueNames (root : Directory) (p : string)
    (recursive : option bool) :
  uniqueNames root ->
  uniqueNames (rootAfter (deleteDirectorySync isIgnored root p recursive)).
Proof.
  intros Hroot. unfold deleteDirectorySync, getPathTarget.
  destruct (getPathNodes p) as [|s l]; [assumption|].
  destruct (getPathTargetFrom root (parentPath (s :: l))) as [t|] eqn:Ht;
    [|assumption].
  destruct (negb (isIgnored p)); [|assumption].
  destruct (find _ _) as [[f0|d0]|]; try assumption.
  destruct (_ && _); [assumption|]. cbn [rootAfter].
  apply updateTarget_uniqueNames with (t := t);
    [intros; reflexivity|exact Ht| |assumption].
  apply uniqueNames_removeNamed.
Qed.

Lemma reachable_uniqueNames (root : Directory) :
  reachable isIgnored root -> uniqueNames root.
Proof.
  induction 1 as [|root op Hreach IH].
  - now apply uniqueNames_empty.
  - destruct op as [p c|p|p r|p|p|q|p]; simpl.
    + now apply saveFileSync_uniqueNames.
    + now apply deleteFileSync_uniqueNames.
    + now apply deleteDirectorySync_uniqueNames.
    + now apply ensureDirectorySync_uniqueNames.
    + now rewrite (proj1 (loadTextFileSync_pure _ _ _)).
    + now rewrite (proj1 (loadDirectoryTreeSync_pure _ _ _)).
    + now rewrite (proj1 (loadDirectoryChildrenSync_pure _ _ _)).
Qed.

End UniqueNamesKept.

Lemma uniqueNames_below (d : Directory) :
  uniqueNames d ->
  forall d', In (DirNode d') (descendants d) ->
             NoDup (map nodeName (children d')).
Proof.
  induction 1 as [d Hnodup Hall IH]. destruct d as [nm fp cs].
  simpl in *. intros d' Hin.
  apply in_flat_map in Hin as (c & Hc & Hin).
  destruct Hin as [->|Hin].
  - specialize (Hall _ Hc). now inversion Hall.
  - destruct c as [f|sub]; [destruct Hin|]. now apply (IH sub).
Qed.

(** X14: in every tree the store can hold, no two children of a directory
    share a name, in the root and in every directory below it. *)
Theorem sibling_names_unique
    (isIgnored : string -> bool) (root d : Directory) :
  reachable isIgnored root ->
  d = root \/ In (DirNode d) (descendants root) ->
  NoDup (map nodeName (children d)).
Proof.
  intros Hreach Hd. pose proof (reachable_uniqueNames _ _ Hreach) as Hroot.
  destruct Hd as [->|Hd].
  - now inversion Hroot.
  - now apply (uniqueNames_below root).
Qed.

(** X14, witnessed on the directory [a] of the store that holds [a/b.txt]
    and [a/c.txt]. *)
Lemma sibling_names_unique_witness :
  NoDup
    (map nodeName
       (children
          (mkDirectory "a" "a"
             [FileNode (mkFile "b.txt" "a/b.txt" (Some "hi"));
              FileNode (mkFile "c.txt" "a/c.txt" (Some "ho"))]))).
Proof.
  apply (sibling_names_unique nothingIgnored
           (perform nothingIgnored
              (perform nothingIgnored emptyRoot (saveFile "a/b.txt" "hi"))
              (saveFile "a/c.txt" "ho"))).
  - apply reachable_perform, reachable_perform, reachable_fresh.
  - right. left. reflexivity.
Defined.

(** ** Names and full paths *)

Lemma perform_name (isIgnored : string -> bool) (root : Directory)
    (op : Operation) :
  name (perform isIgnored root op) = name root.
Proof.
  destruct op as [p c|p|p r|p|p|q|p]; simpl.
  - unfold saveFileSync. destruct (isIgnored p); [reflexivity|].
    destruct (pop (getPathNodes p)) as [[pathArr nm]|]; [|reflexivity].
    destruct (nonEmpty nm); [|reflexivity].
    assert (name (rootAfter (ensureDirectorySync isIgnored root (join pathArr)))
            = name root) as Hd.
    { unfold ensureDirectorySync.
      destruct (isIgnored (join pathArr)); [reflexivity|].
      destruct (ensureFrom root _) as [[err d] evs] eqn:E.
      destruct (ensureFrom_keeps_identity _ _ _ _ _ E) as [Hn _].
      now destruct err. }
    destruct (completion (ensureDirectorySync isIgnored root (join pathArr)));
      [|exact Hd].
    rewrite <- Hd. unfold saveInto.
    destruct (getPathTarget _ pathArr) as [t|]; [|reflexivity].
    destruct (find (children t) nm) as [[g|sub]|]; simpl; try reflexivity.
    + destruct (match content g with
                | Some c0 => String.eqb c0 c
                | None => false
                end); simpl; [reflexivity|].
      now apply updateTarget_name.
    + now apply updateTarget_name.
  - unfold deleteFileSync.
    destruct (getPathNodes p) as [|s l]; [reflexivity|].
    destruct (getPathTarget root _); [|reflexivity].
    destruct (negb (isIgnored p)); [|reflexivity].
    destruct (find _ _) as [[f0|d0]|]; try reflexivity.
    now apply updateTarget_name.
  - unfold deleteDirectorySync.
    destruct (getPathNodes p) as [|s l]; [reflexivity|].
    destruct (getPathTarget root _); [|reflexivity].
    destruct (negb (isIgnored p)); [|reflexivity].
    destruct (find _ _) as [[f0|d0]|]; try reflexivity.
    destruct (_ && _); [reflexivity|]. now apply updateTarget_name.
  - unfold ensureDirectorySync. destruct (isIgnored p); [reflexivity|].
    destruct (ensureFrom root _) as [[err d] evs] eqn:E.
    destruct (ensureFrom_keeps_identity _ _ _ _ _ E) as [Hn _].
    now destruct err.
  - now rewrite (proj1 (loadTextFileSync_pure _ _ _)).
  - now rewrite (proj1 (loadDirectoryTreeSync_pure _ _ _)).
  - now rewrite (proj1 (loadDirectoryChildrenSync_pure _ _ _)).
Qed.

Lemma reachable_root_name (isIgnored : string -> bool) (root : Directory) :
  reachable isIgnored root -> name root = EmptyString.
Proof.
  induction 1 as [|root op Hreach IH]; [reflexivity|].
  now rewrite perform_name.
Qed.

Lemma reachable_stored (isIgnored : string -> bool) (root : Directory) :
  reachable isIgnored root ->
  rootWellFormed (fun _ => True) (storedFile isIgnored) root.
Proof.
  apply reachable_wellFormed.
  - intros q _. split; [exact I|intros j; exact I].
  - intros q pathArr nm c Hq Hsegs Hparent. repeat split; assumption.
  - intros position g c Hg. exact Hg.
Qed.

(** X15: in every tree the store can hold, the root has the empty name and
    the empty full path; a node found at some names has the last of them for
    name; a directory found there has for full path the join of those
    names; a file found there has a full path that is not ignored, whose
    segments are those names, in a directory whose path is not ignored. *)
Theorem reachable_names_and_paths
    (isIgnored : string -> bool) (root : Directory) :
  reachable isIgnored root ->
  name root = EmptyString /\ fullPath root = EmptyString
  /\ forall segs n,
       nodeAt root segs = Some n ->
       nodeName n = lastName segs
       /\ match n with
          | DirNode d => fullPath d = join segs
          | FileNode f =>
              getPathNodes (fileFullPath f) = segs
              /\ isIgnored (fileFullPath f) = false
              /\ isIgnored (join (parentPath segs)) = false
          end.
Proof.
  intros Hreach. destruct (reachable_stored _ _ Hreach) as [Hfull Hwf].
  split; [|split; [exact Hfull|]].
  - now apply (reachable_root_name isIgnored).
  - intros segs n Hn.
    assert (exists pathArr nm, segs = pathArr ++ [nm]) as (pathArr & nm & ->).
    { destruct segs as [|s0 segs0]; [discriminate|].
      exists (parentPath (s0 :: segs0)), (lastName (s0 :: segs0)).
      apply app_removelast_last. discriminate. }
    rewrite parentPath_app, lastName_app. rewrite nodeAt_snoc in Hn.
    destruct (getPathTargetFrom root pathArr) as [t|] eqn:Ht; [|discriminate].
    destruct (getPathTargetFrom_wellFormed _ _ _ _ _ _ Hwf Hfull Ht)
      as [Hwt _].
    apply find_Some in Hn as [Hin Hname].
    inversion Hwt as [? ? Hall Hfile Hpath Hsub]; subst.
    split; [reflexivity|]. destruct n as [f|d].
    + destruct (Hfile _ Hin) as (Hown & Hparent & Hsegs). simpl in *.
      repeat split; assumption.
    + now rewrite (Hpath _ Hin).
Qed.

(** X15, witnessed on the file saved as [/a.txt]. *)
Lemma reachable_names_and_paths_witness :
  name (perform nothingIgnored emptyRoot (saveFile "/a.txt" "x")) = EmptyString
  /\ fullPath (perform nothingIgnored emptyRoot (saveFile "/a.txt" "x"))
     = EmptyString
  /\ forall segs n,
       nodeAt (perform nothingIgnored emptyRoot (saveFile "/a.txt" "x")) segs
       = Some n ->
       nodeName n = lastName segs
       /\ match n with
          | DirNode d => fullPath d = join segs
          | FileNode f =>
              getPathNodes (fileFullPath f) = segs
              /\ nothingIgnored (fileFullPath f) = false
              /\ nothingIgnored (join (parentPath segs)) = false
          end.
Proof.
  apply (reachable_names_and_paths nothingIgnored
           (perform nothingIgnored emptyRoot (saveFile "/a.txt" "x"))).
  apply reachable_perform, reachable_fresh.
Defined.

(** ** Listing after a call *)

Lemma listedDirectory_target (root : Directory) (p : string) :
  listedDirectory root p = getPathTargetFrom root (getPathNodes p).
Proof.
  unfold listedDirectory, getPathTarget. now destruct (getPathNodes p).
Qed.

Lemma loadDirectoryChildrenSync_listed
    (isIgnored : string -> bool) (root dir : Directory) (p : string) :
  isIgnored p = false -> listedDirectory root p = Some dir ->
  completion (loadDirectoryChildrenSync isIgnored root p)
  = Return (map shallowNode (children dir)).
Proof.
  intros Hp Hdir. unfold loadDirectoryChildrenSync. rewrite Hp, Hdir.
  cbn [completion]. f_equal. apply map_ext. intros c. now destruct c.
Qed.

(** X16: in every tree the store can hold, after an [ensureDirectorySync]
    that returned, the path leads to a directory whose full path is the join
    of the segments of the path; both listings of the path return, the tree
    listing with the listing of that directory and the children listing with
    its children; and the directory is empty when the path led to no
    directory before the call. *)
Theorem ensureDirectory_then_list
    (isIgnored : string -> bool) (root : Directory) (p : string) :
  reachable isIgnored root ->
  completion (ensureDirectorySync isIgnored root p) = Return tt ->
  exists dir,
    getPathTargetFrom (rootAfter (ensureDirectorySync isIgnored root p))
      (getPathNodes p) = Some dir
    /\ fullPath dir = join (getPathNodes p)
    /\ completion
         (loadDirectoryTreeSync isIgnored
            (rootAfter (ensureDirectorySync isIgnored root p)) (Some p))
       = Return (parseTree dir)
    /\ completion
         (loadDirectoryChildrenSync isIgnored
            (rootAfter (ensureDirectorySync isIgnored root p)) p)
       = Return (map shallowNode (children dir))
    /\ (getPathTargetFrom root (getPathNodes p) = None -> children dir = []).
Proof.
  intros Hreach Hret.
  pose proof (reachable_perform isIgnored root (ensureDirectory p) Hreach)
    as Hafter.
  apply (reachable_wellFormed isIgnored (fun _ => True) (fun _ _ => True)
           (fun q _ => conj I (fun j => I))
           (fun _ _ _ _ _ _ _ => I) (fun _ _ _ _ => I)) in Hafter.
  destruct Hafter as [Hfull Hwf]. simpl in Hfull, Hwf.
  revert Hret Hfull Hwf. unfold ensureDirectorySync.
  destruct (isIgnored p) eqn:Hp; [discriminate|].
  destruct (ensureFrom root (getPathNodes p)) as [[[e|] d] evs] eqn:E;
    [discriminate|]. cbn [rootAfter completion]. intros _ Hfull Hwf.
  destruct (ensureFrom_target _
              (segments_nonEmpty _ (getPathNodes_segments p)) _ _ _ E)
    as (t & Ht & Hcases).
  exists t.
  destruct (getPathTargetFrom_wellFormed _ _ _ _ _ _ Hwf Hfull Ht)
    as [_ Hpath].
  assert (Hlisted : listedDirectory d p = Some t)
    by now rewrite listedDirectory_target.
  repeat split; try assumption.
  - unfold loadDirectoryTreeSync. now rewrite Hp, Hlisted.
  - now apply loadDirectoryChildrenSync_listed.
  - intros Hnone. destruct Hcases as [[-> _]|[Hnil _]]; [|exact Hnil].
    rewrite Ht in Hnone. discriminate.
Qed.

(** X16, witnessed on a fresh store. *)
Lemma ensureDirectory_then_list_witness :
  exists dir,
    getPathTargetFrom
      (rootAfter (ensureDirectorySync nothingIgnored emptyRoot "a/b"))
      (getPathNodes "a/b") = Some dir
    /\ fullPath dir = join (getPathNodes "a/b")
    /\ completion
         (loadDirectoryTreeSync nothingIgnored
            (rootAfter (ensureDirectorySync nothingIgnored emptyRoot "a/b"))
            (Some "a/b"))
       = Return (parseTree dir)
    /\ completion
         (loadDirectoryChildrenSync nothingIgnored
            (rootAfter (ensureDirectorySync nothingIgnored emptyRoot "a/b"))
            "a/b")
       = Return (map shallowNode (children dir))
    /\ (getPathTargetFrom emptyRoot (getPathNodes "a/b") = None ->
        children dir = []).
Proof.
  apply (ensureDirectory_then_list nothingIgnored emptyRoot "a/b").
  - apply reachable_fresh.
  - reflexivity.
Defined.

(** X17: after a [saveFileSync] that returned, the children listing of the
    parent path returns and shows the file, under the last segment of the
    path as name, without its content. *)
Theorem saveFile_then_listed
    (isIgnored : string -> bool) (root : Directory) (p c : string) :
  completion (saveFileSync isIgnored root p c) = Return tt ->
  exists listing fp,
    completion
      (loadDirectoryChildrenSync isIgnored
         (rootAfter (saveFileSync isIgnored root p c))
         (join (parentPath (getPathNodes p))))
    = Return listing
    /\ In (ShallowFile (mkFile (lastName (getPathNodes p)) fp None)) listing.
Proof.
  intros Hsave.
  assert (Hp : isIgnored p = false).
  { unfold saveFileSync in Hsave. destruct (isIgnored p); [discriminate|].
    reflexivity. }
  assert (Hne : getPathNodes p <> []).
  { intros Hnil. unfold saveFileSync in Hsave. rewrite Hp, Hnil in Hsave.
    discriminate. }
  destruct (saveFileSync_nodeAt _ _ _ _ Hp Hne Hsave)
    as (f & Hf & Hname & _).
  pose proof (proj1 (saveFileSync_returns_iff _ _ _ c Hp Hne) Hsave)
    as (Hparent & _).
  destruct (getPathNodes_snoc _ Hne)
    as (pathArr & nm & Heq & _ & Hsegs & _).
  rewrite Heq in *. rewrite parentPath_app in *. rewrite lastName_app in *.
  rewrite nodeAt_snoc in Hf.
  destruct (getPathTargetFrom _ pathArr) as [t|] eqn:Ht; [|discriminate].
  exists (map shallowNode (children t)), (fileFullPath f). split.
  - apply loadDirectoryChildrenSync_listed; [assumption|].
    now rewrite listedDirectory_target, (getPathNodes_join _ Hsegs).
  - apply find_Some in Hf as [Hin _].
    apply in_map_iff. exists (FileNode f). split; [|assumption].
    simpl. now rewrite Hname.
Qed.

(** X17, witnessed on a fresh store. *)
Lemma saveFile_then_listed_witness :
  exists listing fp,
    completion
      (loadDirectoryChildrenSync nothingIgnored
         (rootAfter (saveFileSync nothingIgnored emptyRoot "a/b.txt" "hi"))
         (join (parentPath (getPathNodes "a/b.txt"))))
    = Return listing
    /\ In (ShallowFile (mkFile (lastName (getPathNodes "a/b.txt")) fp None))
         listing.
Proof.
  apply (saveFile_then_listed nothingIgnored emptyRoot "a/b.txt" "hi").
  reflexivity.
Defined.
